(** * Snapshot normalisation: filename canonicaliser and inline compactor

    A shallow embedding of [_bin/fix-single-file-naming.ts] and
    [_bin/fix-snapshots.ts].

    JavaScript strings are sequences of UTF-16 code units; they are modelled
    as [list N].  Indices are [nat]; the JavaScript result [-1] of a failed
    search is [None]. *)

From Stdlib Require Import NArith ZArith Lia Ascii String List.
From stdpp Require Import base decidable option numbers list gmap pretty.

#[local] Open Scope nat_scope.

(** ** JavaScript string primitives *)

Module JS.

Abbreviation jsstring := (list N).

(** String literals of the sources: one code unit per ASCII character. *)
Fixpoint str (s : string) : jsstring :=
  match s with
  | EmptyString => []
  | String c r => N_of_ascii c :: str r
  end.

Definition eqb (a b : jsstring) : bool := bool_decide (a = b).

(** [s.slice(a, b)] and [s.slice(a)] for non-negative indices. *)
Definition slice (s : jsstring) (a b : nat) : jsstring := take (b - a) (drop a s).
Definition sliceFrom (s : jsstring) (a : nat) : jsstring := drop a s.

(** [s.startsWith(p)]. *)
Fixpoint startsWith (p s : jsstring) : bool :=
  match p, s with
  | [], _ => true
  | _ :: _, [] => false
  | a :: p', b :: s' => if N.eqb a b then startsWith p' s' else false
  end.

(** Leftmost occurrence of [needle] in [s], positions counted from [pos]. *)
Fixpoint find (needle s : jsstring) (pos : nat) : option nat :=
  if startsWith needle s then Some pos
  else match s with
       | [] => None
       | _ :: r => find needle r (S pos)
       end.

(** [s.indexOf(needle, from)]. *)
Definition indexOf (needle s : jsstring) (from : nat) : option nat :=
  find needle (drop from s) from.

(** The letters A to Z lowered, unit by unit.  This is [s.toLowerCase()] on
    a text whose cased letters are ASCII (a file extension, a host name),
    and the folding of a regular expression with the flag [i] and without
    [u].  It is also used for the lowered MIME text of a data URL: the two
    tests made on that text give the same on it as on [toLowerCaseUnicode]
    (shown below). *)
Definition lowerUnit (c : N) : N :=
  if ((65 <=? c) && (c <=? 90))%N then (c + 32)%N else c.
Definition toLowerCase (s : jsstring) : jsstring := map lowerUnit s.

(** [s.toLowerCase()] on a text of any script.  The case mapping of Unicode
    gives one code unit for one (and a surrogate pair for a pair), with one
    exception: U+0130, the capital I with a dot above, becomes [i] followed
    by U+0307, two units for one, and from there on an index into the
    lowered text is no longer an index into the text.  Outside ASCII only
    one more character has ASCII in its lower-case form: U+212A, the Kelvin
    sign, becomes [k].  Every other character outside ASCII is left as it is
    here: its lower-case form is a unit outside ASCII again, which no search
    for an ASCII text tells from the character itself. *)
Definition lowerUnits (c : N) : jsstring :=
  if (c =? 304)%N then [105; 775]%N
  else if (c =? 8490)%N then [107]%N
  else [lowerUnit c].
Definition toLowerCaseUnicode (s : jsstring) : jsstring :=
  concat (map lowerUnits s).

(** The class [\s] of JavaScript regular expressions. *)
Definition isSpace (c : N) : bool :=
  ((9 <=? c) && (c <=? 13) || (c =? 32) || (c =? 160) || (c =? 5760)
   || (8192 <=? c) && (c <=? 8202) || (c =? 8232) || (c =? 8233)
   || (c =? 8239) || (c =? 8287) || (c =? 12288) || (c =? 65279))%N.

(** [s.replace(/\s+/g, "")]. *)
Definition stripSpace (s : jsstring) : jsstring :=
  filter (fun c => isSpace c = false) s.

(** [Buffer.byteLength(s, "utf8")]: one byte below U+0080, two below U+0800,
    four for a surrogate pair, three otherwise (a lone surrogate is written
    as U+FFFD). *)
Definition isHigh (c : N) : bool := ((55296 <=? c) && (c <=? 56319))%N.
Definition isLow (c : N) : bool := ((56320 <=? c) && (c <=? 57343))%N.

Fixpoint byteLength (s : jsstring) : nat :=
  match s with
  | [] => 0
  | c :: r =>
      if (c <? 128)%N then 1 + byteLength r
      else if (c <? 2048)%N then 2 + byteLength r
      else if isHigh c then
        match r with
        | d :: r' => if isLow d then 4 + byteLength r' else 3 + byteLength r
        | [] => 3
        end
      else 3 + byteLength r
  end.

(** Template literal [`${n}`] for a non-negative integer. *)
Definition ofNat (n : nat) : jsstring := str (pretty n).

End JS.

Import JS.

(** ** Inline compactor ([_bin/fix-snapshots.ts]) *)

Module Compactor.

Abbreviation Buffer := (list N).

(** The three image pipelines the pass hands to the imaging library:
    [sharp(input, {animated})...resize({width})...webp({quality})],
    [sharp(input, {animated}).gif({reoptimise})] and
    [sharp(input).resize({width}).webp({quality})]. *)
Inductive job : Type :=
| GifToWebp (input : Buffer) (maxWidth quality : Z)
| GifReoptimise (input : Buffer)
| ToWebp (input : Buffer) (maxWidth quality : Z).

Definition job_input (j : job) : Buffer :=
  match j with
  | GifToWebp b _ _ => b
  | GifReoptimise b => b
  | ToWebp b _ _ => b
  end.

(** One located payload: the span [sp_start, sp_end) of the document, the
    MIME text read between [data:] and the first [;], the payload with its
    whitespace removed, and the text pushed to [out] in its place. *)
Record span : Type := Span {
  sp_start : nat;
  sp_end : nat;
  sp_mime : jsstring;
  sp_b64raw : jsstring;
  sp_emitted : jsstring
}.

(** The variables of [compressInlineOnce].  [calls] and [spans] are ghost
    logs (the encoder invocations, in order, and the payloads located); the
    pass never reads them. *)
Record state : Type := State {
  out : list jsstring;
  idx : nat;
  cache : gmap jsstring jsstring;
  replaced : nat;
  calls : list job;
  spans : list span
}.

Inductive outcome : Type :=
| Next (s : state)
| Break (s : state).

Record result : Type := Result {
  r_html : jsstring;
  r_replacements : nat;
  r_calls : list job;
  r_spans : list span
}.

(** The condition of the payload loop (line 175), for [c = html[k]].  The
    three escapes are written with a doubled backslash in the source, so
    each is a literal of two code units (a backslash and a letter); Rocq
    string literals have no escapes, so ["\n"] below is that same
    two-unit literal. *)
Definition isPayloadChar (c : N) : bool :=
  ((65 <=? c) && (c <=? 90))%N || ((97 <=? c) && (c <=? 122))%N
  || ((48 <=? c) && (c <=? 57))%N
  || eqb [c] (str "+") || eqb [c] (str "/") || eqb [c] (str "=")
  || eqb [c] (str "\n") || eqb [c] (str "\r") || eqb [c] (str "\t")
  || eqb [c] (str " ").

(** [while (k < html.length) { ... k++ ... }], started on [html.slice(k)]. *)
Fixpoint consume (rest : jsstring) (k : nat) : nat :=
  match rest with
  | c :: r => if isPayloadChar c then consume r (S k) else k
  | [] => k
  end.

(** A cache read followed by [if (!v)]: a missing entry and an empty string
    are both falsy. *)
Definition truthy (v : option jsstring) : option jsstring :=
  match v with
  | Some (c :: r) => Some (c :: r)
  | _ => None
  end.

(** The document with every located payload replaced by what was pushed in
    its place and everything else copied: from index [i] to the end, and
    from [i] up to [j]. *)
Fixpoint splice (html : jsstring) (sps : list span) (i : nat) : jsstring :=
  match sps with
  | [] => sliceFrom html i
  | sp :: r =>
      slice html i (sp_start sp) ++ sp_emitted sp ++ splice html r (sp_end sp)
  end.

Fixpoint spliceTo (html : jsstring) (sps : list span) (i j : nat) : jsstring :=
  match sps with
  | [] => slice html i j
  | sp :: r =>
      slice html i (sp_start sp) ++ sp_emitted sp ++ spliceTo html r (sp_end sp) j
  end.

(** The payloads lie one after the other between [i] and [j]. *)
Fixpoint chain (sps : list span) (i j : nat) : Prop :=
  match sps with
  | [] => i <= j
  | sp :: r => i <= sp_start sp /\ sp_start sp <= sp_end sp /\ chain r (sp_end sp) j
  end.

(** How a payload was located with the lowered text [lower]: a marker
    stands at [sp_start] of [lower], the first [;] of the document after
    that index ends the MIME text, [base64] is searched in [lower] after
    that, then the comma in the document, and the payload runs up to
    [sp_end]. *)
Definition located (html lower : jsstring) (sp : span) : Prop :=
  exists semi base64Idx comma,
    indexOf (str "data:image") lower (sp_start sp) = Some (sp_start sp) /\
    indexOf (str ";") html (sp_start sp + 5) = Some semi /\
    sp_mime sp = slice html (sp_start sp + 5) semi /\
    indexOf (str "base64") lower (semi + 1) = Some base64Idx /\
    indexOf (str ",") html base64Idx = Some comma /\
    sp_end sp = consume (sliceFrom html (comma + 1)) (comma + 1) /\
    sp_b64raw sp = stripSpace (slice html (comma + 1) (sp_end sp)).

(** Lower-casing the document changes nothing but the letters A to Z: the
    lowered text has the places of the document.  It holds of a document
    without U+0130 and U+212A. *)
Definition keepsPlaces (html : jsstring) : Prop :=
  toLowerCaseUnicode html = toLowerCase html.

(** The text is a data URL whose MIME type, read as the scanner reads it and
    without case, is [image/gif]. *)
Definition declaresGif (text : jsstring) : Prop :=
  exists d m rest,
    text = d ++ m ++ str ";" ++ rest /\
    toLowerCase d = str "data:" /\ toLowerCase m = str "image/gif".

(** At index [i] of the document the next marker lacks one of its
    delimiters before the end of the document.  The markers are those of
    the document, at their own places, in capitals or not. *)
Definition delimiterMissing (html : jsstring) (i : nat) : Prop :=
  exists start,
    indexOf (str "data:image") (toLowerCase html) i = Some start /\
    (indexOf (str ";") html (start + 5) = None \/
     exists semi,
       indexOf (str ";") html (start + 5) = Some semi /\
       (indexOf (str "base64") (toLowerCase html) (semi + 1) = None \/
        exists base64Idx,
          indexOf (str "base64") (toLowerCase html) (semi + 1) = Some base64Idx /\
          indexOf (str ",") html base64Idx = None)).

(** The two pass-through rules, for one located payload: when the MIME
    text read for it starts with [image/svg] its span is pushed back as it
    stood, and without [--gif-webp], when the MIME text read is
    [image/gif], what is pushed is a GIF data URL or the span as it
    stood. *)
Definition passedThrough (GIF_WEBP : bool) (html : jsstring) (sp : span) : Prop :=
  (startsWith (str "image/svg") (toLowerCase (sp_mime sp)) = true ->
   sp_emitted sp = slice html (sp_start sp) (sp_end sp)) /\
  (GIF_WEBP = false ->
   toLowerCase (sp_mime sp) = str "image/gif" ->
   (exists v, sp_emitted sp = str "data:image/gif;base64," ++ v) \/
   sp_emitted sp = slice html (sp_start sp) (sp_end sp)).

(** What holds of the variables of the scan between two iterations,
    whatever the lowered text [lower] the markers are searched in. *)
Definition scanInvariant (GIF_WEBP : bool) (html lower : jsstring) (s : state)
  : Prop :=
  idx s <= length html /\
  chain (spans s) 0 (idx s) /\
  concat (out s) = spliceTo html (spans s) 0 (idx s) /\
  Forall (fun sp => located html lower sp /\ passedThrough GIF_WEBP html sp)
         (spans s).

(** Each size is at most the one before it, starting from [prev]. *)
Fixpoint nonIncreasing (prev : nat) (sizes : list nat) : Prop :=
  match sizes with
  | [] => True
  | x :: r => x <= prev /\ nonIncreasing x r
  end.

(** Each size but the last is smaller than the one before it, starting from
    [prev]; nothing is said of the last. *)
Fixpoint shrinking (prev : nat) (sizes : list nat) : Prop :=
  match sizes with
  | [] => True
  | x :: r => match r with
              | [] => True
              | _ :: _ => x < prev /\ shrinking x r
              end
  end.

(** The tightenings left before [q] and [w] are both at their floors. *)
Definition pendingSteps (q w : Z) : nat :=
  Z.to_nat ((q - 31) / 10) + Z.to_nat ((w - 801) / 200).

(** The prefix written in front of a re-encoded payload: [image/gif] for a
    GIF re-optimised without [--gif-webp], [image/webp] otherwise. *)
Definition dataUrlPrefix (GIF_WEBP : bool) (mime : jsstring) : jsstring :=
  if eqb (toLowerCase mime) (str "image/gif") && negb GIF_WEBP
  then str "data:image/gif;base64," else str "data:image/webp;base64,".

(** The number of encoder calls whose input has the content hash [h]: the
    hit counter of the deduplication. *)
Fixpoint callsFor (sha16 : Buffer -> jsstring) (h : jsstring) (l : list job) : nat :=
  match l with
  | [] => 0
  | j :: r => (if eqb (sha16 (job_input j)) h then 1 else 0) + callsFor sha16 h r
  end.

Section Pass.

Variable GIF_WEBP : bool.
(** [Buffer.from(s, "base64")] and [buf.toString("base64")]. *)
Variable decodeBase64 : jsstring -> Buffer.
Variable encodeBase64 : Buffer -> jsstring.
(** [createHash("sha1").update(b).digest("hex").slice(0, 16)]. *)
Variable sha16 : Buffer -> jsstring.
(** The imaging library; [None] when the pipeline throws. *)
Variable sharp : job -> option Buffer.

(** [let v = cache[sha]; if (!v) { v = (await sharp...).toString("base64");
    cache[sha] = v; }].  The first component is [None] when the pipeline
    threw. *)
Definition viaCache (c : gmap jsstring jsstring) (log : list job)
    (sha : jsstring) (j : job)
  : option jsstring * gmap jsstring jsstring * list job :=
  match truthy (c !! sha) with
  | Some v => (Some v, c, log)
  | None =>
      match sharp j with
      | Some buf =>
          let v := encodeBase64 buf in (Some v, <[sha := v]> c, log ++ [j])
      | None => (None, c, log ++ [j])
      end
  end.

(** The [try] block of one located payload: the text pushed to [out],
    with the new cache, counter and call log. *)
Definition recompress (html : jsstring) (quality maxWidth : Z)
    (start k : nat) (mime b64raw : jsstring) (s : state)
  : jsstring * gmap jsstring jsstring * nat * list job :=
  let original := slice html start k in
  let lowerMime := toLowerCase mime in
  if startsWith (str "image/svg") lowerMime then
    (original, cache s, replaced s, calls s)
  else
    let input := decodeBase64 b64raw in
    let sha := sha16 input in
    if eqb lowerMime (str "image/gif") then
      if GIF_WEBP then
        match viaCache (cache s) (calls s) sha (GifToWebp input maxWidth quality) with
        | (Some v, c, l) => (str "data:image/webp;base64," ++ v, c, S (replaced s), l)
        | (None, c, l) => (original, c, replaced s, l)
        end
      else
        match viaCache (cache s) (calls s) sha (GifReoptimise input) with
        | (Some v, c, l) => (str "data:image/gif;base64," ++ v, c, S (replaced s), l)
        | (None, c, l) => (original, c, replaced s, l)
        end
    else
      match viaCache (cache s) (calls s) sha (ToWebp input maxWidth quality) with
      | (Some v, c, l) => (str "data:image/webp;base64," ++ v, c, S (replaced s), l)
      | (None, c, l) => (original, c, replaced s, l)
      end.

(** One iteration of [while (true)] in [compressInlineOnce]. *)
Definition iteration (html lower : jsstring) (quality maxWidth : Z)
    (s : state) : outcome :=
  match indexOf (str "data:image") lower (idx s) with
  | None => Break s
  | Some start =>
      let out1 := out s ++ [slice html (idx s) start] in
      let mimeStart := start + 5 in
      match indexOf (str ";") html mimeStart with
      | None =>
          Break (State (out1 ++ [sliceFrom html start]) (length html)
                       (cache s) (replaced s) (calls s) (spans s))
      | Some semi =>
          let mime := slice html (start + 5) semi in
          match indexOf (str "base64") lower (semi + 1) with
          | None =>
              Next (State (out1 ++ [slice html start (semi + 1)]) (semi + 1)
                          (cache s) (replaced s) (calls s) (spans s))
          | Some base64Idx =>
              match indexOf (str ",") html base64Idx with
              | None =>
                  Break (State (out1 ++ [sliceFrom html start]) (length html)
                               (cache s) (replaced s) (calls s) (spans s))
              | Some comma =>
                  let dataStart := comma + 1 in
                  let k := consume (sliceFrom html dataStart) dataStart in
                  let b64raw := stripSpace (slice html dataStart k) in
                  match recompress html quality maxWidth start k mime b64raw s with
                  | (emitted, c, n, l) =>
                      Next (State (out1 ++ [emitted]) k c n l
                                  (spans s ++ [Span start k mime b64raw emitted]))
                  end
              end
          end
      end
  end.

Fixpoint loop (fuel : nat) (html lower : jsstring) (quality maxWidth : Z)
    (s : state) : option state :=
  match fuel with
  | O => None
  | S fuel' =>
      match iteration html lower quality maxWidth s with
      | Break s' => Some s'
      | Next s' => loop fuel' html lower quality maxWidth s'
      end
  end.

Definition initial : state := State [] 0 ∅ 0 [] [].

(** [out.push(html.slice(i)); return { html: out.join(""), replacements }]. *)
Definition finish (html : jsstring) (s : state) : result :=
  Result (concat (out s ++ [sliceFrom html (idx s)])) (replaced s)
         (calls s) (spans s).

(** [lower] is [html.toLowerCase()]; every index found in it is used as an
    index into [html]. *)
Definition compressInlineOnce (html : jsstring) (quality maxWidth : Z)
  : option result :=
  finish html <$>
    loop (S (length html)) html (toLowerCaseUnicode html) quality maxWidth initial.

(** What an iteration does, by the delimiters it finds. *)
Inductive iteration_case (html lower : jsstring) (q w : Z) (s : state)
  : outcome -> Prop :=
| NoMarker :
    indexOf (str "data:image") lower (idx s) = None ->
    iteration_case html lower q w s (Break s)
| NoSemicolon start :
    indexOf (str "data:image") lower (idx s) = Some start ->
    indexOf (str ";") html (start + 5) = None ->
    iteration_case html lower q w s
      (Break (State (out s ++ [slice html (idx s) start] ++ [sliceFrom html start])
                    (length html) (cache s) (replaced s) (calls s) (spans s)))
| NoBase64 start semi :
    indexOf (str "data:image") lower (idx s) = Some start ->
    indexOf (str ";") html (start + 5) = Some semi ->
    indexOf (str "base64") lower (semi + 1) = None ->
    iteration_case html lower q w s
      (Next (State (out s ++ [slice html (idx s) start] ++ [slice html start (semi + 1)])
                   (semi + 1) (cache s) (replaced s) (calls s) (spans s)))
| NoComma start semi base64Idx :
    indexOf (str "data:image") lower (idx s) = Some start ->
    indexOf (str ";") html (start + 5) = Some semi ->
    indexOf (str "base64") lower (semi + 1) = Some base64Idx ->
    indexOf (str ",") html base64Idx = None ->
    iteration_case html lower q w s
      (Break (State (out s ++ [slice html (idx s) start] ++ [sliceFrom html start])
                    (length html) (cache s) (replaced s) (calls s) (spans s)))
| Payload start semi base64Idx comma emitted c n l :
    indexOf (str "data:image") lower (idx s) = Some start ->
    indexOf (str ";") html (start + 5) = Some semi ->
    indexOf (str "base64") lower (semi + 1) = Some base64Idx ->
    indexOf (str ",") html base64Idx = Some comma ->
    let k := consume (sliceFrom html (comma + 1)) (comma + 1) in
    let mime := slice html (start + 5) semi in
    let b64raw := stripSpace (slice html (comma + 1) k) in
    recompress html q w start k mime b64raw s = (emitted, c, n, l) ->
    iteration_case html lower q w s
      (Next (State (out s ++ [slice html (idx s) start] ++ [emitted]) k c n l
                   (spans s ++ [Span start k mime b64raw emitted]))).

(** The states the scan of [html] goes through. *)
Inductive reach (html : jsstring) (q w : Z) : state -> Prop :=
| reach_initial : reach html q w initial
| reach_next s s' :
    reach html q w s ->
    iteration html (toLowerCaseUnicode html) q w s = Next s' ->
    reach html q w s'.

(** For a content hash [h]: either the content was not met yet, or it was
    encoded once and every payload that carries it was given the cached
    replacement. *)
Definition dedupInvariant (h : jsstring) (s : state) : Prop :=
  (callsFor sha16 h (calls s) = 0 /\ truthy (cache s !! h) = None /\
   forall sp, sp ∈ spans s ->
     startsWith (str "image/svg") (toLowerCase (sp_mime sp)) = false ->
     sha16 (decodeBase64 (sp_b64raw sp)) <> h) \/
  (callsFor sha16 h (calls s) = 1 /\
   exists v, truthy (cache s !! h) = Some v /\
     forall sp, sp ∈ spans s ->
       startsWith (str "image/svg") (toLowerCase (sp_mime sp)) = false ->
       sha16 (decodeBase64 (sp_b64raw sp)) = h ->
       sp_emitted sp = dataUrlPrefix GIF_WEBP (sp_mime sp) ++ v).

(** The tightening between two passes of [main]: quality down to 40 by
    steps of 10, then width down to 1000 by steps of 200; [None] is the
    final [break]. *)
Definition tighten (q w : Z) : option (Z * Z) :=
  if (40 <? q)%Z then Some (Z.max 40 (q - 10), w)
  else if (1000 <? w)%Z then Some (q, Z.max 1000 (w - 200))
  else None.

(** [while (true)] of [main]: the document left in [current] and the byte
    size after each pass, in order. *)
Fixpoint budgetLoop (fuel : nat) (targetBytes : nat) (current : jsstring)
    (q w : Z) : option (jsstring * list nat) :=
  match fuel with
  | O => None
  | S fuel' =>
      let before := byteLength current in
      match compressInlineOnce current q w with
      | None => None
      | Some r =>
          let next := r_html r in
          let after := byteLength next in
          if after <=? targetBytes then Some (next, [after])
          else if (before <=? after) || (r_replacements r =? 0) then
            Some (next, [after])
          else
            match tighten q w with
            | Some (q', w') =>
                match budgetLoop fuel' targetBytes next q' w' with
                | Some (final, sizes) => Some (final, after :: sizes)
                | None => None
                end
            | None => Some (next, [after])
            end
      end
  end.

(** The compaction of [main] (no [--extract-images]): [TARGET] is
    [--targetBytes], [beforeBytes] the size of the file, [original] its
    text after the optional strips.  The first component of the result is
    what [writeFile] stores. *)
Definition compact (TARGET : option nat) (beforeBytes : nat)
    (original : jsstring) (QUALITY MAX_WIDTH : Z)
  : option (jsstring * list nat) :=
  budgetLoop (S (byteLength original)) (default beforeBytes TARGET)
             original QUALITY MAX_WIDTH.

(** The budget property as the specification words it: with a target below
    the size of the document and a first pass that replaces at least one
    payload, the loop ends, the sizes never grow from pass to pass, and what
    is written back is no larger than the document was. *)
Definition budgetNeverGrows (TARGET : nat) (html : jsstring)
    (QUALITY MAX_WIDTH : Z) : Prop :=
  TARGET < byteLength html ->
  (exists r, compressInlineOnce html QUALITY MAX_WIDTH = Some r /\
             0 < r_replacements r) ->
  exists final sizes,
    compact (Some TARGET) (byteLength html) html QUALITY MAX_WIDTH
    = Some (final, sizes) /\
    nonIncreasing (byteLength html) sizes /\
    byteLength final <= byteLength html.

End Pass.

(** *** The command line of the compactor *)

(** [a.includes("=") ? a.split("=", 2) : [a, "true"]]: the key, and the
    value up to a second [=]. *)
Definition splitOption (a : jsstring) : jsstring * jsstring :=
  match indexOf (str "=") a 0 with
  | Some i =>
      (slice a 0 i,
       match indexOf (str "=") a (i + 1) with
       | Some j => slice a (i + 1) j
       | None => sliceFrom a (i + 1)
       end)
  | None => (a, str "true")
  end.

(** The loop over [process.argv] from index 2 on: the map [args] and the
    list [positional]. *)
Fixpoint parseArgv (argv : list jsstring) (args : gmap jsstring jsstring)
    (positional : list jsstring) : gmap jsstring jsstring * list jsstring :=
  match argv with
  | [] => (args, positional)
  | a :: rest =>
      if startsWith (str "--") a then
        let '(k, v) := splitOption a in
        parseArgv rest (<[k := v]> args) positional
      else parseArgv rest args (positional ++ [a])
  end.

(** *** The optional strips of [main] *)

(** The class [\w] of a pattern without the unicode flag. *)
Definition isWordChar (c : N) : bool :=
  ((65 <=? c) && (c <=? 90) || (97 <=? c) && (c <=? 122)
   || (48 <=? c) && (c <=? 57) || (c =? 95))%N.

(** [\b] behind a word character: the input ends there, or the next unit is
    not a word character. *)
Definition wordEnds (s : jsstring) : bool :=
  match s with
  | c :: _ => negb (isWordChar c)
  | [] => true
  end.

(** [s.replace(re, (block) => drops(block) ? "" : block)] for a global
    pattern that matches no empty text.  [matchAt] is the pattern tried at
    the front of its argument: the length of the match.  The search goes on
    behind each match, dropped or kept: [skip] counts the units of the
    current match still to pass, and [dropping] tells whether they are
    left out. *)
Fixpoint replaceBlocks (matchAt : jsstring -> option nat) (drops : jsstring -> bool)
    (s : jsstring) (skip : nat) (dropping : bool) : jsstring :=
  match s with
  | [] => []
  | c :: r =>
      match skip with
      | S n =>
          if dropping then replaceBlocks matchAt drops r n dropping
          else c :: replaceBlocks matchAt drops r n dropping
      | O =>
          match matchAt s with
          | Some (S n) =>
              if drops (take (S n) s) then replaceBlocks matchAt drops r n true
              else c :: replaceBlocks matchAt drops r n false
          | _ => c :: replaceBlocks matchAt drops r 0 false
          end
      end
  end.

(** [/<script\b[\s\S]*?<\/script>/gi] at the front of [s]: the opening text
    without case, a word boundary behind it, and the first closing tag after
    it.  Without the unicode flag only the letters A to Z are compared
    without case. *)
Definition matchScriptBlock (s : jsstring) : option nat :=
  let lower := toLowerCase s in
  if startsWith (str "<script") lower && wordEnds (drop 7 s) then
    match indexOf (str "</script>") lower 7 with
    | Some e => Some (e + 9)
    | None => None
    end
  else None.

Definition stripScripts (s : jsstring) : jsstring :=
  replaceBlocks matchScriptBlock (fun _ => true) s 0 false.

(** [/<style\b[^>]*>[\s\S]*?<\/style>/gi] at the front of [s]: the opening
    tag runs to the first [>], the block to the first closing tag behind
    it. *)
Definition matchStyleBlock (s : jsstring) : option nat :=
  let lower := toLowerCase s in
  if startsWith (str "<style") lower && wordEnds (drop 6 s) then
    match indexOf (str ">") s 6 with
    | Some g =>
        match indexOf (str "</style>") lower (g + 1) with
        | Some e => Some (e + 8)
        | None => None
        end
    | None => None
    end
  else None.

(** [block.length > threshold ? "" : block]. *)
Definition stripLargeStyleBlocks (s : jsstring) (threshold : nat) : jsstring :=
  replaceBlocks matchStyleBlock (fun block => threshold <? length block) s 0 false.

(** The base64 alphabet and the padding sign. *)
Definition isBase64Unit (c : N) : bool :=
  ((65 <=? c) && (c <=? 90) || (97 <=? c) && (c <=? 122)
   || (48 <=? c) && (c <=? 57) || (c =? 43) || (c =? 47) || (c =? 61))%N.

(** The located payloads whose MIME text does not start with [image/svg]. *)
Definition rasterSpans (sps : list span) : list span :=
  filter (fun sp => startsWith (str "image/svg") (toLowerCase (sp_mime sp)) = false) sps.

(** What holds of the counter and the logs between two iterations: payloads
    other than SVG bound the replacements and the encoder calls, and while
    nothing was replaced every payload got its own text back. *)
Definition frameInvariant (html : jsstring) (s : state) : Prop :=
  replaced s <= length (rasterSpans (spans s)) /\
  length (calls s) <= length (rasterSpans (spans s)) /\
  (replaced s = 0 ->
   Forall (fun sp => sp_emitted sp = slice html (sp_start sp) (sp_end sp)) (spans s)).

(** While every encoder call fails the cache stays empty and nothing is
    counted; each payload that is not an SVG costs one call. *)
Definition failureInvariant (s : state) : Prop :=
  cache s = ∅ /\ replaced s = 0 /\
  length (calls s) = length (rasterSpans (spans s)).

(** *** Extraction of the images to asset files ([--extract-images]) *)

Definition ASSET_ROOT : jsstring := str "assets/snapshots".

(** [s.includes(needle)]. *)
Definition includes (needle s : jsstring) : bool :=
  match indexOf needle s 0 with
  | Some _ => true
  | None => false
  end.

Definition extFromMime (mime : jsstring) : jsstring :=
  let m := toLowerCase mime in
  if includes (str "svg") m then str ".svg"
  else if includes (str "gif") m then str ".gif"
  else if includes (str "png") m then str ".png"
  else if includes (str "jpeg") m || includes (str "jpg") m then str ".jpg"
  else if includes (str "webp") m then str ".webp"
  else [].

(** [s.padStart(4, "0")]. *)
Definition padStart4 (s : jsstring) : jsstring := replicate (4 - length s) 48%N ++ s.

(** [s.replaceAll(p, "/")] where [p] is the literal of two backslashes. *)
Fixpoint replaceBackslashPairs (s : jsstring) : jsstring :=
  match s with
  | [] => []
  | c :: t =>
      match t with
      | d :: r =>
          if ((c =? 92) && (d =? 92))%N then 47%N :: replaceBackslashPairs r
          else c :: replaceBackslashPairs t
      | [] => [c]
      end
  end.

(** [path.join(a, b)] for two plain relative paths: the model covers a
    [slug] that is a non-empty name without a slash, other than [.] and
    [..], for which joining only puts a slash in between. *)
Definition joinPath (a b : jsstring) : jsstring := a ++ str "/" ++ b.

(** [`img-${String(n).padStart(4, "0")}-${sha}${ext}`]. *)
Definition assetName (n : nat) (sha ext : jsstring) : jsstring :=
  str "img-" ++ padStart4 (ofNat n) ++ str "-" ++ sha ++ ext.

(** A match of [dataImageRe] as [replaceAsync] records it: [start], [end]
    and the two groups; the matched text is [str.slice(start, end)]. *)
Record found : Type := Found {
  f_start : nat;
  f_end : nat;
  f_mime : jsstring;
  f_b64 : jsstring
}.

(** The variables of [extractImagesToAssets] and the asset files on disk.
    [a_urls] and [a_written] are ghost logs: what the callback returned for
    each match, and the paths and contents handed to [Bun.write] with
    success, both in order. *)
Record assets : Type := Assets {
  a_cache : gmap jsstring jsstring;
  a_extracted : nat;
  a_disk : gmap jsstring Buffer;
  a_urls : list jsstring;
  a_written : list (jsstring * Buffer)
}.

(** The loop of [replaceAsync] over the matches found, with the state the
    callback threads through its calls: the parts pushed from [lastIndex]
    on. *)
Fixpoint replaceLoop {S : Type} (s : jsstring) (asyncFn : S -> found -> jsstring * S)
    (matches : list found) (lastIndex : nat) (st : S) : list jsstring * S :=
  match matches with
  | [] => ([sliceFrom s lastIndex], st)
  | m :: rest =>
      let '(repl, st1) := asyncFn st m in
      let '(parts, st2) := replaceLoop s asyncFn rest (f_end m) st1 in
      (slice s lastIndex (f_start m) :: repl :: parts, st2)
  end.

Definition replaceAsync {S : Type} (s : jsstring) (matches : list found)
    (asyncFn : S -> found -> jsstring * S) (st : S) : jsstring * S :=
  match matches with
  | [] => (s, st)
  | _ :: _ =>
      let '(parts, st') := replaceLoop s asyncFn matches 0 st in
      (concat parts, st')
  end.

(** The document with each match replaced by the text returned for it and
    everything else copied, from index [i] on. *)
Fixpoint spliceMatches (s : jsstring) (matches : list found)
    (texts : list jsstring) (i : nat) : jsstring :=
  match matches, texts with
  | m :: ms, t :: ts =>
      slice s i (f_start m) ++ t ++ spliceMatches s ms ts (f_end m)
  | _, _ => sliceFrom s i
  end.

Section Extract.

Variable GIF_WEBP : bool.
Variable decodeBase64 : jsstring -> Buffer.
Variable sha16 : Buffer -> jsstring.
Variable sharp : job -> option Buffer.
(** Whether [Bun.write] of a content to a path succeeds. *)
Variable canWrite : jsstring -> Buffer -> bool.
(** The matches of [dataImageRe] in a document, in order. *)
Variable dataImageMatches : jsstring -> list found.

(** The content hash of a match. *)
Definition contentOf (m : found) : jsstring :=
  sha16 (decodeBase64 (stripSpace (f_b64 m))).

(** What is written for an image and under which extension: the image
    re-encoded, or the image itself under the extension of its MIME type
    when it is an SVG or the encoder throws. *)
Definition converted (mime : jsstring) (buf : Buffer) (quality maxWidth : Z)
  : Buffer * jsstring :=
  let ext := extFromMime mime in
  let lowerMime := toLowerCase mime in
  if startsWith (str "image/svg") lowerMime then (buf, ext)
  else if eqb lowerMime (str "image/gif") then
    if GIF_WEBP then
      match sharp (GifToWebp buf maxWidth quality) with
      | Some webp => (webp, str ".webp")
      | None => (buf, ext)
      end
    else
      match sharp (GifReoptimise buf) with
      | Some optim => (optim, str ".gif")
      | None => (buf, ext)
      end
  else
    match sharp (ToWebp buf maxWidth quality) with
    | Some webp => (webp, str ".webp")
    | None => (buf, ext)
    end.

(** The callback of [extractImagesToAssets] for one match. *)
Definition extractOne (html slug : jsstring) (quality maxWidth : Z)
    (st : assets) (m : found) : jsstring * assets :=
  let buf := decodeBase64 (stripSpace (f_b64 m)) in
  let sha := sha16 buf in
  match truthy (a_cache st !! sha) with
  | Some p =>
      let url := str "/" ++ p in
      (url, Assets (a_cache st) (a_extracted st) (a_disk st)
                   (a_urls st ++ [url]) (a_written st))
  | None =>
      let '(outBuf, ext) := converted (f_mime m) buf quality maxWidth in
      let baseName := assetName (a_extracted st) sha ext in
      let diskPath := joinPath (joinPath ASSET_ROOT slug) baseName in
      if canWrite diskPath outBuf then
        let relPath := replaceBackslashPairs (joinPath (joinPath ASSET_ROOT slug) baseName) in
        let url := str "/" ++ relPath in
        (url, Assets (<[sha := relPath]> (a_cache st)) (S (a_extracted st))
                     (<[diskPath := outBuf]> (a_disk st))
                     (a_urls st ++ [url]) (a_written st ++ [(diskPath, outBuf)]))
      else
        let text := slice html (f_start m) (f_end m) in
        (text, Assets (a_cache st) (a_extracted st) (a_disk st)
                      (a_urls st ++ [text]) (a_written st))
  end.

(** [extractImagesToAssets] once the asset directory is made, started on
    the files [disk] holds: the new document and the state at the end. *)
Definition extractImagesToAssets (html slug : jsstring) (quality maxWidth : Z)
    (disk : gmap jsstring Buffer) : jsstring * assets :=
  replaceAsync html (dataImageMatches html)
               (extractOne html slug quality maxWidth)
               (Assets ∅ 0 disk [] []).

End Extract.

(** What a match was replaced by: its own text, after a write that failed,
    or the path the cache holds for its content at the end. *)
Definition servedFrom (canWrite : jsstring -> Buffer -> bool)
    (contentOf : found -> jsstring) (html : jsstring)
    (cache : gmap jsstring jsstring) (m : found) (url : jsstring) : Prop :=
  (url = slice html (f_start m) (f_end m) /\
   exists path content, canWrite path content = false) \/
  exists p, cache !! contentOf m = Some p /\ url = str "/" ++ p.

(** What holds of the variables of the extraction after the matches [done]:
    the counter counts the cache entries and the files written, no cached
    path is empty, the [n]-th file written carries the number [n] in its
    name and is on disk with the content written, and every match was
    replaced by its own text or by the path cached for its content. *)
Definition extractInvariant (canWrite : jsstring -> Buffer -> bool)
    (contentOf : found -> jsstring) (html slug : jsstring)
    (done : list found) (st : assets) : Prop :=
  a_extracted st = size (a_cache st) /\
  a_extracted st = length (a_written st) /\
  (forall sha p, a_cache st !! sha = Some p -> p <> []) /\
  (forall n path content, a_written st !! n = Some (path, content) ->
     (exists sha ext,
        path = joinPath (joinPath ASSET_ROOT slug) (assetName n sha ext)) /\
     a_disk st !! path = Some content) /\
  Forall2 (servedFrom canWrite contentOf html (a_cache st)) done (a_urls st).

End Compactor.

(** ** Filename canonicaliser ([_bin/fix-single-file-naming.ts]) *)

Module Canonicalizer.

Record Flags : Type := MkFlags {
  apply : bool;
  quiet : bool;
  preferCanonical : bool
}.

(** What [new URL(s)] exposes to [flattenUrl]: [protocol] (with its colon),
    [hostname] and [pathname]. *)
Record URL : Type := MkURL {
  protocol : jsstring;
  hostname : jsstring;
  pathname : jsstring
}.

(** The outcome of a call: a value, an exception, or the model's fuel
    running out. *)
Inductive run (A : Type) : Type :=
| Ret (a : A)
| Raise
| Fuel.
Arguments Ret {A} a.
Arguments Raise {A}.
Arguments Fuel {A}.

(** [INVALID_FILENAME_CHARS]: tilde, plus, backslash, question mark, percent,
    star, colon, bar, double quote, the angle brackets, the control
    characters U+0000-U+001F and the slash. *)
Definition isInvalidFilenameChar (c : N) : bool :=
  ((c =? 126) || (c =? 43) || (c =? 92) || (c =? 63) || (c =? 37) || (c =? 42)
   || (c =? 58) || (c =? 124) || (c =? 34) || (c =? 60) || (c =? 62)
   || (c <=? 31) || (c =? 47))%N.

(** [FULLWIDTH_TO_ASCII], keyed by code unit. *)
Definition FULLWIDTH_TO_ASCII : list (N * N) :=
  [ (65374, 126); (65291, 43); (65311, 63); (65285, 37); (65290, 42);
    (65306, 58); (65372, 124); (65282, 34); (65308, 60); (65310, 62);
    (65340, 92); (65295, 47) ]%N.

Fixpoint assoc (k : N) (t : list (N * N)) : option N :=
  match t with
  | [] => None
  | (a, b) :: r => if N.eqb a k then Some b else assoc k r
  end.

(** [s.replace(/[\uFF00-\uFFFF]/g, (ch) => FULLWIDTH_TO_ASCII[ch] ?? ch)]. *)
Definition normalizeWeirdPunctToAscii (s : jsstring) : jsstring :=
  map (fun ch =>
         if ((65280 <=? ch) && (ch <=? 65535))%N
         then default ch (assoc ch FULLWIDTH_TO_ASCII) else ch) s.

(** The alternatives of [HTML_EXT_RE], in the order of the pattern. *)
Definition htmlExts : list jsstring :=
  [str ".u.zip.html"; str ".zip.html"; str ".html"; str ".zip"].

Definition isHtmlExt (s : jsstring) : bool :=
  existsb (eqb (toLowerCase s)) htmlExts.

(** [s.match(HTML_EXT_RE)]: the leftmost position from which the rest of the
    string, compared without case, is one of the alternatives; with the
    matched text [m[0]].  [p] is the position of [s] in the whole name. *)
Fixpoint matchHtmlExt (s : jsstring) (p : nat) : option (nat * jsstring) :=
  if isHtmlExt s then Some (p, s)
  else match s with
       | [] => None
       | _ :: r => matchHtmlExt r (S p)
       end.

Definition isDigit (c : N) : bool := ((48 <=? c) && (c <=? 57))%N.
(** The class with a digit, the full-width colon and the underscore. *)
Definition isTimeUnit (c : N) : bool := isDigit c || (c =? 65306)%N || (c =? 95)%N.
Definition isUnit (x : N) (c : N) : bool := (c =? x)%N.

(** A sequence of character classes against the front of [s]: the matched
    text and what follows it. *)
Fixpoint matchClasses (cs : list (N -> bool)) (s : jsstring)
  : option (jsstring * jsstring) :=
  match cs with
  | [] => Some ([], s)
  | f :: cs' =>
      match s with
      | c :: r =>
          if f c then
            match matchClasses cs' r with
            | Some (m, rest) => Some (c :: m, rest)
            | None => None
            end
          else None
      | [] => None
      end
  end.

(** [\d{4}-\d{2}-\d{2}T] and the eight units of the time of day. *)
Definition dateTimeClasses : list (N -> bool) :=
  [isDigit; isDigit; isDigit; isDigit; isUnit 45; isDigit; isDigit; isUnit 45;
   isDigit; isDigit; isUnit 84;
   isTimeUnit; isTimeUnit; isTimeUnit; isTimeUnit; isTimeUnit; isTimeUnit;
   isTimeUnit; isTimeUnit].
(** [[._]\d{3}]. *)
Definition millisClasses : list (N -> bool) :=
  [fun c => isUnit 46 c || isUnit 95 c; isDigit; isDigit; isDigit].

(** [Z(?:\.[^.]+)?$] against the rest of the name. *)
Definition matchZulu (s : jsstring) : bool :=
  match s with
  | z :: r =>
      isUnit 90 z &&
      match r with
      | [] => true
      | d :: e => isUnit 46 d && negb (eqb e []) && forallb (fun c => negb (isUnit 46 c)) e
      end
  | [] => false
  end.

(** [DATETIME_IN_NAME_RE] tried at the front of [s]: the first group.  The
    optional milliseconds are tried first and given up when the rest does not
    match. *)
Definition matchDatetimeAt (s : jsstring) : option jsstring :=
  match s with
  | c :: s1 =>
      if isUnit 45 c then
        match matchClasses dateTimeClasses s1 with
        | Some (m1, r1) =>
            match matchClasses millisClasses r1 with
            | Some (m2, r2) =>
                if matchZulu r2 then Some (m1 ++ m2 ++ str "Z")
                else if matchZulu r1 then Some (m1 ++ str "Z") else None
            | None => if matchZulu r1 then Some (m1 ++ str "Z") else None
            end
        | None => None
        end
      else None
  | [] => None
  end.

(** [originalBase.match(DATETIME_IN_NAME_RE)?.[1]]: the leftmost match. *)
Fixpoint matchDatetime (s : jsstring) : option jsstring :=
  match matchDatetimeAt s with
  | Some g => Some g
  | None => match s with
            | [] => None
            | _ :: r => matchDatetime r
            end
  end.

(** [s.replace(/x/g, y)] for single code units. *)
Definition replaceUnit (x y : N) (s : jsstring) : jsstring :=
  map (fun c => if N.eqb c x then y else c) s.

Definition normalizeDatetimeForName (dt : jsstring) : jsstring :=
  replaceUnit 46 95 (replaceUnit 58 95 (normalizeWeirdPunctToAscii dt)).

(** [iso] is [d.toISOString()]. *)
Definition toDatetimeIsoForName (iso : jsstring) : jsstring :=
  replaceUnit 46 95 (replaceUnit 58 95 iso).

(** [nowIso] is [new Date().toISOString()] at the time of the call. *)
Definition extractOrMakeDatetimeSuffix (nowIso originalBase : jsstring) : jsstring :=
  match matchDatetime originalBase with
  | Some (c :: g) => normalizeDatetimeForName (c :: g)
  | _ => toDatetimeIsoForName nowIso
  end.

(** [name.replace(/_{2,}/g, "_")]. *)
Fixpoint collapseUnderscores (s : jsstring) : jsstring :=
  match s with
  | [] => []
  | c :: r =>
      if isUnit 95 c then
        match r with
        | d :: _ => if isUnit 95 d then collapseUnderscores r else c :: collapseUnderscores r
        | [] => [c]
        end
      else c :: collapseUnderscores r
  end.

(** [name.replace(/^_+/, "")]. *)
Fixpoint dropUnderscores (s : jsstring) : jsstring :=
  match s with
  | c :: r => if isUnit 95 c then dropUnderscores r else s
  | [] => []
  end.

(** The alternatives [html], [zip], [zip.html] and [u.zip.html] after the
    dot in the last pattern of [sanitizeFilename]; the same set as
    [HTML_EXT_RE]. *)
Definition isTrailingExt (s : jsstring) : bool :=
  existsb (eqb (toLowerCase s))
          [str ".html"; str ".zip"; str ".zip.html"; str ".u.zip.html"].

(** [name.replace(/_+(\.(?:html|zip(?:\.html)?|u\.zip\.html))$/i, "_$1")]:
    the leftmost underscore whose run is followed by a final extension. *)
Fixpoint trimBeforeExt (s : jsstring) : jsstring :=
  match s with
  | [] => []
  | c :: r =>
      if isUnit 95 c && isTrailingExt (dropUnderscores r)
      then c :: dropUnderscores r
      else c :: trimBeforeExt r
  end.

Definition sanitizeFilename (name : jsstring) : jsstring :=
  let name := normalizeWeirdPunctToAscii name in
  let name := map (fun c => if isInvalidFilenameChar c then 95%N else c) name in
  let name := collapseUnderscores name in
  trimBeforeExt (dropUnderscores name).

(** [s.replace(":", "")]: the first colon only. *)
Fixpoint removeFirst (x : N) (s : jsstring) : jsstring :=
  match s with
  | [] => []
  | c :: r => if N.eqb c x then r else c :: removeFirst x r
  end.

(** [s.endsWith("/")]. *)
Definition endsWithSlash (s : jsstring) : bool :=
  match last s with
  | Some c => isUnit 47 c
  | None => false
  end.

(** The body of [flattenUrl] after [new URL(urlStr)]. *)
Definition flattenParsed (u : URL) : jsstring :=
  let proto := removeFirst 58 (protocol u) in
  let host := toLowerCase (hostname u) in
  let pathname0 := match pathname u with [] => str "/" | p => p end in
  let endedWithSlash := endsWithSlash pathname0 && negb (eqb pathname0 (str "/")) in
  let pathname1 :=
    replaceUnit 47 95
      (match pathname0 with
       | c :: r => if isUnit 47 c then r else pathname0
       | [] => []
       end) in
  let pathname2 := if endedWithSlash then pathname1 ++ str "_" else pathname1 in
  proto ++ str "__" ++ host
        ++ match pathname2 with [] => [] | _ => str "_" ++ pathname2 end.

(** [s.lastIndexOf(needle)]. *)
Fixpoint findLast (needle s : jsstring) (pos : nat) : option nat :=
  match s with
  | [] => if startsWith needle [] then Some pos else None
  | _ :: r =>
      match findLast needle r (S pos) with
      | Some p => Some p
      | None => if startsWith needle s then Some pos else None
      end
  end.
Definition lastIndexOf (needle s : jsstring) : option nat := findLast needle s 0.

Definition splitNameExt (base : jsstring) : jsstring * jsstring :=
  match matchHtmlExt base 0 with
  | Some (_, m0) =>
      match lastIndexOf m0 base with
      | Some idx => (slice base 0 idx, m0)
      | None => (slice base 0 (length base - 1), m0) (* [slice(0, -1)] *)
      end
  | None =>
      match lastIndexOf (str ".") base with
      | None => (base, [])
      | Some li => (slice base 0 li, sliceFrom base li)
      end
  end.

(** *** The directory and the effects on it

    One directory of files: base name to file content.  [walk] recurses,
    and the resolver works in the directory of the file it renames.  The
    model of the two file-system calls below is that of plain names: for a
    plain name [path.join(dir, name)] is the entry [name] of the directory
    and [path.basename] of it is [name] again.  A name with a slash in it,
    the empty name and the names [.] and [..] address another path
    ([fs.rename] then throws or moves the file out of the directory) and
    are outside the model; what is proved of the resolver and of a run is
    proved for plain names.  The file system is taken to carry out every
    call on an entry that exists. *)

Abbreviation FS := (gmap jsstring jsstring).

(** The names an entry of a directory can have: not empty, not [.] or
    [..], without a slash and without U+0000. *)
Definition isPlainName (n : jsstring) : bool :=
  negb (eqb n []) && negb (eqb n (str ".")) && negb (eqb n (str ".."))
  && forallb (fun c => negb (c =? 47)%N && negb (c =? 0)%N) n.

(** Every entry of the directory has a plain name. *)
Definition directory (fs : FS) : Prop :=
  map_Forall (fun n _ => isPlainName n = true) fs.

(** The name holds U+FF0F, the full-width slash, which
    [normalizeWeirdPunctToAscii] turns into a slash. *)
Definition hasFullwidthSlash (s : jsstring) : bool := existsb (N.eqb 65295) s.

(** [existsFile(path.join(dir, p))], for a plain name [p]. *)
Definition existsFile (fs : FS) (p : jsstring) : bool :=
  bool_decide (is_Some (fs !! p)).

(** [fs.rename(path.join(dir, old), path.join(dir, dest))], for plain
    names; it throws when [old] is missing. *)
Definition rename (fs : FS) (old dest : jsstring) : run FS :=
  match fs !! old with
  | Some content => Ret (<[dest := content]> (delete old fs))
  | None => Raise
  end.

(** The candidate after [n] was appended: [`${name}-${n}${ext}`]. *)
Definition numbered (newBaseDesired : jsstring) (n : nat) : jsstring :=
  let '(name, ext) := splitNameExt newBaseDesired in
  name ++ str "-" ++ ofNat n ++ ext.

(** [while (true)] of [dedupeAndMaybeRename], entered with the current
    [candidate] and [n]. *)
Fixpoint dedupeLoop (fuel : nat) (fs : FS) (oldBase newBaseDesired : jsstring)
    (flags : Flags) (candidate : jsstring) (n : nat) : run (FS * jsstring) :=
  match fuel with
  | O => Fuel
  | S fuel' =>
      if eqb candidate oldBase then Ret (fs, candidate)
      else if negb (existsFile fs candidate) then
        if apply flags then
          match rename fs oldBase candidate with
          | Ret fs' => Ret (fs', candidate)
          | Raise => Raise
          | Fuel => Fuel
          end
        else Ret (fs, candidate)
      else dedupeLoop fuel' fs oldBase newBaseDesired flags
                      (numbered newBaseDesired n) (S n)
  end.

(** One more iteration than the directory has entries is always enough
    (shown below). *)
Definition dedupeAndMaybeRename (fs : FS) (oldBase newBaseDesired : jsstring)
    (flags : Flags) : run (FS * jsstring) :=
  dedupeLoop (S (size fs)) fs oldBase newBaseDesired flags newBaseDesired 2.

(** A line of [logChange]: the tag is [RENAME] when [applied], else
    [DRYRUN]. *)
Record report : Type := Report {
  rp_from : jsstring;
  rp_to : jsstring;
  rp_applied : bool
}.

(** What the resolver does with the candidate it stops at: nothing when it
    is the file's own name, the rename in apply mode otherwise. *)
Definition settle (fs : FS) (oldBase : jsstring) (flags : Flags) (c : jsstring)
  : run (FS * jsstring) :=
  if eqb c oldBase then Ret (fs, c)
  else if apply flags then
    match rename fs oldBase c with
    | Ret fs' => Ret (fs', c)
    | Raise => Raise
    | Fuel => Fuel
    end
  else Ret (fs, c).

(** The candidates the resolver tries, in order: the desired name, then the
    names numbered 2, 3, ... *)
Definition candidate (newBaseDesired : jsstring) (j : nat) : jsstring :=
  match j with
  | O => newBaseDesired
  | S _ => numbered newBaseDesired (S j)
  end.

(** The resolver as the specification words it: when the desired name is
    taken and is not the file's own, the result is the first numbered name
    that does not exist in the directory. *)
Definition resolvesToFirstFree (fs : FS) (oldBase newBaseDesired : jsstring)
    (flags : Flags) : Prop :=
  existsFile fs newBaseDesired = true ->
  newBaseDesired <> oldBase ->
  exists n fs',
    2 <= n /\
    dedupeAndMaybeRename fs oldBase newBaseDesired flags
    = Ret (fs', numbered newBaseDesired n) /\
    existsFile fs (numbered newBaseDesired n) = false /\
    forall m, 2 <= m -> m < n -> existsFile fs (numbered newBaseDesired m) = true.

(** No two underscores stand side by side. *)
Fixpoint noDoubleUnderscore (s : jsstring) : Prop :=
  match s with
  | c :: r => match r with
              | d :: _ => ~ (c = 95%N /\ d = 95%N) /\ noDoubleUnderscore r
              | [] => True
              end
  | [] => True
  end.

Section Orchestrator.

(** The three metadata finders and the comment finder of [extractBestUrl],
    and [absolutizeAndValidateUrl]; their regular expressions and the
    platform URL parser are not modelled. *)
Variable findCanonical findOgUrl findTwitterUrl findSavedFromUrl
  : jsstring -> option jsstring.
Variable absolutizeAndValidateUrl : jsstring -> option jsstring.
(** [new URL(s)]; [None] when it throws. *)
Variable parseURL : jsstring -> option URL.

(** [c && absolutizeAndValidateUrl(c)], kept when truthy. *)
Definition cleaned (c : option jsstring) : option jsstring :=
  match c with
  | Some (x :: r) =>
      match absolutizeAndValidateUrl (x :: r) with
      | Some (y :: u) => Some (y :: u)
      | _ => None
      end
  | _ => None
  end.

Fixpoint firstCleaned (candidates : list (option jsstring)) : option jsstring :=
  match candidates with
  | [] => None
  | c :: r => match cleaned c with
              | Some u => Some u
              | None => firstCleaned r
              end
  end.

Definition extractBestUrl (html : jsstring) (preferCanonical : bool)
  : option jsstring :=
  let canonical := findCanonical html in
  let og := findOgUrl html in
  let tw := findTwitterUrl html in
  let savedFrom := findSavedFromUrl html in
  firstCleaned (if preferCanonical then [canonical; og; tw; savedFrom]
                else [og; tw; canonical; savedFrom]).

Definition flattenUrl (urlStr : jsstring) : run jsstring :=
  match parseURL urlStr with
  | Some u => Ret (flattenParsed u)
  | None => Raise
  end.

(** Steps 2 to 5 of [maybeFixFile]: the name composed for a file whose
    source URL is [urlStr]. *)
Definition composeName (nowIso originalBase urlStr : jsstring) : run jsstring :=
  match flattenUrl urlStr with
  | Ret flatUrlBase =>
      let dtSuffix := extractOrMakeDatetimeSuffix nowIso originalBase in
      let ext := match matchHtmlExt originalBase 0 with
                 | Some (_, m0) => m0
                 | None => str ".html"
                 end in
      Ret (sanitizeFilename (flatUrlBase ++ str "-" ++ dtSuffix ++ ext))
  | Raise => Raise
  | Fuel => Fuel
  end.

(** The name [maybeFixFile] wants for a file, or [None] when it returns
    without calling the resolver. *)
Definition desiredName (nowIso html originalBase : jsstring) (flags : Flags)
  : run (option jsstring) :=
  match extractBestUrl html (preferCanonical flags) with
  | None =>
      let normalized := normalizeWeirdPunctToAscii originalBase in
      if eqb normalized originalBase then Ret None else Ret (Some normalized)
  | Some urlStr =>
      match composeName nowIso originalBase urlStr with
      | Ret newBase =>
          if eqb newBase originalBase then Ret None else Ret (Some newBase)
      | Raise => Raise
      | Fuel => Fuel
      end
  end.

(** [maybeFixFile]: the directory afterwards and the line logged, if any.
    [logChange] prints [path.basename] of the joined paths: the names
    themselves when they are plain. *)
Definition maybeFixFile (nowIso : jsstring) (flags : Flags) (fs : FS)
    (originalBase : jsstring) : run (FS * option report) :=
  match fs !! originalBase with
  | None => Raise (* [readFile] throws *)
  | Some html =>
      match desiredName nowIso html originalBase flags with
      | Ret None => Ret (fs, None)
      | Ret (Some desired) =>
          match dedupeAndMaybeRename fs originalBase desired flags with
          | Ret (fs', finalName) =>
              Ret (fs', if quiet flags then None
                        else Some (Report originalBase finalName (apply flags)))
          | Raise => Raise
          | Fuel => Fuel
          end
      | Raise => Raise
      | Fuel => Fuel
      end
  end.

(** [processDir] over the files [walk] yields, in order; [clock i] is
    [new Date().toISOString()] during the call for the file at position
    [i].  A file that throws is logged and skipped.  [None] only when the
    model's fuel ran out. *)
Fixpoint processFiles (clock : nat -> jsstring) (flags : Flags) (i : nat)
    (files : list jsstring) (fs : FS) (log : list report)
  : option (FS * list report) :=
  match files with
  | [] => Some (fs, log)
  | file :: rest =>
      match matchHtmlExt file 0 with
      | None => processFiles clock flags (S i) rest fs log
      | Some _ =>
          match maybeFixFile (clock i) flags fs file with
          | Ret (fs', Some r) => processFiles clock flags (S i) rest fs' (log ++ [r])
          | Ret (fs', None) => processFiles clock flags (S i) rest fs' log
          | Raise => processFiles clock flags (S i) rest fs log
          | Fuel => None
          end
      end
  end.

Definition processDir (clock : nat -> jsstring) (flags : Flags)
    (files : list jsstring) (fs : FS) : option (FS * list report) :=
  processFiles clock flags 0 files fs [].

(** The preview as the specification words it: over the same files and
    directory, the names a dry run reports are the names an apply run uses. *)
Definition previewAgrees (clock : nat -> jsstring) (quiet pc : bool)
    (files : list jsstring) (fs : FS) : Prop :=
  forall fsD logD fsA logA,
    processDir clock (MkFlags false quiet pc) files fs = Some (fsD, logD) ->
    processDir clock (MkFlags true quiet pc) files fs = Some (fsA, logA) ->
    map rp_to logD = map rp_to logA.

End Orchestrator.

(** *** The command line *)

(** The three options [parseArgs] knows. *)
Definition isSwitch (a : jsstring) : bool :=
  eqb a (str "--apply") || eqb a (str "--quiet") || eqb a (str "--no-canonical").

(** The loop of [parseArgs], entered with [dir] and [flags]; [!dir] holds
    of the empty string. *)
Fixpoint parseArgsFrom (args : list jsstring) (dir : jsstring) (flags : Flags)
  : jsstring * Flags :=
  match args with
  | [] => (dir, flags)
  | a :: r =>
      if eqb a (str "--apply") then
        parseArgsFrom r dir (MkFlags true (quiet flags) (preferCanonical flags))
      else if eqb a (str "--quiet") then
        parseArgsFrom r dir (MkFlags (apply flags) true (preferCanonical flags))
      else if eqb a (str "--no-canonical") then
        parseArgsFrom r dir (MkFlags (apply flags) (quiet flags) false)
      else
        match dir with
        | [] => parseArgsFrom r a flags
        | _ :: _ => parseArgsFrom r dir flags
        end
  end.

Definition parseArgs (args : list jsstring) : jsstring * Flags :=
  parseArgsFrom args [] (MkFlags false false true).

(** The units of a timestamp suffix: the digits, [-], [T], [_] and [Z]. *)
Definition isStampUnit (c : N) : bool :=
  isDigit c || (c =? 45)%N || (c =? 84)%N || (c =? 95)%N || (c =? 90)%N.

(** The three replacements of [normalizeDatetimeForName], seen on one
    unit. *)
Definition stampUnit (ch : N) : N :=
  let c1 := if ((65280 <=? ch) && (ch <=? 65535))%N
            then default ch (assoc ch FULLWIDTH_TO_ASCII) else ch in
  let c2 := if N.eqb c1 58 then 95%N else c1 in
  if N.eqb c2 46 then 95%N else c2.

(** The form [toISOString] gives an instant of the years 0 to 9999,
    [YYYY-MM-DDTHH:mm:ss.sssZ], as a sequence of classes. *)
Definition isoInstantClasses : list (N -> bool) :=
  [isDigit; isDigit; isDigit; isDigit; isUnit 45; isDigit; isDigit; isUnit 45;
   isDigit; isDigit; isUnit 84; isDigit; isDigit; isUnit 58; isDigit; isDigit;
   isUnit 58; isDigit; isDigit; isUnit 46; isDigit; isDigit; isDigit; isUnit 90].

End Canonicalizer.

(** ** Concrete collaborators used to run the models *)

Module Samples.

Import Compactor.

(** Standard base64.  The decoder skips what is outside the alphabet and
    stops at the padding. *)
Definition sextet (c : N) : option N :=
  if ((65 <=? c) && (c <=? 90))%N then Some (c - 65)%N
  else if ((97 <=? c) && (c <=? 122))%N then Some (c - 71)%N
  else if ((48 <=? c) && (c <=? 57))%N then Some (c + 4)%N
  else if (c =? 43)%N then Some 62%N
  else if (c =? 47)%N then Some 63%N
  else None.

Fixpoint sextets (s : jsstring) : list N :=
  match s with
  | [] => []
  | c :: r =>
      if (c =? 61)%N then []
      else match sextet c with
           | Some v => v :: sextets r
           | None => sextets r
           end
  end.

Fixpoint unpack (l : list N) : Buffer :=
  match l with
  | a :: b :: c :: d :: r =>
      (a * 4 + b / 16)%N :: ((b mod 16) * 16 + c / 4)%N :: ((c mod 4) * 64 + d)%N
        :: unpack r
  | [a; b; c] => [(a * 4 + b / 16)%N; ((b mod 16) * 16 + c / 4)%N]
  | [a; b] => [(a * 4 + b / 16)%N]
  | _ => []
  end.

Definition decodeBase64 (s : jsstring) : Buffer := unpack (sextets s).

Definition digit64 (v : N) : N :=
  if (v <? 26)%N then (v + 65)%N
  else if (v <? 52)%N then (v + 71)%N
  else if (v <? 62)%N then (v - 4)%N
  else if (v =? 62)%N then 43%N else 47%N.

Fixpoint encodeBase64 (b : Buffer) : jsstring :=
  match b with
  | x :: y :: z :: r =>
      digit64 (x / 4) :: digit64 ((x mod 4) * 16 + y / 16)
        :: digit64 ((y mod 16) * 4 + z / 64) :: digit64 (z mod 64)
        :: encodeBase64 r
  | [x; y] =>
      [digit64 (x / 4); digit64 ((x mod 4) * 16 + y / 16);
       digit64 ((y mod 16) * 4); 61%N]
  | [x] => [digit64 (x / 4); digit64 ((x mod 4) * 16); 61%N; 61%N]
  | [] => []
  end.

(** A stand-in for the truncated SHA-1: the bytes in hexadecimal, which
    never collides. *)
Definition hexDigit (v : N) : N := if (v <? 10)%N then (v + 48)%N else (v + 87)%N.
Definition digest (b : Buffer) : jsstring :=
  concat (map (fun x => [hexDigit (x / 16); hexDigit (x mod 16)]) b).

(** An encoder whose output is its input behind a twelve-byte container
    header, as for an image too small to gain from re-encoding. *)
Definition wrapping (j : job) : option Buffer :=
  Some (str "RIFF0000WEBP" ++ job_input j).

(** An encoder whose output is the first half of its input. *)
Definition halving (j : job) : option Buffer :=
  let b := job_input j in Some (take (Nat.div2 (length b)) b).

(** An encoder that always throws. *)
Definition failing (j : job) : option Buffer := None.

(** Stand-ins for the metadata finders and the URL parser, enough for pages
    that hold at most a canonical link written with single quotes and for
    URLs of the plain form scheme://host/path. *)
Definition between (opening closing s : jsstring) : option jsstring :=
  match indexOf opening s 0 with
  | Some a =>
      let b := a + length opening in
      match indexOf closing s b with
      | Some c => Some (slice s b c)
      | None => None
      end
  | None => None
  end.

Definition findCanonical (html : jsstring) : option jsstring :=
  match indexOf (str "rel='canonical'") html 0 with
  | Some _ => between (str "href='") (str "'") html
  | None => None
  end.

Definition findNothing (html : jsstring) : option jsstring := None.

Definition absolutizeAndValidateUrl (input : jsstring) : option jsstring :=
  if startsWith (str "https://") input || startsWith (str "http://") input
  then Some input else None.

Definition parseURL (s : jsstring) : option Canonicalizer.URL :=
  match indexOf (str "://") s 0 with
  | Some a =>
      let rest := sliceFrom s (a + 3) in
      match indexOf (str "/") rest 0 with
      | Some b =>
          Some (Canonicalizer.MkURL (slice s 0 a ++ str ":") (slice rest 0 b)
                                    (sliceFrom rest b))
      | None => Some (Canonicalizer.MkURL (slice s 0 a ++ str ":") rest (str "/"))
      end
  | None => None
  end.

(** A page whose canonical link is https://a.com/x. *)
Definition linkedPage : jsstring := str "<link rel='canonical' href='https://a.com/x'>".

Definition firstClock : nat -> jsstring := fun _ => str "2025-09-07T14:50:55.735Z".
Definition secondClock : nat -> jsstring := fun _ => str "2025-09-08T10:00:00.000Z".

Definition applyFlags : Canonicalizer.Flags := Canonicalizer.MkFlags true false true.

(** A directory with one compressed snapshot, and one with a plain one. *)
Definition zipDir : gmap jsstring jsstring := {[ str "page.zip.html" := linkedPage ]}.
Definition htmlDir : gmap jsstring jsstring := {[ str "page.html" := linkedPage ]}.

(** The names the two runs over [zipDir] give its file, and the name the
    first run over [htmlDir] gives its file. *)
Definition zipFirst : jsstring := str "https_a.com_x-2025-09-07T14_50_55_735Z.zip.html".
Definition zipSecond : jsstring := str "https_a.com_x-2025-09-08T10_00_00_000Z.zip.html".
Definition htmlFirst : jsstring := str "https_a.com_x-2025-09-07T14_50_55_735Z.html".

(** A directory where [page.html] is taken and the file to rename already
    carries the first numbered name. *)
Definition numberedDir : gmap jsstring jsstring :=
  {[ str "page.html" := str "first"; str "page-2.html" := str "second" ]}.

(** Two files without any URL whose names differ only in which of their two
    colons is the full-width one. *)
Definition colonA : jsstring := [65306%N; 58%N] ++ str ".html".
Definition colonB : jsstring := [58%N; 65306%N] ++ str ".html".
Definition colonDir : gmap jsstring jsstring := {[ colonA := str "a"; colonB := str "b" ]}.

(** A page with one small image declared as PNG (its bytes are AAABBB). *)
Definition smallPng : jsstring := str "<img src='data:image/png;base64,QUFBQkJC'>".

Definition LF : jsstring := [10%N].

(** A payload wrapped over two lines, and a page that holds the same image
    twice, wrapped and unwrapped. *)
Definition wrappedPng : jsstring :=
  str "<img src='data:image/png;base64,QUFB" ++ LF ++ str "QkJC'>".
Definition wrappedTwice : jsstring :=
  wrappedPng ++ str "<img src='data:image/png;base64,QUFBQkJC'>".

(** A small PNG followed by a marker that no semicolon follows. *)
Definition pngThenBareMarker : jsstring := smallPng ++ str "<p>data:image/png</p>".

(** An SVG in a style rule and a GIF whose data URL is written in capitals. *)
Definition svgAndGif : jsstring :=
  str "<i style='background:url(data:image/svg+xml;base64,PHN2Zy8+)'></i>"
  ++ str "<img src='DATA:image/GIF;base64,R0lGODlh'>".

(** The same PNG twice, the second with spaces inside its payload. *)
Definition spacedTwice : jsstring :=
  smallPng ++ str "<img src='data:image/png;base64,QUFB QkJC'>".

(** A marker with a semicolon after it and no [base64] in the document. *)
Definition noBase64Page : jsstring :=
  str "<p>data:image/png;charset=utf-8</p><p>data:image/gif;x</p>".

(** U+0130, the capital I with a dot above, as in a page in Turkish. *)
Definition dottedI : N := 304%N.

(** Three images of one pixel in base64: a PNG of 70 bytes, a GIF of 42
    bytes, and the SVG
    [<svg xmlns="http://www.w3.org/2000/svg" width="1" height="1"/>]. *)
Definition pixelPng : jsstring :=
  str "iVBORw0KGgoAAAANSUhEUgAAAAEAAAABCAYAAAAfFcSJAAAADUlEQVR42mNkYPhfDwAChwGA"
  ++ str "60e6kgAAAABJRU5ErkJggg==".
Definition pixelGif : jsstring :=
  str "R0lGODlhAQABAIAAAAAAAP///yH5BAEAAAAALAAAAAABAAEAAAIBRAA7".
Definition pixelSvg : jsstring :=
  str "PHN2ZyB4bWxucz0iaHR0cDovL3d3dy53My5vcmcvMjAwMC9zdmciIHdpZHRoPSIxIiBo"
  ++ str "ZWlnaHQ9IjEiLz4=".

(** Eight dotted capitals, then a marker whose semicolon is followed by no
    [base64]: the word stands before the semicolon.  A comma and the PNG
    follow. *)
Definition dottedPage : jsstring :=
  replicate 8 dottedI ++ str "data:image/base64;x," ++ pixelPng ++ str "'".

(** The marker in a running text, and the SVG in an image tag after it. *)
Definition bareThenSvg : jsstring :=
  str "<p>data:image</p><img src='data:image/svg+xml;base64," ++ pixelSvg
  ++ str "'>".

(** One dotted capital in front of the SVG and the GIF. *)
Definition dottedSvgAndGif : jsstring :=
  [dottedI] ++ str "<img src='data:image/svg+xml;base64," ++ pixelSvg ++ str "'>"
  ++ str "<img src='data:image/gif;base64," ++ pixelGif ++ str "'>".

(** A timestamp as an old template wrote it, with full-width colons in the
    time of day, and a name that carries it. *)
Definition oldStamp : jsstring :=
  str "2025-09-07T14" ++ [65306%N] ++ str "50" ++ [65306%N] ++ str "55.735Z".
Definition oldName : jsstring := str "page-" ++ oldStamp ++ str ".html".

(** A page with a script block whose opening tag is written in capitals,
    and a text in which taking one block away brings the two halves of
    another together. *)
Definition scriptedPage : jsstring :=
  str "<p>a</p><SCRIPT src='x'>f()</script><p>b</p>".
Definition nestedScript : jsstring := str "<scr<script></script>ipt>x</script>".

(** A page with a short and a long style block. *)
Definition styledPage : jsstring :=
  str "<style>a{}</style><p>x</p><style media='print'>b{color:red}</style>".

(** The two data URLs of [spacedTwice] as the pattern of the extraction
    finds them: the spans and the two groups. *)
Definition spacedTwiceMatches : list found :=
  [Found 10 40 (str "image/png") (str "QUFBQkJC");
   Found 52 83 (str "image/png") (str "QUFB QkJC")].

End Samples.

(** * Properties *)

Import Compactor Canonicalizer.

(** ** String primitives *)

Lemma startsWith_length (p s : jsstring) :
  startsWith p s = true -> length p <= length s.
Proof.
  revert s; induction p as [|a p IH]; intros [|b s]; simpl; try lia; try discriminate.
  destruct (N.eqb a b); [|discriminate]. intros H. apply IH in H. lia.
Qed.

Lemma find_bounds (needle s : jsstring) (pos p : nat) :
  find needle s pos = Some p ->
  pos <= p /\ (p - pos) + length needle <= length s.
Proof.
  revert pos; induction s as [|c s IH]; intros pos; simpl.
  - destruct (startsWith needle []) eqn:E; [|discriminate].
    intros [= <-]. apply startsWith_length in E. simpl in E. lia.
  - destruct (startsWith needle (c :: s)) eqn:E.
    + intros [= <-]. apply startsWith_length in E. simpl in E. lia.
    + intros H. apply IH in H. simpl. lia.
Qed.

Lemma indexOf_bounds (needle s : jsstring) (from p : nat) :
  needle <> [] ->
  indexOf needle s from = Some p ->
  from <= p /\ p + length needle <= length s.
Proof.
  intros Hne H. unfold indexOf in H. apply find_bounds in H.
  rewrite length_drop in H. destruct needle; [done|]. simpl in *. lia.
Qed.

Lemma find_None_pos (needle s : jsstring) (p q : nat) :
  find needle s p = None -> find needle s q = None.
Proof.
  revert p q; induction s as [|c s IH]; intros p q; simpl.
  - destruct (startsWith needle []); [discriminate|done].
  - destruct (startsWith needle (c :: s)); [discriminate|]. apply IH.
Qed.

Lemma find_None_drop (needle s : jsstring) (p q k : nat) :
  find needle s p = None -> find needle (drop k s) q = None.
Proof.
  revert s p; induction k as [|k IH]; intros s p H.
  - rewrite drop_0. eapply find_None_pos, H.
  - destruct s as [|c s]; [eapply find_None_pos, H|].
    simpl. simpl in H. destruct (startsWith needle (c :: s)); [discriminate|].
    eapply IH, H.
Qed.

Lemma indexOf_None_ge (needle s : jsstring) (a b : nat) :
  indexOf needle s a = None -> a <= b -> indexOf needle s b = None.
Proof.
  unfold indexOf. intros H Hab.
  replace b with (a + (b - a)) at 1 by lia.
  rewrite <- drop_drop. eapply find_None_drop, H.
Qed.

Lemma startsWith_prefix (p q s : jsstring) :
  startsWith (p ++ q) s = true -> startsWith p s = true.
Proof.
  revert s; induction p as [|a p IH]; intros [|b s]; simpl; try done.
  destruct (N.eqb a b); [apply IH|done].
Qed.

Lemma startsWith_take (p s : jsstring) :
  startsWith p s = true -> take (length p) s = p.
Proof.
  revert s; induction p as [|a p IH]; intros [|b s]; simpl; try done.
  destruct (N.eqb_spec a b) as [->|]; [|done]. intros H. by rewrite IH.
Qed.

Lemma find_startsWith (needle s : jsstring) (pos p : nat) :
  find needle s pos = Some p -> startsWith needle (drop (p - pos) s) = true.
Proof.
  revert pos; induction s as [|c s IH]; intros pos; simpl.
  - destruct (startsWith needle []) eqn:E; [|done]. intros _. by rewrite drop_nil.
  - destruct (startsWith needle (c :: s)) eqn:E.
    + intros [= <-]. by rewrite Nat.sub_diag.
    + intros H. pose proof (find_bounds _ _ _ _ H) as [? _].
      apply IH in H. replace (p - pos) with (S (p - S pos)) by lia. done.
Qed.

Lemma indexOf_startsWith (needle s : jsstring) (from p : nat) :
  needle <> [] ->
  indexOf needle s from = Some p -> startsWith needle (drop p s) = true.
Proof.
  intros Hne H. pose proof (indexOf_bounds _ _ _ _ Hne H) as [? _].
  unfold indexOf in H. apply find_startsWith in H.
  rewrite drop_drop in H. by replace (from + (p - from)) with p in H by lia.
Qed.

Lemma find_least (needle s : jsstring) (pos p k : nat) :
  find needle s pos = Some p -> k < p - pos ->
  startsWith needle (drop k s) = false.
Proof.
  revert pos k; induction s as [|c s IH]; intros pos k; simpl.
  - destruct (startsWith needle []); [|done]. intros [= <-]. lia.
  - destruct (startsWith needle (c :: s)) eqn:E; [intros [= <-]; lia|].
    intros H Hk. destruct k as [|k]; [done|]. simpl.
    eapply IH; [exact H|]. pose proof (find_bounds _ _ _ _ H). lia.
Qed.

(** A search from further right does not find anything further left. *)
Lemma indexOf_least (needle s : jsstring) (i i' p p' : nat) :
  needle <> [] ->
  indexOf needle s i = Some p -> indexOf needle s i' = Some p' ->
  i <= i' -> p <= p'.
Proof.
  intros Hne H H' Hi.
  pose proof (indexOf_bounds _ _ _ _ Hne H') as [? _].
  destruct (decide (p <= p')) as [|Hlt]; [done|exfalso].
  apply indexOf_startsWith in H'; [|done].
  unfold indexOf in H. apply find_least with (k := p' - i) in H; [|lia].
  rewrite drop_drop in H. replace (i + (p' - i)) with p' in H by lia.
  congruence.
Qed.

Lemma toLowerCase_slice (s : jsstring) (i j : nat) :
  toLowerCase (slice s i j) = slice (toLowerCase s) i j.
Proof. unfold toLowerCase, slice. by rewrite <- firstn_map, <- skipn_map. Qed.

(** The documents whose lower-casing keeps the places are those without
    U+0130 and U+212A. *)
Lemma keepsPlaces_units (s : jsstring) :
  keepsPlaces s <-> Forall (fun c => c <> 304%N /\ c <> 8490%N) s.
Proof.
  unfold keepsPlaces, toLowerCaseUnicode, toLowerCase.
  induction s as [|c s IH]; [by split; [constructor|]|].
  cbn [map concat]. unfold lowerUnits at 1.
  destruct (N.eqb_spec c 304) as [->|H1].
  { change (lowerUnit 304) with 304%N.
    split; [intros [=]|intros H; inversion H as [|? ? [Hc _]]; by destruct Hc]. }
  destruct (N.eqb_spec c 8490) as [->|H2].
  { change (lowerUnit 8490) with 8490%N.
    split; [intros [=]|intros H; inversion H as [|? ? [_ Hc]]; by destruct Hc]. }
  cbn [app]. split.
  - intros [= H]. constructor; [done|]. by apply IH.
  - intros H. inversion H; subst. f_equal. by apply IH.
Qed.

(** A text without [k], U+0130, U+0307 and U+212A that does not end in [i]
    is found at the front of a lowered string, or is that string, under both
    mappings alike.  The two tests of the MIME text are of this kind. *)
Lemma lowered_tests_agree (p m : jsstring) :
  Forall (fun c => c <> 107 /\ c <> 775 /\ c <> 304 /\ c <> 8490)%N p ->
  last p <> Some 105%N ->
  startsWith p (toLowerCaseUnicode m) = startsWith p (toLowerCase m) /\
  (toLowerCaseUnicode m = p <-> toLowerCase m = p).
Proof.
  unfold toLowerCaseUnicode, toLowerCase.
  revert p; induction m as [|c m IH]; intros p Hp Hlast; [done|].
  cbn [map concat]. destruct p as [|x p].
  { split; [done|]. unfold lowerUnits at 1. split; [|done].
    by repeat case_match. }
  inversion Hp as [|? ? (Hk & Hd & Hi & Hkel) Hp']; subst.
  assert (last p <> Some 105%N) as Hlast'.
  { destruct p as [|y p]; [done|]. by rewrite last_cons_cons in Hlast. }
  unfold lowerUnits at 1 3.
  destruct (N.eqb_spec c 304) as [->|H1].
  { change (lowerUnit 304) with 304%N. cbn [app startsWith].
    destruct (N.eqb_spec x 304) as [->|_]; [done|].
    split.
    - destruct (N.eqb_spec x 105) as [->|_]; [|done].
      destruct p as [|y p]; [done|]. cbn [startsWith].
      inversion Hp' as [|? ? (_ & Hy & _) _]; subst.
      by destruct (N.eqb_spec y 775).
    - split; intros H; [|congruence].
      destruct p as [|y p]; [done|].
      inversion Hp' as [|? ? (_ & Hy & _) _]. congruence. }
  destruct (N.eqb_spec c 8490) as [->|H2].
  { change (lowerUnit 8490) with 8490%N. cbn [app startsWith].
    destruct (N.eqb_spec x 107) as [->|_]; [done|].
    destruct (N.eqb_spec x 8490) as [->|_]; [done|].
    split; [done|]. split; intros H; congruence. }
  cbn [app startsWith]. destruct (IH p Hp' Hlast') as [IH1 IH2].
  split.
  - by destruct (N.eqb x (lowerUnit c)).
  - split; intros [= -> H]; f_equal; by apply IH2.
Qed.

Lemma mime_tests_agree (mime : jsstring) :
  startsWith (str "image/svg") (toLowerCaseUnicode mime)
  = startsWith (str "image/svg") (toLowerCase mime) /\
  eqb (toLowerCaseUnicode mime) (str "image/gif")
  = eqb (toLowerCase mime) (str "image/gif").
Proof.
  split.
  - apply lowered_tests_agree; [|done].
    repeat (constructor; [done|]). constructor.
  - unfold eqb. apply bool_decide_ext, lowered_tests_agree; [|done].
    repeat (constructor; [done|]). constructor.
Qed.

Lemma slice_app (s : jsstring) (i j k : nat) :
  i <= j -> j <= k -> slice s i j ++ slice s j k = slice s i k.
Proof.
  intros Hij Hjk. unfold slice.
  replace (drop j s) with (drop (j - i) (drop i s))
    by (rewrite drop_drop; f_equal; lia).
  rewrite take_take_drop. f_equal. lia.
Qed.

Lemma slice_sliceFrom (s : jsstring) (i j : nat) :
  i <= j -> slice s i j ++ sliceFrom s j = sliceFrom s i.
Proof.
  intros Hij. unfold slice, sliceFrom.
  replace (drop j s) with (drop (j - i) (drop i s))
    by (rewrite drop_drop; f_equal; lia).
  apply take_drop.
Qed.

Lemma sliceFrom_length (s : jsstring) : sliceFrom s (length s) = [].
Proof. unfold sliceFrom. by rewrite drop_all. Qed.

Lemma slice_same (s : jsstring) (i : nat) : slice s i i = [].
Proof. unfold slice. by rewrite Nat.sub_diag. Qed.

Lemma str_nonempty (c : ascii) (r : string) : str (String c r) <> [].
Proof. done. Qed.

(** ** The scan of one pass *)

Lemma consume_bounds (rest : jsstring) (k : nat) :
  k <= consume rest k /\ consume rest k <= k + length rest.
Proof.
  revert k; induction rest as [|c r IH]; intros k; simpl; [lia|].
  destruct (isPayloadChar c); [|lia]. specialize (IH (S k)). lia.
Qed.

(** The bounds of every successful search in the context. *)
Ltac index_bounds :=
  repeat match goal with
         | H : indexOf ?n ?s ?i = Some ?p |- _ =>
             let B := fresh "B" in
             pose proof (indexOf_bounds n s i p ltac:(done) H) as B;
             simpl in B; revert H
         end;
  intros.

(** Projections of the records met in the proofs. *)
Ltac fields :=
  cbn [out idx cache replaced calls spans
       sp_start sp_end sp_mime sp_b64raw sp_emitted] in *.

Section PassProperties.

Variable GIF_WEBP : bool.
Variable decodeBase64 : jsstring -> Buffer.
Variable encodeBase64 : Buffer -> jsstring.
Variable sha16 : Buffer -> jsstring.
Variable sharp : job -> option Buffer.

#[local] Abbreviation iteration :=
  (Compactor.iteration GIF_WEBP decodeBase64 encodeBase64 sha16 sharp).
#[local] Abbreviation loop :=
  (Compactor.loop GIF_WEBP decodeBase64 encodeBase64 sha16 sharp).
#[local] Abbreviation recompress :=
  (Compactor.recompress GIF_WEBP decodeBase64 encodeBase64 sha16 sharp).
#[local] Abbreviation compressInlineOnce :=
  (Compactor.compressInlineOnce GIF_WEBP decodeBase64 encodeBase64 sha16 sharp).
#[local] Abbreviation iteration_case :=
  (Compactor.iteration_case GIF_WEBP decodeBase64 encodeBase64 sha16 sharp).
#[local] Abbreviation reach :=
  (Compactor.reach GIF_WEBP decodeBase64 encodeBase64 sha16 sharp).
#[local] Abbreviation dedupInvariant :=
  (Compactor.dedupInvariant GIF_WEBP decodeBase64 sha16).

Lemma iteration_cases html lower q w s :
  iteration_case html lower q w s (iteration html lower q w s).
Proof.
  unfold Compactor.iteration.
  destruct (indexOf (str "data:image") lower (idx s)) as [start|] eqn:E1;
    [|by constructor].
  destruct (indexOf (str ";") html (start + 5)) as [semi|] eqn:E2;
    [|rewrite <- app_assoc; by econstructor].
  destruct (indexOf (str "base64") lower (semi + 1)) as [b|] eqn:E3;
    [|rewrite <- app_assoc; by econstructor].
  destruct (indexOf (str ",") html b) as [comma|] eqn:E4;
    [|rewrite <- app_assoc; by econstructor].
  destruct (Compactor.recompress _ _ _ _ _ _ _ _ _ _ _ _ _) as [[[e c] n] l] eqn:E5.
  rewrite <- app_assoc. by econstructor.
Qed.

(** Every iteration that stays in the loop moves the index forward, and
    not past the end of the document. *)
Lemma iteration_advances html lower q w s s' :
  iteration html lower q w s = Next s' ->
  idx s < idx s' /\ idx s' <= length html.
Proof.
  intros H. pose proof (iteration_cases html lower q w s) as C.
  rewrite H in C. inversion C; subst; simpl.
  - repeat match goal with
           | H : indexOf _ _ _ = Some _ |- _ =>
               apply indexOf_bounds in H; [|done]
           end. simpl in *. lia.
  - repeat match goal with
           | H : indexOf _ _ _ = Some _ |- _ =>
               apply indexOf_bounds in H; [|done]
           end.
    pose proof (consume_bounds (sliceFrom html (comma + 1)) (comma + 1)) as B.
    subst k. unfold sliceFrom in *. rewrite length_drop in B. simpl in *. lia.
Qed.

Lemma iteration_break html lower q w s s' :
  length lower = length html ->
  iteration html lower q w s = Break s' ->
  s' = s \/ (idx s < idx s' /\ idx s' = length html).
Proof.
  intros Hlen H. pose proof (iteration_cases html lower q w s) as C.
  rewrite H in C. inversion C; subst; simpl; [by left|right..];
    repeat match goal with
           | H : indexOf _ _ _ = Some _ |- _ =>
               apply indexOf_bounds in H; [|done]
           end; simpl in *; lia.
Qed.

Lemma loop_enough_fuel html lower q w fuel s :
  idx s <= length html -> length html < fuel + idx s ->
  exists s', loop fuel html lower q w s = Some s'.
Proof.
  revert s; induction fuel as [|fuel IH]; intros s Hle Hlt; [lia|].
  simpl.
  destruct (iteration html lower q w s) as [s'|s'] eqn:E; [|by eexists].
  apply iteration_advances in E. apply IH; lia.
Qed.

Lemma toLowerCase_length (s : jsstring) : length (toLowerCase s) = length s.
Proof. apply length_map. Qed.

Lemma reach_idx html q w s : reach html q w s -> idx s <= length html.
Proof.
  induction 1 as [|s s' _ _ E]; simpl; [lia|].
  apply iteration_advances in E. lia.
Qed.

(** The pass returns on every document. *)
Lemma compressInlineOnce_returns html q w :
  exists r, compressInlineOnce html q w = Some r.
Proof.
  unfold Compactor.compressInlineOnce.
  destruct (loop_enough_fuel html (toLowerCaseUnicode html) q w
              (S (length html)) initial)
    as [s' ->]; simpl; [lia..|]. by eexists.
Qed.

(** A run that started at the initial state goes through every state the
    scan reaches. *)
Lemma reach_loop html q w s :
  reach html q w s ->
  forall fuel sf,
    loop fuel html (toLowerCaseUnicode html) q w initial = Some sf ->
    exists fuel', loop fuel' html (toLowerCaseUnicode html) q w s = Some sf.
Proof.
  induction 1 as [|s s' _ IH E]; intros fuel sf Hrun; [by eexists|].
  destruct (IH _ _ Hrun) as [[|f] Hf]; [discriminate|].
  simpl in Hf. rewrite E in Hf. by exists f.
Qed.

(** C10.  On every document, for every encoder, and whatever text the
    lower-casing of the document gives: an iteration that stays in the loop
    moves the scan index strictly forward (and not past the end); when the
    lowered text has the length of the document, an iteration that leaves
    the loop either found no marker or moved the index to the end; from any
    index as many iterations as units are left, and one more, end the loop;
    and the pass returns. *)
Theorem compressInlineOnce_terminates html q w :
  (forall lower s s', iteration html lower q w s = Next s' ->
                      idx s < idx s' /\ idx s' <= length html) /\
  (forall lower s s', length lower = length html ->
                      iteration html lower q w s = Break s' ->
                      s' = s \/ (idx s < idx s' /\ idx s' = length html)) /\
  (forall lower s, idx s <= length html ->
                   exists s', loop (S (length html - idx s)) html lower q w s
                              = Some s') /\
  exists r, compressInlineOnce html q w = Some r.
Proof.
  split; [|split; [|split]].
  - intros lower s s'. apply iteration_advances.
  - intros lower s s'. apply iteration_break.
  - intros lower s Hs. apply loop_enough_fuel; lia.
  - apply compressInlineOnce_returns.
Qed.

(** *** Missing delimiters *)

(** Once [base64] no longer occurs after the index, whatever the scan still
    does copies the rest of the document. *)
Lemma loop_without_base64 html q w fuel s sf :
  idx s <= length html ->
  indexOf (str "base64") (toLowerCase html) (idx s) = None ->
  loop fuel html (toLowerCase html) q w s = Some sf ->
  concat (out sf) ++ sliceFrom html (idx sf) = concat (out s) ++ sliceFrom html (idx s)
  /\ replaced sf = replaced s /\ calls sf = calls s /\ spans sf = spans s
  /\ cache sf = cache s.
Proof.
  revert s; induction fuel as [|fuel IH]; intros s Hle Hno Hrun; [discriminate|].
  simpl in Hrun.
  pose proof (iteration_cases html (toLowerCase html) q w s) as C.
  destruct (iteration html (toLowerCase html) q w s) as [s'|s'] eqn:E.
  - pose proof (iteration_advances _ _ _ _ _ _ E) as [Hlt Hle'].
    inversion C; subst; index_bounds.
    + apply IH in Hrun; simpl; [| lia | eapply indexOf_None_ge; [exact Hno|lia]].
      destruct Hrun as (-> & -> & -> & -> & ->). simpl. repeat split.
      rewrite !concat_app, <- !app_assoc. simpl. rewrite !app_nil_r, <- !app_assoc.
      f_equal. rewrite slice_sliceFrom by lia. apply slice_sliceFrom. lia.
    + assert (indexOf (str "base64") (toLowerCase html) (semi + 1) = None)
        by (eapply indexOf_None_ge; [exact Hno|lia]).
      congruence.
  - injection Hrun as <-. inversion C; subst; index_bounds; simpl; repeat split.
    all: rewrite !concat_app, <- !app_assoc; simpl.
    all: rewrite !app_nil_r, sliceFrom_length, app_nil_r; f_equal.
    all: apply slice_sliceFrom; lia.
Qed.

Lemma loop_delimiter_missing html q w fuel s sf :
  idx s <= length html ->
  delimiterMissing html (idx s) ->
  loop fuel html (toLowerCase html) q w s = Some sf ->
  concat (out sf) ++ sliceFrom html (idx sf) = concat (out s) ++ sliceFrom html (idx s)
  /\ replaced sf = replaced s /\ calls sf = calls s /\ spans sf = spans s.
Proof.
  intros Hle (start & Hm & Hcase) Hrun.
  destruct fuel as [|fuel]; [discriminate|]. simpl in Hrun.
  pose proof (iteration_cases html (toLowerCase html) q w s) as C.
  pose proof (indexOf_bounds _ _ _ _ (str_nonempty _ _) Hm) as [Hstart _].
  assert (concat (out s ++ [slice html (idx s) start] ++ [sliceFrom html start])
          ++ sliceFrom html (length html)
          = concat (out s) ++ sliceFrom html (idx s)) as Hcopy.
  { rewrite !concat_app, <- !app_assoc. simpl.
    rewrite !app_nil_r, sliceFrom_length, app_nil_r. f_equal.
    by apply slice_sliceFrom. }
  destruct Hcase as [Hsemi|(semi & Hsemi & [Hb|(b & Hb & Hcomma)])].
  - inversion C; subst; try congruence.
    rewrite <- H in Hrun. injection Hrun as <-. simpl.
    replace start0 with start by congruence. done.
  - inversion C; subst; try congruence.
    rewrite <- H in Hrun.
    assert (start0 = start) as -> by congruence.
    assert (semi0 = semi) as -> by congruence.
    pose proof (indexOf_bounds _ _ _ _ (str_nonempty _ _) Hsemi) as [? ?].
    simpl in *.
    eapply loop_without_base64 in Hrun; simpl; [|lia|done].
    destruct Hrun as (-> & -> & -> & -> & _). simpl. repeat split.
    rewrite !concat_app, <- !app_assoc. simpl. rewrite !app_nil_r, <- !app_assoc.
    f_equal. rewrite slice_sliceFrom by lia. apply slice_sliceFrom. lia.
  - inversion C; subst; try congruence.
    rewrite <- H in Hrun. injection Hrun as <-. simpl.
    replace start0 with start by congruence. done.
Qed.

(** On a document whose lower-casing keeps the places: when the scan stands
    at an index whose next marker lacks a delimiter before the end of the
    document, the pass returns (it does not throw), and its output is what
    was pushed so far followed by the rest of the document unchanged;
    nothing is re-encoded or counted from there on.  When it is [base64]
    that is missing the scan goes on behind the semicolon, to the next
    marker.  No marker from that index on has all its delimiters, so no
    payload is left unvisited. *)
Theorem missing_delimiter_passes_through html q w s :
  keepsPlaces html ->
  reach html q w s ->
  delimiterMissing html (idx s) ->
  (exists r, compressInlineOnce html q w = Some r /\
             r_html r = concat (out s) ++ sliceFrom html (idx s) /\
             r_replacements r = replaced s /\ r_calls r = calls s /\
             r_spans r = spans s) /\
  (forall start semi,
     indexOf (str "data:image") (toLowerCase html) (idx s) = Some start ->
     indexOf (str ";") html (start + 5) = Some semi ->
     indexOf (str "base64") (toLowerCase html) (semi + 1) = None ->
     exists s', iteration html (toLowerCaseUnicode html) q w s = Next s' /\
                idx s' = semi + 1 /\ reach html q w s') /\
  (forall i start semi base64Idx comma,
     idx s <= i ->
     indexOf (str "data:image") (toLowerCase html) i = Some start ->
     indexOf (str ";") html (start + 5) = Some semi ->
     indexOf (str "base64") (toLowerCase html) (semi + 1) = Some base64Idx ->
     indexOf (str ",") html base64Idx = Some comma ->
     False).
Proof.
  intros Hkeeps Hreach Hmiss. unfold keepsPlaces in Hkeeps. split; [|split].
  3:{ intros i start semi b comma Hi H1 H2 H3 H4.
      destruct Hmiss as (start0 & Hm & Hcase).
      pose proof (indexOf_least _ _ _ _ _ _ (str_nonempty _ _) Hm H1 Hi) as Hs.
      destruct Hcase as [Hsemi|(semi0 & Hsemi & Hcase)].
      { eapply indexOf_None_ge in Hsemi; [|apply Nat.add_le_mono_r, Hs]. congruence. }
      pose proof (indexOf_least _ _ _ _ _ _ (str_nonempty _ _) Hsemi H2
                    ltac:(lia)) as Hsm.
      destruct Hcase as [Hb|(b0 & Hb & Hcomma)].
      { eapply indexOf_None_ge in Hb; [|apply Nat.add_le_mono_r, Hsm]. congruence. }
      pose proof (indexOf_least _ _ _ _ _ _ (str_nonempty _ _) Hb H3
                    ltac:(lia)) as Hbb.
      eapply indexOf_None_ge in Hcomma; [|exact Hbb]. congruence. }
  - destruct (compressInlineOnce_returns html q w) as [r Hr]. exists r.
    split; [done|]. unfold Compactor.compressInlineOnce in Hr.
    destruct (loop _ _ _ _ _ initial) as [sf|] eqn:Hrun; [|discriminate].
    injection Hr as <-.
    destruct (reach_loop _ _ _ _ Hreach _ _ Hrun) as [fuel' Hrun'].
    rewrite Hkeeps in Hrun'.
    apply loop_delimiter_missing in Hrun'; [|by eapply reach_idx|done].
    destruct Hrun' as (Hout & ? & ? & ?). simpl.
    rewrite concat_app. simpl. by rewrite app_nil_r.
  - intros start semi H1 H2 H3.
    pose proof (iteration_cases html (toLowerCase html) q w s) as C.
    inversion C; subst; try congruence.
    assert (start0 = start) as -> by congruence.
    assert (semi0 = semi) as -> by congruence.
    eexists. rewrite Hkeeps. split; [done|]. split; [done|].
    eapply reach_next; [exact Hreach|]. by rewrite Hkeeps, <- H.
Qed.

(** *** The output as a splice of the input *)

Lemma spliceTo_extend html sps i j j' :
  chain sps i j -> j <= j' ->
  spliceTo html sps i j ++ slice html j j' = spliceTo html sps i j' /\
  chain sps i j'.
Proof.
  revert i; induction sps as [|sp sps IH]; intros i; simpl.
  - intros Hij Hjj. split; [by apply slice_app|lia].
  - intros (H1 & H2 & H3) Hjj. destruct (IH _ H3 Hjj) as [E C].
    rewrite <- !app_assoc, E. done.
Qed.

Lemma spliceTo_snoc html sps sp i j :
  chain sps i j -> j <= sp_start sp -> sp_start sp <= sp_end sp ->
  spliceTo html (sps ++ [sp]) i (sp_end sp)
  = spliceTo html sps i j ++ slice html j (sp_start sp) ++ sp_emitted sp /\
  chain (sps ++ [sp]) i (sp_end sp).
Proof.
  revert i; induction sps as [|x sps IH]; intros i; simpl.
  - intros Hij H1 H2. rewrite slice_same, app_nil_r, app_assoc, slice_app by lia.
    split; [done|lia].
  - intros (H1 & H2 & H3) H4 H5. destruct (IH _ H3 H4 H5) as [E C].
    rewrite E, <- !app_assoc. done.
Qed.

Lemma spliceTo_splice html sps i j :
  chain sps i j -> spliceTo html sps i j ++ sliceFrom html j = splice html sps i.
Proof.
  revert i; induction sps as [|sp sps IH]; intros i; simpl.
  - apply slice_sliceFrom.
  - intros (H1 & H2 & H3). by rewrite <- !app_assoc, IH.
Qed.

Lemma slice_to_end (s : jsstring) (i : nat) : slice s i (length s) = sliceFrom s i.
Proof. unfold slice, sliceFrom. apply take_ge. rewrite length_drop. lia. Qed.

(** *** The two pass-through rules *)

(** The located text, read again, declares the MIME type that was read. *)
Lemma original_declares html start semi k :
  indexOf (str "data:image") (toLowerCase html) start = Some start ->
  indexOf (str ";") html (start + 5) = Some semi ->
  semi < k ->
  toLowerCase (slice html (start + 5) semi) = str "image/gif" ->
  declaresGif (slice html start k).
Proof.
  intros Hm Hs Hk Hgif. index_bounds.
  exists (slice html start (start + 5)), (slice html (start + 5) semi),
         (slice html (semi + 1) k).
  split; [|split; [|done]].
  - replace (str ";") with (slice html semi (semi + 1)).
    + rewrite !slice_app by lia. done.
    + apply indexOf_startsWith in Hs; [|done]. apply startsWith_take in Hs.
      unfold slice. by replace (semi + 1 - semi) with (length (str ";")) by (simpl; lia).
  - rewrite toLowerCase_slice. apply indexOf_startsWith in Hm; [|done].
    change (str "data:image") with (str "data:" ++ str "image") in Hm.
    apply startsWith_prefix, startsWith_take in Hm.
    unfold slice. by replace (start + 5 - start) with (length (str "data:")) by (simpl; lia).
Qed.

Lemma marker_at_itself (needle s : jsstring) (i p : nat) :
  needle <> [] -> indexOf needle s i = Some p -> indexOf needle s p = Some p.
Proof.
  intros Hne H. apply indexOf_startsWith in H; [|done].
  unfold indexOf. destruct (drop p s); simpl in *; by rewrite H.
Qed.

Lemma recompress_passedThrough html q w s start k mime b64raw emitted c n l :
  recompress html q w start k mime b64raw s = (emitted, c, n, l) ->
  passedThrough GIF_WEBP html (Span start k mime b64raw emitted).
Proof.
  intros Hr. unfold Compactor.recompress in Hr.
  split; cbn [sp_mime sp_emitted sp_start sp_end].
  - intros Hsvg. rewrite Hsvg in Hr. congruence.
  - intros -> Hgif. rewrite Hgif in Hr.
    change (startsWith (str "image/svg") (str "image/gif")) with false in Hr.
    change (eqb (str "image/gif") (str "image/gif")) with true in Hr.
    cbv iota in Hr.
    destruct (viaCache _ _ _ _ _ _) as [[[v|] c'] l'].
    + injection Hr as <- _ _ _. left. by exists v.
    + injection Hr as <- _ _ _. by right.
Qed.

Lemma scanInvariant_initial html lower : scanInvariant GIF_WEBP html lower initial.
Proof. repeat split; simpl; try lia; try done. Qed.

Lemma scanInvariant_iteration html lower q w s :
  scanInvariant GIF_WEBP html lower s ->
  match iteration html lower q w s with
  | Next s' | Break s' => scanInvariant GIF_WEBP html lower s'
  end.
Proof.
  intros (Hle & Hch & Hout & Hall).
  pose proof (iteration_cases html lower q w s) as C.
  inversion C; subst; index_bounds.
  - done.
  - destruct (spliceTo_extend html (spans s) 0 (idx s) (length html) Hch)
      as [E Hch']; [lia|].
    repeat split; simpl; try done.
    rewrite !concat_app, Hout, <- E. simpl. rewrite app_nil_r.
    by rewrite slice_sliceFrom, slice_to_end by lia.
  - destruct (spliceTo_extend html (spans s) 0 (idx s) (semi + 1) Hch)
      as [E Hch']; [lia|].
    repeat split; simpl; try done; try lia.
    rewrite !concat_app, Hout, <- E. simpl. rewrite app_nil_r.
    by rewrite slice_app by lia.
  - destruct (spliceTo_extend html (spans s) 0 (idx s) (length html) Hch)
      as [E Hch']; [lia|].
    repeat split; simpl; try done.
    rewrite !concat_app, Hout, <- E. simpl. rewrite app_nil_r.
    by rewrite slice_sliceFrom, slice_to_end by lia.
  - pose proof (consume_bounds (sliceFrom html (comma + 1)) (comma + 1)) as Bk.
    unfold sliceFrom in Bk. rewrite length_drop in Bk. fold (sliceFrom html (comma + 1)) in Bk.
    fold k in Bk.
    destruct (spliceTo_snoc html (spans s) (Span start k mime b64raw emitted)
                0 (idx s) Hch) as [E Hch']; simpl; [lia..|].
    simpl in E. repeat split; simpl; try done; try lia.
    + rewrite !concat_app, Hout, E. simpl. by rewrite app_nil_r.
    + apply Forall_app. split; [done|]. apply Forall_singleton. split.
      * exists semi, base64Idx, comma. simpl.
        split; [by eapply marker_at_itself|done].
      * by eapply recompress_passedThrough.
Qed.

Lemma scanInvariant_loop html lower q w fuel s sf :
  scanInvariant GIF_WEBP html lower s ->
  loop fuel html lower q w s = Some sf ->
  scanInvariant GIF_WEBP html lower sf.
Proof.
  revert s; induction fuel as [|fuel IH]; intros s Hs Hrun; [discriminate|].
  simpl in Hrun. pose proof (scanInvariant_iteration html lower q w s Hs) as Hi.
  destruct (iteration html lower q w s) as [s'|s'].
  - by eapply IH.
  - by injection Hrun as <-.
Qed.

(** The semicolon that ends the MIME text of a located payload stands
    before the end of the payload. *)
Lemma located_semicolon html lower sp :
  located html lower sp ->
  exists semi, indexOf (str ";") html (sp_start sp + 5) = Some semi /\
               sp_mime sp = slice html (sp_start sp + 5) semi /\
               semi < sp_end sp.
Proof.
  intros (semi & b & comma & _ & Hs & Hm & Hb & Hc & He & _).
  exists semi. split; [done|]. split; [done|].
  pose proof (consume_bounds (sliceFrom html (comma + 1)) (comma + 1)) as [Hk _].
  rewrite <- He in Hk. index_bounds. lia.
Qed.

(** On a document whose lower-casing keeps the places: the pass returns;
    the located payloads lie one after the other in the document; the
    output is the document with each located payload replaced by the text
    pushed for it and everything else copied; for a located payload whose
    MIME text, as the scan reads it, starts with [image/svg] (without case)
    that text is the payload's own span of the document; and without
    [--gif-webp], for a located payload whose MIME text is [image/gif] that
    text, whether re-optimised or the original, still declares
    [image/gif]. *)
Theorem format_pass_through html q w :
  keepsPlaces html ->
  exists r,
    compressInlineOnce html q w = Some r /\
    chain (r_spans r) 0 (length html) /\
    r_html r = splice html (r_spans r) 0 /\
    forall sp, sp ∈ r_spans r ->
      located html (toLowerCase html) sp /\
      (startsWith (str "image/svg") (toLowerCase (sp_mime sp)) = true ->
       sp_emitted sp = slice html (sp_start sp) (sp_end sp)) /\
      (GIF_WEBP = false ->
       toLowerCase (sp_mime sp) = str "image/gif" ->
       declaresGif (sp_emitted sp)).
Proof.
  intros Hkeeps. unfold keepsPlaces in Hkeeps.
  destruct (compressInlineOnce_returns html q w) as [r Hr]. exists r.
  split; [done|]. unfold Compactor.compressInlineOnce in Hr.
  destruct (loop _ _ _ _ _ initial) as [sf|] eqn:Hrun; [|discriminate].
  injection Hr as <-.
  apply scanInvariant_loop in Hrun; [|apply scanInvariant_initial].
  rewrite Hkeeps in Hrun.
  destruct Hrun as (Hle & Hch & Hout & Hall). simpl. split; [|split].
  - by apply (spliceTo_extend html _ _ _ _ Hch).
  - rewrite concat_app, Hout. simpl. rewrite app_nil_r. by apply spliceTo_splice.
  - intros sp Hsp. rewrite Forall_forall in Hall.
    destruct (Hall sp Hsp) as [Hloc [Hsvg Hgif]].
    split; [done|]. split; [done|]. intros Hflag Hmime.
    destruct (Hgif Hflag Hmime) as [[v Hv]|Hv]; rewrite Hv.
    + exists (str "data:"), (str "image/gif"), (str "base64," ++ v). done.
    + destruct (located_semicolon _ _ _ Hloc) as (semi & Hs & Hm & Hk).
      destruct Hloc as (_ & _ & _ & Hmark & _).
      eapply original_declares; [exact Hmark|exact Hs|exact Hk|].
      by rewrite <- Hm.
Qed.

(** *** One encoding per content *)

Lemma callsFor_app h l1 l2 :
  callsFor sha16 h (l1 ++ l2) = callsFor sha16 h l1 + callsFor sha16 h l2.
Proof. induction l1 as [|j l1 IH]; simpl; [done|]. rewrite IH. lia. Qed.

(** What the [try] block does with a located payload: pass an SVG through,
    reuse the cached replacement, or call the encoder once. *)
Lemma recompress_cases html q w start k mime b64raw s :
  let h := sha16 (decodeBase64 b64raw) in
  let original := slice html start k in
  (startsWith (str "image/svg") (toLowerCase mime) = true /\
   recompress html q w start k mime b64raw s
   = (original, cache s, replaced s, calls s)) \/
  (startsWith (str "image/svg") (toLowerCase mime) = false /\
   ((exists v, truthy (cache s !! h) = Some v /\
               recompress html q w start k mime b64raw s
               = (dataUrlPrefix GIF_WEBP mime ++ v, cache s, S (replaced s), calls s)) \/
    (truthy (cache s !! h) = None /\
     exists j, job_input j = decodeBase64 b64raw /\
       ((exists buf, sharp j = Some buf /\
           recompress html q w start k mime b64raw s
           = (dataUrlPrefix GIF_WEBP mime ++ encodeBase64 buf,
              <[h := encodeBase64 buf]> (cache s), S (replaced s), calls s ++ [j])) \/
        (sharp j = None /\
           recompress html q w start k mime b64raw s
           = (original, cache s, replaced s, calls s ++ [j])))))).
Proof.
  intros h original. unfold Compactor.recompress, dataUrlPrefix, viaCache.
  fold h. fold original.
  destruct (startsWith (str "image/svg") (toLowerCase mime)); [by left|right].
  split; [done|].
  destruct (truthy (cache s !! h)) as [v|] eqn:Ht.
  - left. exists v. split; [done|].
    destruct (eqb (toLowerCase mime) (str "image/gif")); [|done].
    by destruct GIF_WEBP.
  - right. split; [done|].
    destruct (eqb (toLowerCase mime) (str "image/gif")); [destruct GIF_WEBP|].
    + exists (GifToWebp (decodeBase64 b64raw) w q). split; [done|].
      destruct (sharp _) as [buf|]; [left; by exists buf|by right].
    + exists (GifReoptimise (decodeBase64 b64raw)). split; [done|].
      destruct (sharp _) as [buf|]; [left; by exists buf|by right].
    + exists (ToWebp (decodeBase64 b64raw) w q). split; [done|].
      destruct (sharp _) as [buf|]; [left; by exists buf|by right].
Qed.

Lemma truthy_insert_ne (c : gmap jsstring jsstring) (h h' v : jsstring) :
  h' <> h -> truthy (<[h' := v]> c !! h) = truthy (c !! h).
Proof. intros. by rewrite lookup_insert_ne. Qed.

Lemma truthy_insert_eq (c : gmap jsstring jsstring) (h v : jsstring) :
  v <> [] -> truthy (<[h := v]> c !! h) = Some v.
Proof. intros. rewrite lookup_insert_eq. by destruct v. Qed.

Section OneContent.

(** The content hash under study, and an encoder that succeeds on it with a
    non-empty result. *)
Variable h : jsstring.
Hypothesis encodes :
  forall j, sha16 (job_input j) = h ->
            exists buf, sharp j = Some buf /\ encodeBase64 buf <> [].

Lemma dedupInvariant_iteration html lower q w s :
  dedupInvariant h s ->
  match iteration html lower q w s with
  | Next s' | Break s' => dedupInvariant h s'
  end.
Proof.
  intros Hinv. pose proof (iteration_cases html lower q w s) as C.
  inversion C as [| | | |start semi b comma emitted c n l H1 H2 H3 H4 k mime b64raw Hr];
    subst; try done.
  pose proof (recompress_cases html q w start k mime b64raw s) as R.
  cbv zeta in R. rewrite Hr in R.
  assert (forall sp, sp ∈ spans s ++ [Span start k mime b64raw emitted] ->
            sp ∈ spans s \/ sp = Span start k mime b64raw emitted) as Hin.
  { intros sp Hsp. apply elem_of_app in Hsp as [?|Hsp]; [by left|right].
    by apply list_elem_of_singleton in Hsp. }
  destruct (decide (sha16 (decodeBase64 b64raw) = h)) as [Eh|Eh].
  - (* the payload carries the content *)
    destruct R as [[Hsvg [= -> -> -> ->]]|[Hsvg [(v & Ht & [= -> -> -> ->])|(Ht & j & Hj & R)]]].
    + destruct Hinv as [(Hc & Hn & Hs)|(Hc & v & Hv & Hs)]; [left|right]; fields.
      * repeat split; try done. intros sp [Hsp| ->]%Hin; [by apply Hs|].
        fields. by rewrite Hsvg.
      * split; [done|]. exists v. split; [done|].
        intros sp [Hsp| ->]%Hin; [by apply Hs|]. fields. by rewrite Hsvg.
    + rewrite Eh in Ht.
      destruct Hinv as [(Hc & Hn & Hs)|(Hc & v' & Hv & Hs)]; [congruence|].
      right; fields. split; [done|]. exists v'. split; [done|].
      intros sp [Hsp| ->]%Hin; [by apply Hs|]. fields. intros _ _. congruence.
    + rewrite Eh in Ht.
      destruct Hinv as [(Hc & Hn & Hs)|(Hc & v' & Hv & Hs)]; [|congruence].
      destruct (encodes j) as (buf & Hbuf & Hne); [congruence|].
      destruct R as [(buf' & Hbuf' & [= -> -> -> ->])|[Hnone _]]; [|congruence].
      assert (buf' = buf) as -> by congruence.
      right; fields. split.
      * rewrite callsFor_app, Hc. cbn [callsFor]. rewrite Hj, Eh.
        unfold eqb. by rewrite bool_decide_eq_true_2.
      * exists (encodeBase64 buf). rewrite Eh. split; [by apply truthy_insert_eq|].
        intros sp [Hsp| ->]%Hin; [|done]. intros Hsvg' Hh'. by destruct (Hs sp Hsp Hsvg').
  - (* another content, or an SVG *)
    assert (callsFor sha16 h l = callsFor sha16 h (calls s) /\
            truthy (c !! h) = truthy (cache s !! h)) as [Ec Et].
    { destruct R as [[_ [= _ -> _ ->]]|[_ [(v & _ & [= _ -> _ ->])|(_ & j & Hj & R)]]];
        [done..|].
      assert (callsFor sha16 h (calls s ++ [j]) = callsFor sha16 h (calls s)) as Ecj.
      { rewrite callsFor_app. cbn [callsFor]. rewrite Hj. unfold eqb.
        rewrite bool_decide_eq_false_2 by done. lia. }
      destruct R as [(buf & _ & [= _ -> _ ->])|[_ [= _ -> _ ->]]]; [|done].
      split; [done|]. by apply truthy_insert_ne. }
    destruct Hinv as [(Hc & Hn & Hs)|(Hc & v & Hv & Hs)]; [left|right]; fields;
      rewrite Ec, Et.
    + repeat split; try done. intros sp [Hsp| ->]%Hin; [by apply Hs|]. done.
    + split; [done|]. exists v. split; [done|].
      intros sp [Hsp| ->]%Hin; [by apply Hs|]. fields. done.
Qed.

Lemma dedupInvariant_initial : dedupInvariant h initial.
Proof.
  left. unfold initial. fields. split; [done|]. split; [by rewrite lookup_empty|].
  intros sp Hsp. by apply not_elem_of_nil in Hsp.
Qed.

Lemma dedupInvariant_loop html lower q w fuel s sf :
  dedupInvariant h s ->
  loop fuel html lower q w s = Some sf ->
  dedupInvariant h sf.
Proof.
  revert s; induction fuel as [|fuel IH]; intros s Hs Hrun; [discriminate|].
  simpl in Hrun. pose proof (dedupInvariant_iteration html lower q w s Hs) as Hi.
  destruct (iteration html lower q w s) as [s'|s'].
  - by eapply IH.
  - by injection Hrun as <-.
Qed.


End OneContent.

(** *** The budget loop *)

Lemma tighten_pendingSteps q w q' w' :
  tighten q w = Some (q', w') -> S (pendingSteps q' w') = pendingSteps q w.
Proof.
  unfold tighten, pendingSteps.
  destruct (Z.ltb_spec 40 q); [|destruct (Z.ltb_spec 1000 w)]; intros [= <- <-].
  - destruct (Z.max_spec 40 (q - 10)) as [[? ->]|[? ->]].
    + replace ((q - 31) / 10)%Z with ((q - 10 - 31) / 10 + 1)%Z
        by (Z.div_mod_to_equations; lia).
      rewrite Z2Nat.inj_add by (Z.div_mod_to_equations; lia). simpl. lia.
    + replace ((q - 31) / 10)%Z with 1%Z by (Z.div_mod_to_equations; lia).
      replace ((40 - 31) / 10)%Z with 0%Z by done. simpl. lia.
  - destruct (Z.max_spec 1000 (w - 200)) as [[? ->]|[? ->]].
    + replace ((w - 801) / 200)%Z with ((w - 200 - 801) / 200 + 1)%Z
        by (Z.div_mod_to_equations; lia).
      rewrite (Z2Nat.inj_add _ 1) by (Z.div_mod_to_equations; lia). simpl. lia.
    + replace ((w - 801) / 200)%Z with 1%Z by (Z.div_mod_to_equations; lia).
      replace ((1000 - 801) / 200)%Z with 0%Z by done. simpl. lia.
Qed.

Lemma budgetLoop_spec fuel target current q w :
  byteLength current < fuel ->
  exists final sizes,
    budgetLoop GIF_WEBP decodeBase64 encodeBase64 sha16 sharp
               fuel target current q w = Some (final, sizes) /\
    last sizes = Some (byteLength final) /\
    shrinking (byteLength current) sizes /\
    length sizes <= S (byteLength current) /\
    length sizes <= S (pendingSteps q w).
Proof.
  revert current q w; induction fuel as [|fuel IH]; intros current q w Hlt; [lia|].
  simpl. destruct (compressInlineOnce_returns current q w) as [r ->].
  destruct (byteLength (r_html r) <=? target) eqn:E1;
    [exists (r_html r), [byteLength (r_html r)]; simpl; repeat split; lia|].
  destruct (orb _ _) eqn:E2;
    [exists (r_html r), [byteLength (r_html r)]; simpl; repeat split; lia|].
  destruct (tighten q w) as [[q' w']|] eqn:E3;
    [|exists (r_html r), [byteLength (r_html r)]; simpl; repeat split; lia].
  apply orb_false_iff in E2 as [E2 _]. apply Nat.leb_gt in E2.
  destruct (IH (r_html r) q' w') as (final & sizes & -> & Hl & Hs & Hn & Hp); [lia|].
  apply tighten_pendingSteps in E3.
  exists final, (byteLength (r_html r) :: sizes).
  destruct sizes as [|x sizes]; [discriminate|].
  repeat split; simpl in *; try done; lia.
Qed.

(** C1 (amended).  The budget loop ends on every document, after no more
    passes than the document has bytes plus one and no more than the
    tightenings left plus one; every pass but the last leaves the document
    strictly smaller than it found it; what is written back is the output of
    the last pass, of which no size is promised. *)
Theorem budget_loop_terminates TARGET beforeBytes original QUALITY MAX_WIDTH :
  exists final sizes,
    compact GIF_WEBP decodeBase64 encodeBase64 sha16 sharp
            TARGET beforeBytes original QUALITY MAX_WIDTH = Some (final, sizes) /\
    last sizes = Some (byteLength final) /\
    shrinking (byteLength original) sizes /\
    length sizes <= S (byteLength original) /\
    length sizes <= S (pendingSteps QUALITY MAX_WIDTH).
Proof. apply budgetLoop_spec. lia. Qed.

End PassProperties.

(** A document where a small PNG is followed by a marker that no semicolon
    follows: the scan reaches index 40 after replacing the PNG, and the
    rest of the document, marker included, is copied. *)
Lemma missing_delimiter_passes_through_witness :
  keepsPlaces Samples.pngThenBareMarker /\
  (exists s,
     reach false Samples.decodeBase64 Samples.encodeBase64 Samples.digest
           Samples.halving Samples.pngThenBareMarker 70 1600 s /\
     idx s = 40 /\
     delimiterMissing Samples.pngThenBareMarker (idx s)) /\
  exists r,
    compressInlineOnce false Samples.decodeBase64 Samples.encodeBase64
      Samples.digest Samples.halving Samples.pngThenBareMarker 70 1600 = Some r /\
    r_html r = str "<img src='data:image/webp;base64,QUFB'><p>data:image/png</p>" /\
    r_replacements r = 1.
Proof.
  assert (exists s,
            iteration false Samples.decodeBase64 Samples.encodeBase64
              Samples.digest Samples.halving Samples.pngThenBareMarker
              (toLowerCaseUnicode Samples.pngThenBareMarker) 70 1600 initial
            = Next s /\
            idx s = 40 /\
            concat (out s) = str "<img src='data:image/webp;base64,QUFB" /\
            replaced s = 1) as (s & Hs & Hidx & Hout & Hrep).
  { eexists. split; [vm_compute; reflexivity|]. repeat split. }
  assert (reach false Samples.decodeBase64 Samples.encodeBase64 Samples.digest
            Samples.halving Samples.pngThenBareMarker 70 1600 s) as Hreach
      by (eapply reach_next; [apply reach_initial|exact Hs]).
  assert (delimiterMissing Samples.pngThenBareMarker 40) as Hmiss.
  { eexists. split; [vm_compute; reflexivity|]. left. vm_compute. reflexivity. }
  assert (keepsPlaces Samples.pngThenBareMarker) as Hkeeps
      by (vm_compute; reflexivity).
  split; [exact Hkeeps|]. split.
  - exists s. split; [exact Hreach|]. split; [exact Hidx|].
    exact (eq_ind_r (delimiterMissing Samples.pngThenBareMarker) Hmiss Hidx).
  - destruct (missing_delimiter_passes_through false Samples.decodeBase64
                Samples.encodeBase64 Samples.digest Samples.halving
                Samples.pngThenBareMarker 70 1600 s Hkeeps Hreach
                (eq_ind_r (delimiterMissing Samples.pngThenBareMarker) Hmiss Hidx))
      as [(r & Hr & Hhtml & Hn & _) _].
    exists r. split; [exact Hr|]. split.
    + exact (eq_trans Hhtml
               (eq_trans (f_equal (fun o => o ++ sliceFrom Samples.pngThenBareMarker (idx s)) Hout)
                  (eq_trans (f_equal (fun i => str "<img src='data:image/webp;base64,QUFB"
                                               ++ sliceFrom Samples.pngThenBareMarker i) Hidx)
                            ltac:(vm_compute; reflexivity)))).
    + exact (eq_trans Hn Hrep).
Defined.

(** C5.  A page with eight dotted capitals in front of a marker whose
    semicolon no [base64] follows, and a PNG behind a comma.  In the
    document the marker stands at index 8 and its semicolon at index 25, and
    [base64] occurs nowhere behind the semicolon: the marker lacks a
    delimiter.  The lowered text is eight units longer and the marker is
    found in it at index 16; read at that index of the document, [se64] is
    taken for the MIME text, the word [base64] that stands before the
    semicolon is found behind it, and what follows the comma is decoded and
    re-encoded: one replacement is counted, the units between index 16 and
    the comma are lost, and the page does not come back as it was. *)
Theorem dotted_capital_shifts_the_scan :
  length (toLowerCaseUnicode Samples.dottedPage) = length Samples.dottedPage + 8 /\
  indexOf (str "data:image") (toLowerCase Samples.dottedPage) 0 = Some 8 /\
  indexOf (str ";") Samples.dottedPage 13 = Some 25 /\
  indexOf (str "base64") (toLowerCase Samples.dottedPage) 26 = None /\
  delimiterMissing Samples.dottedPage 0 /\
  indexOf (str "data:image") (toLowerCaseUnicode Samples.dottedPage) 0 = Some 16 /\
  indexOf (str "base64") (toLowerCaseUnicode Samples.dottedPage) 26 = Some 27 /\
  exists r,
    compressInlineOnce false Samples.decodeBase64 Samples.encodeBase64
      Samples.digest Samples.halving Samples.dottedPage 70 1600 = Some r /\
    r_replacements r = 1 /\
    r_calls r = [ToWebp (Samples.decodeBase64 Samples.pixelPng) 1600 70] /\
    map (fun sp => (sp_start sp, sp_end sp, sp_mime sp, sp_b64raw sp)) (r_spans r)
    = [(16, 124, str "se64", Samples.pixelPng)] /\
    r_html r
    = replicate 8 Samples.dottedI ++ str "data:imadata:image/webp;base64,"
      ++ Samples.encodeBase64 (take 35 (Samples.decodeBase64 Samples.pixelPng))
      ++ str "'" /\
    r_html r <> Samples.dottedPage.
Proof.
  split; [vm_compute; reflexivity|]. split; [vm_compute; reflexivity|].
  split; [vm_compute; reflexivity|]. split; [vm_compute; reflexivity|].
  split.
  { exists 8. split; [vm_compute; reflexivity|]. right. exists 25.
    split; [vm_compute; reflexivity|]. left. vm_compute. reflexivity. }
  split; [vm_compute; reflexivity|]. split; [vm_compute; reflexivity|].
  eexists. split; [vm_compute; reflexivity|].
  repeat split; try (vm_compute; reflexivity).
  vm_compute. discriminate.
Qed.

(** C8.  Two pages on which an SVG does not come back as it was.  On the
    first the marker stands in a running text in front of the image: the
    scan takes the semicolon of the data URL for the end of the MIME text of
    that first marker, reads a MIME text that does not start with
    [image/svg], and has the SVG re-encoded; the text between the first
    marker and the payload is lost.  On the second a dotted capital stands
    in front of an SVG and a GIF: every index found in the lowered text is
    one too large in the document, the MIME texts are read as
    [mage/svg+xml] and [mage/gif], and both images are re-encoded as WebP
    without [--gif-webp]. *)
Theorem svg_behind_marker_is_reencoded :
  slice Samples.bareThenSvg 27 137
  = str "data:image/svg+xml;base64," ++ Samples.pixelSvg /\
  (exists r,
     compressInlineOnce false Samples.decodeBase64 Samples.encodeBase64
       Samples.digest Samples.halving Samples.bareThenSvg 70 1600 = Some r /\
     r_html r
     = str "<p>data:image/webp;base64,"
       ++ Samples.encodeBase64 (take 31 (Samples.decodeBase64 Samples.pixelSvg))
       ++ str "'>" /\
     r_replacements r = 1 /\
     r_calls r = [ToWebp (Samples.decodeBase64 Samples.pixelSvg) 1600 70] /\
     map (fun sp => (sp_start sp, sp_end sp, sp_mime sp)) (r_spans r)
     = [(3, 137, str "image</p><img src='data:image/svg+xml")]) /\
  slice Samples.dottedSvgAndGif 11 121
  = str "data:image/svg+xml;base64," ++ Samples.pixelSvg /\
  slice Samples.dottedSvgAndGif 133 211
  = str "data:image/gif;base64," ++ Samples.pixelGif /\
  (exists r,
     compressInlineOnce false Samples.decodeBase64 Samples.encodeBase64
       Samples.digest Samples.halving Samples.dottedSvgAndGif 70 1600 = Some r /\
     r_html r
     = [Samples.dottedI] ++ str "<img src='ddata:image/webp;base64,"
       ++ Samples.encodeBase64 (take 31 (Samples.decodeBase64 Samples.pixelSvg))
       ++ str "'><img src='ddata:image/webp;base64,"
       ++ Samples.encodeBase64 (take 21 (Samples.decodeBase64 Samples.pixelGif))
       ++ str "'>" /\
     r_replacements r = 2 /\
     r_calls r = [ToWebp (Samples.decodeBase64 Samples.pixelSvg) 1600 70;
                  ToWebp (Samples.decodeBase64 Samples.pixelGif) 1600 70] /\
     map (fun sp => (sp_start sp, sp_end sp, sp_mime sp)) (r_spans r)
     = [(12, 121, str "mage/svg+xml"); (134, 211, str "mage/gif")]).
Proof.
  split; [vm_compute; reflexivity|]. split.
  { eexists. split; [vm_compute; reflexivity|].
    repeat split; vm_compute; reflexivity. }
  split; [vm_compute; reflexivity|]. split; [vm_compute; reflexivity|].
  eexists. split; [vm_compute; reflexivity|].
  repeat split; vm_compute; reflexivity.
Qed.

(** A page with an SVG and a GIF whose lower-casing keeps the places. *)
Lemma format_pass_through_witness :
  keepsPlaces Samples.svgAndGif /\
  exists r,
    compressInlineOnce false Samples.decodeBase64 Samples.encodeBase64
      Samples.digest Samples.halving Samples.svgAndGif 70 1600 = Some r /\
    r_html r = splice Samples.svgAndGif (r_spans r) 0.
Proof.
  assert (keepsPlaces Samples.svgAndGif) as Hkeeps by (vm_compute; reflexivity).
  split; [exact Hkeeps|].
  destruct (format_pass_through false Samples.decodeBase64 Samples.encodeBase64
              Samples.digest Samples.halving Samples.svgAndGif 70 1600 Hkeeps)
    as (r & Hr & _ & Hs & _).
  exists r. split; [exact Hr|exact Hs].
Defined.

(** A pass over a page with an SVG and a GIF written in capitals: the SVG
    span is pushed back as it stood and the GIF stays a GIF. *)
Example svg_and_gif_pass_through :
  exists r,
    compressInlineOnce false Samples.decodeBase64 Samples.encodeBase64
      Samples.digest Samples.halving Samples.svgAndGif 70 1600 = Some r /\
    r_html r
    = str "<i style='background:url(data:image/svg+xml;base64,PHN2Zy8+)'></i>"
      ++ str "<img src='data:image/gif;base64,R0lG'>" /\
    map (fun sp => (sp_start sp, sp_end sp, sp_mime sp)) (r_spans r)
    = [(25, 59, str "image/svg+xml"); (76, 106, str "image/GIF")].
Proof. eexists. split; [vm_compute; reflexivity|]. split; vm_compute; reflexivity. Qed.

(** A page whose two markers have a semicolon but no [base64] after it is
    returned as it was. *)
Example no_base64_page_unchanged :
  exists r,
    compressInlineOnce false Samples.decodeBase64 Samples.encodeBase64
      Samples.digest Samples.halving Samples.noBase64Page 70 1600 = Some r /\
    r_html r = Samples.noBase64Page /\ r_replacements r = 0 /\ r_spans r = [].
Proof.
  eexists. split; [vm_compute; reflexivity|]. repeat split; vm_compute; reflexivity.
Qed.

(** With an encoder that always throws the pass returns the document as it
    was. *)
Example failing_encoder_leaves_document :
  exists r,
    compressInlineOnce false Samples.decodeBase64 Samples.encodeBase64
      Samples.digest Samples.failing Samples.wrappedTwice 70 1600 = Some r /\
    r_html r = Samples.wrappedTwice /\ r_replacements r = 0 /\
    length (r_calls r) = 2.
Proof.
  eexists. split; [vm_compute; reflexivity|]. repeat split; vm_compute; reflexivity.
Qed.

(** The same PNG twice, the second time with a space inside the payload:
    one encoder call, two replacements, the same replacement text. *)
Example spaced_duplicate_encoded_once :
  exists r,
    compressInlineOnce false Samples.decodeBase64 Samples.encodeBase64
      Samples.digest Samples.halving Samples.spacedTwice 70 1600 = Some r /\
    r_calls r = [ToWebp (str "AAABBB") 1600 70] /\
    r_replacements r = 2 /\
    map sp_emitted (r_spans r)
    = [str "data:image/webp;base64,QUFB"; str "data:image/webp;base64,QUFB"].
Proof.
  eexists. split; [vm_compute; reflexivity|]. repeat split; vm_compute; reflexivity.
Qed.


(** C1 (as stated) fails: a page of 42 bytes with one small PNG, a target
    of 10 bytes, and an encoder whose output for so small an image is larger
    than its input.  The only pass replaces the image, the page grows to 59
    bytes, the loop stops on the non-positive delta and the larger page is
    what is written back. *)
Lemma budget_loop_can_grow :
  ~ budgetNeverGrows false Samples.decodeBase64 Samples.encodeBase64
      Samples.digest Samples.wrapping 10 Samples.smallPng 70 1600.
Proof.
  intros H. destruct H as (final & sizes & Hrun & Hmono & Hfinal).
  - vm_compute. lia.
  - eexists. split; [vm_compute; reflexivity|]. simpl. lia.
  - vm_compute in Hrun. injection Hrun as <- <-.
    vm_compute in Hfinal. lia.
Qed.

(** The characters the payload scan takes: the base64 alphabet, the padding
    sign and the space. *)
Lemma isPayloadChar_spec (c : N) :
  isPayloadChar c = true <->
  (65 <= c <= 90 \/ 97 <= c <= 122 \/ 48 <= c <= 57 \/
   c = 43 \/ c = 47 \/ c = 61 \/ c = 32)%N.
Proof.
  unfold isPayloadChar, eqb.
  rewrite !orb_true_iff, !andb_true_iff, !N.leb_le, !bool_decide_eq_true.
  change (str "+") with [43%N]. change (str "/") with [47%N].
  change (str "=") with [61%N]. change (str " ") with [32%N].
  change (str "\n") with [92%N; 110%N]. change (str "\r") with [92%N; 114%N].
  change (str "\t") with [92%N; 116%N].
  split.
  - intros [[[[[[[[[H|H]|H]|H]|H]|H]|H]|H]|H]|H];
      try discriminate H; try injection H as H; lia.
  - intros [H|[H|[H|[H|[H|[H|H]]]]]]; subst; tauto.
Qed.

(** C4.  The payload scan takes a space but stops at a tab, a line feed or a
    carriage return: the three are compared with literals of two code units
    (the escapes are written with a doubled backslash), which no single
    character equals.  On a PNG wrapped over two lines the located payload
    ends at the line break (index 36 of 43) and only its first line is
    decoded. *)
Theorem payload_scan_stops_at_line_break :
  (forall c, isSpace c = true -> isPayloadChar c = true -> c = 32%N) /\
  isPayloadChar 32 = true /\
  isPayloadChar 9 = false /\ isPayloadChar 10 = false /\ isPayloadChar 13 = false /\
  consume (str "QUFB" ++ Samples.LF ++ str "QkJC'>") 0 = 4 /\
  consume (str "QUFB QkJC'>") 0 = 9 /\
  exists r,
    compressInlineOnce false Samples.decodeBase64 Samples.encodeBase64
      Samples.digest Samples.wrapping Samples.wrappedPng 70 1600 = Some r /\
    length Samples.wrappedPng = 43 /\
    map (fun sp => (sp_start sp, sp_end sp, sp_b64raw sp)) (r_spans r)
    = [(10, 36, str "QUFB")] /\
    r_calls r = [ToWebp (str "AAA") 1600 70].
Proof.
  split.
  { intros c Hs Hp. apply isPayloadChar_spec in Hp. unfold isSpace in Hs.
    rewrite !orb_true_iff, !andb_true_iff, !N.leb_le, !N.eqb_eq in Hs. lia. }
  repeat split; try (vm_compute; reflexivity).
  eexists. split; [vm_compute; reflexivity|]. repeat split.
Qed.

(** C9.  A page that holds the same PNG twice, once wrapped over two lines
    and once on one line: the two payload texts decode to the same bytes,
    yet the pass hands the encoder two different inputs (the first line
    alone, then the whole image) and pushes two different replacements.  The
    cause is the line break that ends the first payload early: the payload
    loop does not take it (line 175 of the source). *)
Theorem wrapped_duplicate_encoded_twice :
  Samples.decodeBase64 (str "QUFB" ++ Samples.LF ++ str "QkJC")
  = Samples.decodeBase64 (str "QUFBQkJC") /\
  exists r,
    compressInlineOnce false Samples.decodeBase64 Samples.encodeBase64
      Samples.digest Samples.halving Samples.wrappedTwice 70 1600 = Some r /\
    r_calls r = [ToWebp (str "AAA") 1600 70; ToWebp (str "AAABBB") 1600 70] /\
    map sp_emitted (r_spans r)
    = [str "data:image/webp;base64,QQ=="; str "data:image/webp;base64,QUFB"].
Proof.
  split; [vm_compute; reflexivity|].
  eexists. split; [vm_compute; reflexivity|]. split; vm_compute; reflexivity.
Qed.

(** ** The collision resolver *)

Lemma str_inj (a b : string) : str a = str b -> a = b.
Proof.
  revert b; induction a as [|x a IH]; intros [|y b]; simpl; try done.
  intros [= Hxy Hab]. f_equal; [|by apply IH].
  rewrite <- (ascii_N_embedding x), <- (ascii_N_embedding y). by rewrite Hxy.
Qed.

Lemma ofNat_inj (n m : nat) : ofNat n = ofNat m -> n = m.
Proof. unfold ofNat. intros H. apply str_inj in H. by apply (inj pretty). Qed.

(** A numeral is made of digits. *)
Lemma pretty_N_char_digit (d : N) : isDigit (N_of_ascii (pretty_N_char d)) = true.
Proof. unfold pretty_N_char. by repeat case_match. Qed.

Lemma pretty_N_go_digits (x : N) :
  forall s, Forall (fun c => isDigit c = true) (str s) ->
            Forall (fun c => isDigit c = true) (str (pretty_N_go x s)).
Proof.
  induction (N.lt_wf_0 x) as [x _ IH]; intros s Hs.
  assert (x = 0 \/ 0 < x)%N as [->|Hx] by lia; [by rewrite pretty_N_go_0|].
  rewrite pretty_N_go_step by done. apply IH; [by apply N.div_lt|].
  cbn [str]. constructor; [apply pretty_N_char_digit|done].
Qed.

Lemma ofNat_digits (n : nat) : Forall (fun c => isDigit c = true) (ofNat n).
Proof.
  unfold ofNat, pretty, pretty_nat, pretty, pretty_N.
  case_decide; [by repeat constructor|]. by apply pretty_N_go_digits.
Qed.

Lemma startsWith_refl (s : jsstring) : startsWith s s = true.
Proof. induction s as [|c s IH]; simpl; [done|]. by rewrite N.eqb_refl. Qed.

Lemma findLast_short (needle s : jsstring) (pos : nat) :
  length s < length needle -> findLast needle s pos = None.
Proof.
  revert pos; induction s as [|c s IH]; intros pos Hlen; simpl.
  - destruct needle; [simpl in Hlen; lia|done].
  - rewrite IH by (simpl in Hlen; lia).
    destruct (startsWith needle (c :: s)) eqn:E; [|done].
    apply startsWith_length in E. lia.
Qed.

Lemma findLast_suffix (m pre : jsstring) (pos : nat) :
  m <> [] -> findLast m (pre ++ m) pos = Some (pos + length pre).
Proof.
  intros Hm. revert pos; induction pre as [|x pre IH]; intros pos; simpl.
  - destruct m as [|c r]; [done|]. simpl.
    rewrite findLast_short by (simpl; lia).
    rewrite N.eqb_refl, startsWith_refl. f_equal. lia.
  - rewrite IH. f_equal. lia.
Qed.

Lemma matchHtmlExt_suffix (s : jsstring) (p q : nat) (m : jsstring) :
  matchHtmlExt s p = Some (q, m) ->
  exists pre, s = pre ++ m /\ isHtmlExt m = true.
Proof.
  revert p; induction s as [|c s IH]; intros p; cbn [matchHtmlExt].
  - destruct (isHtmlExt []) eqn:E; [|done]. intros [= <- <-]. by exists [].
  - destruct (isHtmlExt (c :: s)) eqn:E.
    + intros [= <- <-]. by exists [].
    + intros H. destruct (IH _ H) as (pre & -> & Hm). by exists (c :: pre).
Qed.

(** The two parts [splitNameExt] returns make up the name again. *)
Lemma splitNameExt_app (base : jsstring) :
  (splitNameExt base).1 ++ (splitNameExt base).2 = base.
Proof.
  unfold splitNameExt.
  destruct (matchHtmlExt base 0) as [[q m]|] eqn:E.
  - destruct (matchHtmlExt_suffix _ _ _ _ E) as (pre & -> & Hm).
    unfold lastIndexOf. rewrite findLast_suffix by (by destruct m).
    simpl. unfold slice. rewrite Nat.sub_0_r, drop_0. by rewrite take_app_length.
  - destruct (lastIndexOf (str ".") base) as [li|]; simpl.
    + unfold slice, sliceFrom. rewrite Nat.sub_0_r, drop_0. apply take_drop.
    + apply app_nil_r.
Qed.

Lemma numbered_eq (d : jsstring) (n : nat) :
  numbered d n = (splitNameExt d).1 ++ str "-" ++ ofNat n ++ (splitNameExt d).2.
Proof. unfold numbered. by destruct (splitNameExt d). Qed.

Lemma numbered_inj (d : jsstring) (n m : nat) :
  numbered d n = numbered d m -> n = m.
Proof.
  rewrite !numbered_eq. intros H. apply app_inv_head in H.
  injection H as H. apply app_inv_tail in H. by apply ofNat_inj.
Qed.

Lemma numbered_longer (d : jsstring) (n : nat) : length d < length (numbered d n).
Proof.
  rewrite numbered_eq. rewrite <- (splitNameExt_app d) at 1.
  rewrite !length_app. simpl. lia.
Qed.

Lemma candidate_inj (d : jsstring) (i j : nat) :
  candidate d i = candidate d j -> i = j.
Proof.
  destruct i as [|i], j as [|j]; simpl; intros H; try done.
  - pose proof (numbered_longer d (S (S j))) as L. rewrite <- H in L. lia.
  - pose proof (numbered_longer d (S (S i))) as L. rewrite H in L. lia.
  - apply numbered_inj in H. lia.
Qed.

(** *** Plain names *)

Lemma forallb_plain (n : jsstring) :
  forallb (fun c => negb (c =? 47)%N && negb (c =? 0)%N) n = true <->
  Forall (fun c => c <> 47%N /\ c <> 0%N) n.
Proof.
  induction n as [|c n IH]; simpl; [by split; [constructor|]|].
  rewrite andb_true_iff, IH, andb_true_iff, !negb_true_iff, !N.eqb_neq.
  split; [intros [? ?]; by constructor|intros H; by inversion H].
Qed.

Lemma isPlainName_spec (n : jsstring) :
  isPlainName n = true <->
  n <> [] /\ n <> str "." /\ n <> str ".." /\
  Forall (fun c => c <> 47%N /\ c <> 0%N) n.
Proof.
  unfold isPlainName, eqb.
  rewrite !andb_true_iff, !negb_true_iff, !bool_decide_eq_false, forallb_plain.
  tauto.
Qed.

(** A name with a unit that is not a dot is not empty, [.] or [..]. *)
Lemma not_dots (n : jsstring) (x : N) :
  x ∈ n -> x <> 46%N -> n <> [] /\ n <> str "." /\ n <> str "..".
Proof.
  intros Hx Hne. split; [|split]; intros ->.
  - by apply not_elem_of_nil in Hx.
  - change (str ".") with [46%N] in Hx. by apply list_elem_of_singleton in Hx.
  - change (str "..") with [46%N; 46%N] in Hx.
    apply elem_of_cons in Hx as [?|Hx]; [done|].
    by apply list_elem_of_singleton in Hx.
Qed.

(** The numbered names of a plain name are plain. *)
Lemma candidate_plain (d : jsstring) (j : nat) :
  isPlainName d = true -> isPlainName (candidate d j) = true.
Proof.
  destruct j as [|j]; [done|]. cbn [candidate].
  rewrite !isPlainName_spec. intros (_ & _ & _ & Hd).
  rewrite numbered_eq. rewrite <- (splitNameExt_app d) in Hd.
  apply Forall_app in Hd as [Hname Hext].
  change (str "-") with [45%N].
  assert (45%N ∈ (splitNameExt d).1 ++ [45%N] ++ ofNat (S (S j)) ++ (splitNameExt d).2)
    as Hin by (apply elem_of_app; right; by left).
  destruct (not_dots _ _ Hin ltac:(done)) as (H1 & H2 & H3).
  split; [done|]. split; [done|]. split; [done|].
  apply Forall_app. split; [done|]. apply Forall_app. split; [by constructor|].
  apply Forall_app. split; [|done].
  eapply Forall_impl; [apply ofNat_digits|]. intros c Hc. unfold isDigit in Hc.
  apply andb_true_iff in Hc as [Hc _]. apply N.leb_le in Hc. lia.
Qed.

(** A directory stays one when the resolver is given a plain name, and the
    name it returns is plain. *)
Lemma settle_directory (fs fs' : FS) (old c name : jsstring) (flags : Flags) :
  directory fs -> isPlainName c = true ->
  settle fs old flags c = Ret (fs', name) ->
  directory fs' /\ name = c.
Proof.
  intros Hdir Hc. unfold settle, rename.
  destruct (eqb c old); [by intros [= <- <-]|].
  destruct (apply flags); [|by intros [= <- <-]].
  destruct (fs !! old) as [content|]; [|done].
  intros [= <- <-]. split; [|done].
  apply map_Forall_insert_2; [done|]. by apply map_Forall_delete.
Qed.

(** A directory cannot hold more candidates than it has entries. *)
Lemma candidates_taken_bound (fs : FS) (d : jsstring) (j : nat) :
  (forall i, i < j -> existsFile fs (candidate d i) = true) -> j <= size fs.
Proof.
  intros Htaken.
  assert (NoDup (candidate d <$> seq 0 j)) as Hnd.
  { apply NoDup_fmap_2_strong; [|apply NoDup_seq].
    intros x y _ _. apply candidate_inj. }
  rewrite <- (size_dom fs).
  assert (length (candidate d <$> seq 0 j) = j) as Hlen
      by (rewrite length_fmap; apply length_seq).
  rewrite <- Hlen at 1.
  rewrite <- (size_list_to_set (C := gset jsstring)) by done.
  apply subseteq_size. intros x Hx.
  apply elem_of_list_to_set, list_elem_of_fmap in Hx as (i & -> & Hi).
  apply elem_of_seq in Hi. apply elem_of_dom.
  specialize (Htaken i ltac:(lia)). unfold existsFile in Htaken.
  by apply bool_decide_eq_true in Htaken.
Qed.

Lemma dedupeLoop_spec (fs : FS) (old d : jsstring) (flags : Flags) :
  forall fuel j,
    (forall i, i < j -> existsFile fs (candidate d i) = true /\ candidate d i <> old) ->
    size fs < fuel + j ->
    exists j1,
      (forall i, i < j1 ->
                 existsFile fs (candidate d i) = true /\ candidate d i <> old) /\
      (candidate d j1 = old \/ existsFile fs (candidate d j1) = false) /\
      dedupeLoop fuel fs old d flags (candidate d j) (S (S j))
      = settle fs old flags (candidate d j1).
Proof.
  induction fuel as [|fuel IH]; intros j Hprev Hfuel.
  - pose proof (candidates_taken_bound fs d j (fun i Hi => proj1 (Hprev i Hi))). lia.
  - simpl.
    destruct (eqb (candidate d j) old) eqn:E1.
    + exists j. unfold settle. rewrite E1. split; [done|]. split; [|done].
      left. by apply bool_decide_eq_true in E1.
    + destruct (existsFile fs (candidate d j)) eqn:E2; simpl.
      * apply bool_decide_eq_false in E1.
        destruct (IH (S j)) as (j1 & H1 & H2 & H3); [|lia|].
        { intros i Hi. destruct (decide (i = j)) as [->|]; [done|].
          apply Hprev. lia. }
        exists j1. by rewrite <- H3.
      * exists j. unfold settle. rewrite E1. split; [done|]. split; [|done].
        by right.
Qed.

Lemma dedupe_directory (fs fs' : FS) (old d name : jsstring) (flags : Flags) :
  directory fs -> isPlainName d = true ->
  dedupeAndMaybeRename fs old d flags = Ret (fs', name) ->
  directory fs' /\ isPlainName name = true.
Proof.
  intros Hdir Hd.
  destruct (dedupeLoop_spec fs old d flags (S (size fs)) 0) as (j & _ & _ & H);
    [lia..|].
  change (candidate d 0) with d in H. unfold dedupeAndMaybeRename. rewrite H.
  pose proof (candidate_plain d j Hd) as Hc. intros Hrun.
  apply settle_directory in Hrun as [? ->]; done.
Qed.


(** The extension found first is the compound one, and the number goes in
    front of it. *)
Example numbered_compound_extension :
  numbered (str "page.u.zip.html") 2 = str "page-2.u.zip.html" /\
  numbered (str "page.zip.html") 3 = str "page-3.zip.html" /\
  numbered (str "page-1.html") 2 = str "page-1-2.html".
Proof. repeat split; vm_compute; reflexivity. Qed.

(** The example of the specification: [page-1.html] exists, another file
    wants that name and is renamed to [page-1-2.html]; the first keeps its
    content. *)
Example collision_gets_suffix :
  dedupeAndMaybeRename
    {[ str "page-1.html" := str "first"; str "other.html" := str "second" ]}
    (str "other.html") (str "page-1.html") Samples.applyFlags
  = Ret ({[ str "page-1.html" := str "first"; str "page-1-2.html" := str "second" ]},
         str "page-1-2.html").
Proof. vm_compute. reflexivity. Qed.



(** ** Dry run and apply *)

Lemma dedupeLoop_dry (fs : FS) (old d : jsstring) (q pc : bool) :
  forall fuel c n,
    match dedupeLoop fuel fs old d (MkFlags false q pc) c n with
    | Ret (fs', name) =>
        fs' = fs /\
        forall content, fs !! old = Some content ->
          exists fs'', dedupeLoop fuel fs old d (MkFlags true q pc) c n
                       = Ret (fs'', name)
    | Raise => False
    | Fuel => True
    end.
Proof.
  induction fuel as [|fuel IH]; intros c n; simpl; [done|].
  destruct (eqb c old); [by eauto|].
  destruct (existsFile fs c); simpl; [apply IH|].
  split; [done|]. intros content Hc. unfold rename. rewrite Hc. by eexists.
Qed.

Lemma dedupe_never_out_of_fuel (fs : FS) (old d : jsstring) (flags : Flags) :
  dedupeAndMaybeRename fs old d flags <> Fuel.
Proof.
  destruct (dedupeLoop_spec fs old d flags (S (size fs)) 0) as (j & _ & _ & H);
    [lia..|].
  change (candidate d 0) with d in H. unfold dedupeAndMaybeRename. rewrite H.
  unfold settle, rename. destruct (eqb _ _); [done|].
  destruct (apply flags); [|done]. by destruct (fs !! old).
Qed.

Lemma dedupe_dry_run (fs : FS) (old d : jsstring) (q pc : bool) :
  exists name,
    dedupeAndMaybeRename fs old d (MkFlags false q pc) = Ret (fs, name) /\
    forall content, fs !! old = Some content ->
      exists fs', dedupeAndMaybeRename fs old d (MkFlags true q pc) = Ret (fs', name).
Proof.
  pose proof (dedupeLoop_dry fs old d q pc (S (size fs)) d 2) as H.
  pose proof (dedupe_never_out_of_fuel fs old d (MkFlags false q pc)) as Hf.
  unfold dedupeAndMaybeRename in *.
  destruct (dedupeLoop _ _ _ _ (MkFlags false q pc) _ _) as [[fs' name]| |];
    [|done..].
  destruct H as [-> H]. by exists name.
Qed.

Section OrchestratorProperties.

Variable findCanonical findOgUrl findTwitterUrl findSavedFromUrl
  : jsstring -> option jsstring.
Variable absolutizeAndValidateUrl : jsstring -> option jsstring.
Variable parseURL : jsstring -> option URL.

#[local] Abbreviation maybeFixFile :=
  (Canonicalizer.maybeFixFile findCanonical findOgUrl findTwitterUrl
     findSavedFromUrl absolutizeAndValidateUrl parseURL).
#[local] Abbreviation processFiles :=
  (Canonicalizer.processFiles findCanonical findOgUrl findTwitterUrl
     findSavedFromUrl absolutizeAndValidateUrl parseURL).
#[local] Abbreviation processDir :=
  (Canonicalizer.processDir findCanonical findOgUrl findTwitterUrl
     findSavedFromUrl absolutizeAndValidateUrl parseURL).

Lemma maybeFixFile_dry (nowIso : jsstring) (q pc : bool) (fs : FS) (file : jsstring) :
  maybeFixFile nowIso (MkFlags false q pc) fs file = Raise \/
  exists r, maybeFixFile nowIso (MkFlags false q pc) fs file = Ret (fs, r).
Proof.
  unfold Canonicalizer.maybeFixFile.
  destruct (fs !! file) as [html|]; [|by left].
  destruct (desiredName _ _ _ _ _ _ _ _ _ _) as [[desired|]| |] eqn:E.
  - destruct (dedupe_dry_run fs file desired q pc) as (name & -> & _).
    right. by eexists.
  - right. by eexists.
  - by left.
  - exfalso. unfold desiredName, composeName, flattenUrl in E.
    destruct (extractBestUrl _ _ _ _ _ _ _) as [u|].
    + destruct (parseURL u); [|done]. by destruct (eqb _ _).
    + by destruct (eqb _ _).
Qed.

Lemma processFiles_dry (clock : nat -> jsstring) (q pc : bool) (files : list jsstring) :
  forall i fs log,
    exists log', processFiles clock (MkFlags false q pc) i files fs log
                 = Some (fs, log').
Proof.
  induction files as [|file files IH]; intros i fs log; simpl; [by eexists|].
  destruct (matchHtmlExt file 0); [|apply IH].
  destruct (maybeFixFile_dry (clock i) q pc fs file) as [->|[r ->]]; [apply IH|].
  destruct r; apply IH.
Qed.

(** A run never stops for lack of fuel: [processDir] is total. *)
Lemma processFiles_returns (clock : nat -> jsstring) (flags : Flags)
    (files : list jsstring) :
  forall i fs log, exists r, processFiles clock flags i files fs log = Some r.
Proof.
  induction files as [|file files IH]; intros i fs log; simpl; [by eexists|].
  destruct (matchHtmlExt file 0); [|apply IH].
  destruct (maybeFixFile (clock i) flags fs file) as [[fs' [r|]]| |] eqn:E;
    try apply IH.
  exfalso. unfold Canonicalizer.maybeFixFile in E.
  destruct (fs !! file) as [html|]; [|done].
  destruct (desiredName _ _ _ _ _ _ _ _ _ _) as [[desired|]| |] eqn:Ed; try done.
  - pose proof (dedupe_never_out_of_fuel fs file desired flags) as Hf.
    by destruct (dedupeAndMaybeRename fs file desired flags) as [[? ?]| |].
  - unfold desiredName, composeName, flattenUrl in Ed.
    destruct (extractBestUrl _ _ _ _ _ _ _) as [u|].
    + destruct (parseURL u); [|done]. by destruct (eqb _ _).
    + by destruct (eqb _ _).
Qed.


End OrchestratorProperties.


(** ** Names composed from a URL *)

Lemma collapseUnderscores_head (s : jsstring) :
  head (collapseUnderscores s) = head s.
Proof.
  induction s as [|c s IH]; [done|]. cbn [collapseUnderscores].
  destruct (isUnit 95 c) eqn:E; [|done].
  destruct s as [|d s]; [done|].
  destruct (isUnit 95 d) eqn:E'; [|done].
  rewrite IH. simpl. unfold isUnit in *.
  apply N.eqb_eq in E, E'. congruence.
Qed.

Lemma noDoubleUnderscore_cons (c : N) (s : jsstring) :
  noDoubleUnderscore s ->
  (c = 95%N -> head s <> Some 95%N) ->
  noDoubleUnderscore (c :: s).
Proof.
  intros Hs Hc. destruct s as [|d s]; [done|]. simpl. split; [|done].
  intros [-> ->]. by apply Hc.
Qed.

Lemma collapseUnderscores_noDouble (s : jsstring) :
  noDoubleUnderscore (collapseUnderscores s).
Proof.
  induction s as [|c s IH]; [done|]. cbn [collapseUnderscores].
  destruct (isUnit 95 c) eqn:E.
  - destruct s as [|d s]; [done|].
    destruct (isUnit 95 d) eqn:E'; [done|].
    apply noDoubleUnderscore_cons; [done|]. intros _.
    rewrite collapseUnderscores_head. simpl. intros [= ->]. done.
  - apply noDoubleUnderscore_cons; [done|]. intros ->. done.
Qed.

Lemma noDoubleUnderscore_tail (c : N) (s : jsstring) :
  noDoubleUnderscore (c :: s) -> noDoubleUnderscore s.
Proof. destruct s; [done|]. by intros [_ ?]. Qed.

Lemma dropUnderscores_noDouble (s : jsstring) :
  noDoubleUnderscore s -> noDoubleUnderscore (dropUnderscores s).
Proof.
  induction s as [|c s IH]; [done|]. intros H. cbn [dropUnderscores].
  destruct (isUnit 95 c); [|done]. by eapply IH, noDoubleUnderscore_tail.
Qed.

Lemma dropUnderscores_head (s : jsstring) : head (dropUnderscores s) <> Some 95%N.
Proof.
  induction s as [|c s IH]; [done|]. cbn [dropUnderscores].
  destruct (isUnit 95 c) eqn:E; [done|]. simpl. intros [= ->]. done.
Qed.

Lemma trimBeforeExt_head (s : jsstring) : head (trimBeforeExt s) = head s.
Proof. destruct s as [|c s]; [done|]. cbn [trimBeforeExt]. by destruct (_ && _). Qed.

Lemma trimBeforeExt_noDouble (s : jsstring) :
  noDoubleUnderscore s -> noDoubleUnderscore (trimBeforeExt s).
Proof.
  induction s as [|c s IH]; [done|]. intros H. cbn [trimBeforeExt].
  pose proof (noDoubleUnderscore_tail _ _ H) as Hs.
  destruct (_ && _).
  - apply noDoubleUnderscore_cons; [by apply dropUnderscores_noDouble|].
    intros _. apply dropUnderscores_head.
  - apply noDoubleUnderscore_cons; [by apply IH|]. intros ->.
    rewrite trimBeforeExt_head. destruct s as [|d s]; [done|].
    simpl in *. intros [= ->]. by destruct H as [[] _].
Qed.

Lemma double_underscore_inside (a b : jsstring) :
  ~ noDoubleUnderscore (a ++ 95%N :: 95%N :: b).
Proof.
  induction a as [|c a IH]; [by intros [[] _]|].
  intros H. by apply IH, (noDoubleUnderscore_tail c).
Qed.

(** C3.  No name that leaves [sanitizeFilename] has two underscores side by
    side, so none has the two underscores of the grammar after the scheme:
    [flattenUrl] writes them, and the collapse of repeated underscores takes
    one away.  For https://a.com/x the flattened base is [https__a.com_x]
    and the composed name starts with [https_a.com_x]. *)
Theorem sanitized_name_has_single_underscores :
  (forall name, noDoubleUnderscore (sanitizeFilename name)) /\
  flattenParsed (MkURL (str "https:") (str "a.com") (str "/x")) = str "https__a.com_x" /\
  composeName Samples.parseURL (str "2025-09-07T14:50:55.735Z") (str "page.html")
              (str "https://a.com/x")
  = Ret (str "https_a.com_x-2025-09-07T14_50_55_735Z.html") /\
  ~ noDoubleUnderscore (str "https__a.com_x-2025-09-07T14_50_55_735Z.html").
Proof.
  split; [|split; [|split]].
  - intros name. unfold sanitizeFilename.
    apply trimBeforeExt_noDouble, dropUnderscores_noDouble,
      collapseUnderscores_noDouble.
  - vm_compute. reflexivity.
  - vm_compute. reflexivity.
  - apply (double_underscore_inside (str "https")
             (str "a.com_x-2025-09-07T14_50_55_735Z.html")).
Qed.

(** *** The timestamp pattern and compound extensions *)

Lemma matchClasses_app (cs : list (N -> bool)) (s m r : jsstring) :
  matchClasses cs s = Some (m, r) -> s = m ++ r.
Proof.
  revert s m r; induction cs as [|f cs IH]; intros s m r; simpl.
  - by intros [= <- <-].
  - destruct s as [|c s]; [done|]. destruct (f c); [|done].
    destruct (matchClasses cs s) as [[m' r']|] eqn:E; [|done].
    intros [= <- <-]. simpl. f_equal. by apply IH.
Qed.

(** What [matchZulu] accepts: a [Z], then nothing, or a dot and a non-empty
    rest without dots. *)
Lemma matchZulu_shape (z : jsstring) :
  matchZulu z = true ->
  exists rest, z = 90%N :: rest /\
    (rest = [] \/ exists e, rest = 46%N :: e /\ e <> [] /\ Forall (fun c => c <> 46%N) e).
Proof.
  destruct z as [|c rest]; [done|]. simpl. unfold isUnit.
  intros [Hc Hrest]%andb_true_iff. apply N.eqb_eq in Hc as ->.
  exists rest. split; [done|].
  destruct rest as [|d e]; [by left|right].
  apply andb_true_iff in Hrest as [[Hd He]%andb_true_iff Hall].
  apply N.eqb_eq in Hd as ->. exists e. split; [done|]. split.
  - intros ->. by vm_compute in He.
  - apply Forall_forall. intros x Hx%list_elem_of_In.
    rewrite forallb_forall in Hall. specialize (Hall x Hx).
    apply negb_true_iff, N.eqb_neq in Hall. done.
Qed.

(** A match of the timestamp pattern ends in a part [matchZulu] accepts. *)
Lemma matchDatetimeAt_shape (s g : jsstring) :
  matchDatetimeAt s = Some g -> exists a z, s = a ++ z /\ matchZulu z = true.
Proof.
  unfold matchDatetimeAt. destruct s as [|c s1]; [done|].
  destruct (isUnit 45 c); [|done].
  destruct (matchClasses dateTimeClasses s1) as [[m1 r1]|] eqn:E1; [|done].
  apply matchClasses_app in E1 as ->.
  destruct (matchClasses millisClasses r1) as [[m2 r2]|] eqn:E2.
  - apply matchClasses_app in E2 as ->.
    destruct (matchZulu r2) eqn:Z2.
    + intros _. exists (c :: m1 ++ m2), r2. simpl. by rewrite <- app_assoc.
    + destruct (matchZulu (m2 ++ r2)) eqn:Z1; [|done].
      intros _. by exists (c :: m1), (m2 ++ r2).
  - destruct (matchZulu r1) eqn:Z1; [|done]. intros _. by exists (c :: m1), r1.
Qed.

Lemma matchDatetime_shape (s g : jsstring) :
  matchDatetime s = Some g -> exists a z, s = a ++ z /\ matchZulu z = true.
Proof.
  induction s as [|c s IH]; cbn [matchDatetime].
  - destruct (matchDatetimeAt []) eqn:E; [|done]. intros _.
    by eapply matchDatetimeAt_shape.
  - destruct (matchDatetimeAt (c :: s)) eqn:E.
    + intros _. by eapply matchDatetimeAt_shape.
    + intros H. destruct (IH H) as (a & z & -> & Hz). by exists (c :: a), z.
Qed.

(** The text before the first dot, and what follows the dot, are determined
    by the whole. *)
Lemma first_dot_unique (l1 l2 t1 t2 : jsstring) :
  Forall (fun c => c <> 46%N) l1 -> Forall (fun c => c <> 46%N) l2 ->
  l1 ++ 46%N :: t1 = l2 ++ 46%N :: t2 -> t1 = t2.
Proof.
  revert l2; induction l1 as [|x l1 IH]; intros [|y l2] H1 H2; simpl.
  - by intros [= ->].
  - intros [= <- _]. by inversion H2.
  - intros [= -> _]. by inversion H1.
  - intros [= _ H]. inversion H1; inversion H2; subst. by eapply IH.
Qed.

(** No name that ends in [p.html], as the names with the extensions
    [.zip.html] and [.u.zip.html] do, matches the timestamp pattern. *)
Lemma matchDatetime_compound (pre : jsstring) :
  matchDatetime (pre ++ str "p.html") = None.
Proof.
  destruct (matchDatetime (pre ++ str "p.html")) as [g|] eqn:E; [exfalso|done].
  apply matchDatetime_shape in E as (a & z & Hs & Hz).
  apply matchZulu_shape in Hz as (rest & -> & [->|(e & -> & He & Hall)]).
  - apply (f_equal last) in Hs. rewrite last_app in Hs.
    change (last (str "p.html")) with (Some 108%N) in Hs.
    rewrite last_snoc in Hs. by injection Hs.
  - apply (f_equal (@rev N)) in Hs. rewrite !rev_app_distr in Hs.
    change (rev (str "p.html")) with (str "lmth" ++ 46%N :: [112%N]) in Hs.
    cbn [rev] in Hs. rewrite <- !app_assoc in Hs. cbn [app] in Hs.
    apply (first_dot_unique (str "lmth") (rev e)) in Hs.
    + by injection Hs.
    + by repeat constructor.
    + apply Forall_forall. intros x Hx%list_elem_of_In%in_rev%list_elem_of_In.
      rewrite Forall_forall in Hall. by apply Hall.
Qed.

(** C2.  A snapshot with the compound extension [.zip.html]: the first apply
    run gives it its canonical name; the timestamp pattern does not match
    that name (it allows one extension segment after the [Z]), so the second
    run takes the time from the clock and renames the file again.  With the
    plain [.html] extension the second run renames nothing.  For every name
    that ends in [.zip.html] or [.u.zip.html] the suffix comes from the
    clock. *)
Theorem compound_extension_renamed_again :
  (forall pre nowIso,
     extractOrMakeDatetimeSuffix nowIso (pre ++ str ".zip.html")
     = toDatetimeIsoForName nowIso /\
     extractOrMakeDatetimeSuffix nowIso (pre ++ str ".u.zip.html")
     = toDatetimeIsoForName nowIso) /\
  processDir Samples.findCanonical Samples.findNothing Samples.findNothing
    Samples.findNothing Samples.absolutizeAndValidateUrl Samples.parseURL
    Samples.firstClock Samples.applyFlags [str "page.zip.html"] Samples.zipDir
  = Some ({[ Samples.zipFirst := Samples.linkedPage ]},
          [Report (str "page.zip.html") Samples.zipFirst true]) /\
  matchDatetime Samples.zipFirst = None /\
  processDir Samples.findCanonical Samples.findNothing Samples.findNothing
    Samples.findNothing Samples.absolutizeAndValidateUrl Samples.parseURL
    Samples.secondClock Samples.applyFlags [Samples.zipFirst]
    {[ Samples.zipFirst := Samples.linkedPage ]}
  = Some ({[ Samples.zipSecond := Samples.linkedPage ]},
          [Report Samples.zipFirst Samples.zipSecond true]) /\
  processDir Samples.findCanonical Samples.findNothing Samples.findNothing
    Samples.findNothing Samples.absolutizeAndValidateUrl Samples.parseURL
    Samples.firstClock Samples.applyFlags [str "page.html"] Samples.htmlDir
  = Some ({[ Samples.htmlFirst := Samples.linkedPage ]},
          [Report (str "page.html") Samples.htmlFirst true]) /\
  matchDatetime Samples.htmlFirst = Some (str "2025-09-07T14_50_55_735Z") /\
  processDir Samples.findCanonical Samples.findNothing Samples.findNothing
    Samples.findNothing Samples.absolutizeAndValidateUrl Samples.parseURL
    Samples.secondClock Samples.applyFlags [Samples.htmlFirst]
    {[ Samples.htmlFirst := Samples.linkedPage ]}
  = Some ({[ Samples.htmlFirst := Samples.linkedPage ]}, []).
Proof.
  split.
  - intros pre nowIso. unfold extractOrMakeDatetimeSuffix.
    change (str ".zip.html") with (str ".zi" ++ str "p.html").
    change (str ".u.zip.html") with (str ".u.zi" ++ str "p.html").
    by rewrite !app_assoc, !matchDatetime_compound.
  - repeat split; vm_compute; reflexivity.
Qed.

(** ** What a pass leaves alone *)

(** A document whose located payloads all got their own text back is
    spliced into itself. *)
Lemma splice_original (html : jsstring) (sps : list span) (i j : nat) :
  chain sps i j ->
  Forall (fun sp => sp_emitted sp = slice html (sp_start sp) (sp_end sp)) sps ->
  splice html sps i = sliceFrom html i.
Proof.
  revert i; induction sps as [|sp sps IH]; intros i; simpl; [done|].
  intros (H1 & H2 & H3) Hall. inversion Hall as [|? ? Hsp Hrest]; subst.
  rewrite Hsp, IH by done.
  rewrite slice_sliceFrom by done. by apply slice_sliceFrom.
Qed.

Lemma rasterSpans_snoc (sps : list span) (sp : span) :
  length (rasterSpans (sps ++ [sp]))
  = length (rasterSpans sps)
    + (if startsWith (str "image/svg") (toLowerCase (sp_mime sp)) then 0 else 1).
Proof.
  unfold rasterSpans. rewrite filter_app, length_app. f_equal.
  rewrite filter_cons, filter_nil.
  destruct (decide _) as [E|E]; [by rewrite E|].
  by destruct (startsWith _ _).
Qed.

Section PassFrame.

Variable GIF_WEBP : bool.
Variable decodeBase64 : jsstring -> Buffer.
Variable encodeBase64 : Buffer -> jsstring.
Variable sha16 : Buffer -> jsstring.
Variable sharp : job -> option Buffer.

#[local] Abbreviation iteration :=
  (Compactor.iteration GIF_WEBP decodeBase64 encodeBase64 sha16 sharp).
#[local] Abbreviation loop :=
  (Compactor.loop GIF_WEBP decodeBase64 encodeBase64 sha16 sharp).
#[local] Abbreviation recompress :=
  (Compactor.recompress GIF_WEBP decodeBase64 encodeBase64 sha16 sharp).
#[local] Abbreviation compressInlineOnce :=
  (Compactor.compressInlineOnce GIF_WEBP decodeBase64 encodeBase64 sha16 sharp).

Lemma frameInvariant_iteration html lower q w s :
  frameInvariant html s ->
  match iteration html lower q w s with
  | Next s' | Break s' => frameInvariant html s'
  end.
Proof.
  intros (Hr & Hc & Ho).
  pose proof (iteration_cases GIF_WEBP decodeBase64 encodeBase64 sha16 sharp
                html lower q w s) as C.
  inversion C as [| | | |start semi b comma emitted c n l H1 H2 H3 H4 k mime b64raw Hrc];
    subst; try done.
  pose proof (recompress_cases GIF_WEBP decodeBase64 encodeBase64 sha16 sharp
                html q w start k mime b64raw s) as R.
  cbv zeta in R. rewrite Hrc in R.
  unfold frameInvariant. fields. rewrite rasterSpans_snoc. fields.
  destruct R as [[Hsvg [= -> -> -> ->]]|[Hsvg R]]; rewrite Hsvg.
  - split; [lia|]. split; [lia|]. intros H0. apply Forall_app. split; [by apply Ho|].
    by apply Forall_singleton.
  - destruct R as [(v & _ & [= -> -> -> ->])|(_ & j & _ & [(buf & _ & [= -> -> -> ->])|[_ [= -> -> -> ->]]])];
      rewrite ?length_app; simpl; (split; [lia|]); (split; [lia|]); try (intros; lia).
    intros H0. apply Forall_app. split; [by apply Ho|]. by apply Forall_singleton.
Qed.

Lemma frameInvariant_loop html lower q w fuel s sf :
  frameInvariant html s ->
  loop fuel html lower q w s = Some sf ->
  frameInvariant html sf.
Proof.
  revert s; induction fuel as [|fuel IH]; intros s Hs Hrun; [discriminate|].
  simpl in Hrun. pose proof (frameInvariant_iteration html lower q w s Hs) as Hi.
  destruct (iteration html lower q w s) as [s'|s'].
  - by eapply IH.
  - by injection Hrun as <-.
Qed.

(** The state a pass ends in, and its output when nothing was replaced. *)
Lemma pass_frame html lower q w fuel sf :
  loop fuel html lower q w initial = Some sf ->
  frameInvariant html sf /\
  scanInvariant GIF_WEBP html lower sf /\
  (replaced sf = 0 -> concat (out sf ++ [sliceFrom html (idx sf)]) = html).
Proof.
  intros Hrun.
  assert (frameInvariant html initial) as Hinit by (by repeat split).
  pose proof (frameInvariant_loop html _ q w _ _ _ Hinit Hrun) as Hf.
  apply scanInvariant_loop in Hrun; [|apply scanInvariant_initial].
  split; [done|]. split; [done|].
  destruct Hf as (_ & _ & Ho). destruct Hrun as (Hle & Hch & Hout & _).
  intros H0. rewrite concat_app, Hout. simpl. rewrite app_nil_r.
  rewrite spliceTo_splice by done.
  destruct (spliceTo_extend html _ _ _ (length html) Hch Hle) as [_ Hch'].
  rewrite (splice_original html _ 0 (length html)); [done|done|by apply Ho].
Qed.

(** A pass counts at most one replacement and calls the encoder at most
    once for each located payload that is not an SVG, and a pass that
    counts no replacement returns the document it was given. *)
Theorem pass_without_replacement_is_identity html q w :
  exists r,
    compressInlineOnce html q w = Some r /\
    r_replacements r <= length (rasterSpans (r_spans r)) /\
    length (r_calls r) <= length (rasterSpans (r_spans r)) /\
    (r_replacements r = 0 -> r_html r = html).
Proof.
  destruct (compressInlineOnce_returns GIF_WEBP decodeBase64 encodeBase64 sha16
              sharp html q w) as [r Hr].
  exists r. split; [done|]. unfold Compactor.compressInlineOnce in Hr.
  destruct (loop _ _ _ _ _ initial) as [sf|] eqn:Hrun; [|discriminate].
  injection Hr as <-.
  apply pass_frame in Hrun as ((Hr & Hc & _) & _ & Hid). done.
Qed.

Lemma failureInvariant_iteration html lower q w s :
  (forall j, sharp j = None) ->
  failureInvariant s ->
  match iteration html lower q w s with
  | Next s' | Break s' => failureInvariant s'
  end.
Proof.
  intros Hfail (Hc & Hr & Hl).
  pose proof (iteration_cases GIF_WEBP decodeBase64 encodeBase64 sha16 sharp
                html lower q w s) as C.
  inversion C as [| | | |start semi b comma emitted c n l H1 H2 H3 H4 k mime b64raw Hrc];
    subst; try done.
  pose proof (recompress_cases GIF_WEBP decodeBase64 encodeBase64 sha16 sharp
                html q w start k mime b64raw s) as R.
  cbv zeta in R. rewrite Hrc in R.
  unfold failureInvariant. fields. rewrite rasterSpans_snoc. fields.
  destruct R as [[Hsvg [= -> -> -> ->]]|[Hsvg R]]; rewrite Hsvg.
  - repeat split; try done. lia.
  - destruct R as [(v & Hv & _)|(_ & j & _ & [(buf & Hbuf & _)|[_ [= -> -> -> ->]]])].
    + rewrite Hc, lookup_empty in Hv. discriminate.
    + rewrite Hfail in Hbuf. discriminate.
    + repeat split; try done. rewrite length_app. simpl. lia.
Qed.

Lemma failureInvariant_loop html lower q w fuel s sf :
  (forall j, sharp j = None) ->
  failureInvariant s ->
  loop fuel html lower q w s = Some sf ->
  failureInvariant sf.
Proof.
  intros Hfail.
  revert s; induction fuel as [|fuel IH]; intros s Hs Hrun; [discriminate|].
  simpl in Hrun.
  pose proof (failureInvariant_iteration html lower q w s Hfail Hs) as Hi.
  destruct (iteration html lower q w s) as [s'|s'].
  - by eapply IH.
  - by injection Hrun as <-.
Qed.

(** With an encoder that fails on every image the pass returns the document
    unchanged and counts nothing, after one call for each located payload
    that is not an SVG: no failure is remembered, so a repeated image is
    tried again. *)
Theorem failing_encoder_changes_nothing html q w :
  (forall j, sharp j = None) ->
  exists r,
    compressInlineOnce html q w = Some r /\
    r_html r = html /\ r_replacements r = 0 /\
    length (r_calls r) = length (rasterSpans (r_spans r)).
Proof.
  intros Hfail.
  destruct (compressInlineOnce_returns GIF_WEBP decodeBase64 encodeBase64 sha16
              sharp html q w) as [r Hr].
  exists r. split; [done|]. unfold Compactor.compressInlineOnce in Hr.
  destruct (loop _ _ _ _ _ initial) as [sf|] eqn:Hrun; [|discriminate].
  injection Hr as <-.
  assert (failureInvariant initial) as Hinit by done.
  pose proof (failureInvariant_loop _ _ q w _ _ _ Hfail Hinit Hrun) as (_ & H0 & Hl).
  apply pass_frame in Hrun as (_ & _ & Hid). simpl. auto.
Qed.

(** Without [--targetBytes] the target is the size of the file, and for a
    text that is no larger than the file the loop of [main] makes exactly
    one pass: its output either fits the target or is no smaller than its
    input. *)
Theorem no_target_means_one_pass beforeBytes original QUALITY MAX_WIDTH :
  byteLength original <= beforeBytes ->
  exists r,
    compressInlineOnce original QUALITY MAX_WIDTH = Some r /\
    compact GIF_WEBP decodeBase64 encodeBase64 sha16 sharp
            None beforeBytes original QUALITY MAX_WIDTH
    = Some (r_html r, [byteLength (r_html r)]).
Proof.
  intros Hle.
  destruct (compressInlineOnce_returns GIF_WEBP decodeBase64 encodeBase64 sha16
              sharp original QUALITY MAX_WIDTH) as [r Hr].
  exists r. split; [done|]. unfold compact. cbn [budgetLoop default].
  rewrite Hr.
  destruct (Nat.leb_spec (byteLength (r_html r)) beforeBytes) as [|Hgt]; [done|].
  destruct (Nat.leb_spec (byteLength original) (byteLength (r_html r))) as [|Hlt];
    [done|lia].
Qed.

(** The payload scan takes the longest run of payload characters. *)
Lemma consume_run (rest : jsstring) (k : nat) :
  Forall (fun c => isPayloadChar c = true) (take (consume rest k - k) rest) /\
  (forall c, rest !! (consume rest k - k) = Some c -> isPayloadChar c = false).
Proof.
  revert k; induction rest as [|c r IH]; intros k; simpl.
  - split; [by rewrite take_nil|]. intros c. by rewrite lookup_nil.
  - destruct (isPayloadChar c) eqn:E.
    + pose proof (consume_bounds r (S k)) as [B _].
      destruct (IH (S k)) as [H1 H2].
      replace (consume r (S k) - k) with (S (consume r (S k) - S k)) by lia.
      simpl. split; [by constructor|done].
    + rewrite Nat.sub_diag. simpl. split; [constructor|]. by intros ? [= <-].
Qed.

(** What is handed to the base64 decoder holds only letters, digits, [+],
    [/] and [=]: the payload of every located data URL is the longest run of
    payload characters behind the comma, and the spaces are taken out of
    it. *)
Theorem decoder_input_is_base64_text html q w :
  exists r,
    compressInlineOnce html q w = Some r /\
    forall sp, sp ∈ r_spans r ->
      Forall (fun c => isBase64Unit c = true) (sp_b64raw sp) /\
      sp_end sp <= length html /\
      (forall c, html !! sp_end sp = Some c -> isPayloadChar c = false).
Proof.
  destruct (compressInlineOnce_returns GIF_WEBP decodeBase64 encodeBase64 sha16
              sharp html q w) as [r Hr].
  exists r. split; [done|]. unfold Compactor.compressInlineOnce in Hr.
  destruct (loop _ _ _ _ _ initial) as [sf|] eqn:Hrun; [|discriminate].
  injection Hr as <-. simpl.
  apply pass_frame in Hrun as (_ & (_ & _ & _ & Hall) & _).
  intros sp Hsp. rewrite Forall_forall in Hall.
  destruct (Hall sp Hsp) as [(semi & b & comma & _ & _ & _ & _ & Hcomma & Hend & Hraw) _].
  pose proof (consume_run (sliceFrom html (comma + 1)) (comma + 1)) as [Hrun Hstop].
  pose proof (consume_bounds (sliceFrom html (comma + 1)) (comma + 1)) as [Hlo Hhi].
  rewrite <- Hend in Hrun, Hstop, Hlo, Hhi. unfold sliceFrom in *.
  apply indexOf_bounds in Hcomma; [|done]. simpl in Hcomma.
  rewrite length_drop in Hhi.
  split; [|split; [lia|]].
  - rewrite Hraw. unfold stripSpace, slice.
    apply Forall_forall. intros c Hc. apply list_elem_of_filter in Hc as [Hns Hc].
    rewrite Forall_forall in Hrun. apply Hrun in Hc.
    apply isPayloadChar_spec in Hc. unfold isBase64Unit.
    rewrite !orb_true_iff, !andb_true_iff, !N.leb_le, !N.eqb_eq.
    assert (c <> 32%N) by (intros ->; done). lia.
  - intros c Hc. apply Hstop. rewrite lookup_drop.
    by replace (comma + 1 + (sp_end sp - (comma + 1))) with (sp_end sp) by lia.
Qed.

End PassFrame.

(** ** The command line of the compactor *)

Lemma find_first_unit (c : N) (a b : jsstring) (pos : nat) :
  Forall (fun x => x <> c) a ->
  find [c] (a ++ c :: b) pos = Some (pos + length a).
Proof.
  intros Ha. revert pos. induction Ha as [|x a Hx _ IH]; intros pos.
  - cbn [app find startsWith length]. rewrite N.eqb_refl. f_equal. lia.
  - cbn [app find startsWith length].
    destruct (N.eqb_spec c x) as [->|_]; [done|]. rewrite IH. f_equal. lia.
Qed.

Lemma startsWith_app (p s t : jsstring) :
  startsWith p s = true -> startsWith p (s ++ t) = true.
Proof.
  revert s; induction p as [|a p IH]; intros [|b s]; simpl; try done.
  destruct (N.eqb a b); [apply IH|done].
Qed.

Lemma parseArgv_spec (argv : list jsstring) :
  forall args positional,
    let r := parseArgv argv args positional in
    r.2 = positional ++ filter (fun a => startsWith (str "--") a = false) argv /\
    (forall k, is_Some (r.1 !! k) <->
               is_Some (args !! k) \/
               exists a, a ∈ argv /\ startsWith (str "--") a = true /\
                         (splitOption a).1 = k).
Proof.
  induction argv as [|a argv IH]; intros args positional; cbn [parseArgv].
  - cbv zeta. cbn [fst snd]. rewrite filter_nil, app_nil_r. split; [done|].
    intros k. split; [by left|]. intros [?|(a & Ha & _)]; [done|].
    by apply not_elem_of_nil in Ha.
  - cbv zeta. rewrite filter_cons.
    destruct (startsWith (str "--") a) eqn:E.
    + destruct (splitOption a) as [k0 v0] eqn:Es.
      destruct (IH (<[k0 := v0]> args) positional) as [H1 H2].
      rewrite decide_False by done. split; [done|].
      intros k. rewrite H2. split.
      * intros [Hk|(b & Hb & Hb1 & Hb2)].
        -- destruct (decide (k0 = k)) as [<-|Hne].
           ++ right. exists a. rewrite Es. split; [by left|done].
           ++ left. by rewrite lookup_insert_ne in Hk.
        -- right. exists b. split; [by right|done].
      * intros [Hk|(b & Hb & Hb1 & Hb2)].
        -- left. destruct (decide (k0 = k)) as [<-|Hne].
           ++ rewrite lookup_insert_eq. by eexists.
           ++ by rewrite lookup_insert_ne.
        -- apply elem_of_cons in Hb as [->|Hb].
           ++ left. rewrite Es in Hb2. simpl in Hb2. subst k0.
              rewrite lookup_insert_eq. by eexists.
           ++ right. by exists b.
    + destruct (IH args (positional ++ [a])) as [H1 H2].
      rewrite decide_True by done. split; [by rewrite H1, <- app_assoc|].
      intros k. rewrite H2. split.
      * intros [Hk|(b & Hb & Hb1 & Hb2)]; [by left|].
        right. exists b. split; [by right|done].
      * intros [Hk|(b & Hb & Hb1 & Hb2)]; [by left|].
        apply elem_of_cons in Hb as [->|Hb]; [congruence|].
        right. by exists b.
Qed.

(** The options of the compactor: the positional arguments are those that
    do not start with two hyphens, in their order; an option is set exactly
    when an argument carries its key; and a switch such as
    [--strip-scripts], which is only asked whether it is set, is on
    whatever value is attached to it, [false] included. *)
Theorem switch_is_on_whatever_its_value (argv : list jsstring) :
  let r := parseArgv argv ∅ [] in
  r.2 = filter (fun a => startsWith (str "--") a = false) argv /\
  (forall k, is_Some (r.1 !! k) <->
             exists a, a ∈ argv /\ startsWith (str "--") a = true /\
                       (splitOption a).1 = k) /\
  (forall k v, startsWith (str "--") k = true ->
               Forall (fun c => c <> 61%N) k ->
               (k ++ str "=" ++ v) ∈ argv \/ k ∈ argv ->
               is_Some (r.1 !! k)).
Proof.
  intros r. destruct (parseArgv_spec argv ∅ []) as [H1 H2]. fold r in H1, H2.
  assert (forall k, is_Some (r.1 !! k) <->
                    exists a, a ∈ argv /\ startsWith (str "--") a = true /\
                              (splitOption a).1 = k) as H3.
  { intros k. rewrite H2. split; [|by right].
    intros [Hk|?]; [|done]. rewrite lookup_empty in Hk. by destruct Hk. }
  split; [done|]. split; [done|].
  intros k v Hk Hnoeq Hin. apply H3.
  destruct Hin as [Hin|Hin].
  - exists (k ++ str "=" ++ v). split; [done|]. split; [by apply startsWith_app|].
    unfold splitOption, indexOf. rewrite drop_0.
    change (str "=") with [61%N]. cbn [app].
    rewrite find_first_unit by done. cbn [fst].
    unfold slice. rewrite drop_0, Nat.sub_0_r. apply take_app_length.
  - exists k. split; [done|]. split; [done|].
    unfold splitOption, indexOf. rewrite drop_0.
    assert (find (str "=") k 0 = None) as ->; [|done].
    clear -Hnoeq. generalize 0.
    induction Hnoeq as [|c k Hc _ IH]; intros pos; cbn [find startsWith str]; [done|].
    change (N_of_ascii "=") with 61%N.
    destruct (N.eqb_spec 61 c) as [<-|_]; [done|]. apply IH.
Qed.

(** ** The optional strips *)

Lemma replaceBlocks_sublist matchAt drops (s : jsstring) (skip : nat) (dropping : bool) :
  replaceBlocks matchAt drops s skip dropping `sublist_of` s.
Proof.
  revert skip dropping; induction s as [|c s IH]; intros skip dropping; simpl; [done|].
  destruct skip as [|n].
  - destruct (matchAt (c :: s)) as [[|n]|].
    + by apply sublist_skip.
    + destruct (drops _); [by apply sublist_cons|by apply sublist_skip].
    + by apply sublist_skip.
  - destruct dropping; [by apply sublist_cons|by apply sublist_skip].
Qed.

(** Where nothing matches, nothing is replaced. *)
Lemma replaceBlocks_no_match matchAt drops (s : jsstring) :
  (forall k, matchAt (drop k s) = None) ->
  replaceBlocks matchAt drops s 0 false = s.
Proof.
  induction s as [|c s IH]; intros Hno; simpl; [done|].
  pose proof (Hno 0) as H0. rewrite drop_0 in H0. rewrite H0.
  f_equal. apply IH. intros k. apply (Hno (S k)).
Qed.

(** Behind a match the flag of the last match is forgotten. *)
Lemma replaceBlocks_flag matchAt drops (s : jsstring) (d : bool) :
  replaceBlocks matchAt drops s 0 d = replaceBlocks matchAt drops s 0 false.
Proof. by destruct s. Qed.

(** The units of a dropped match are left out, and the search goes on behind
    them. *)
Lemma replaceBlocks_dropping matchAt drops (block rest : jsstring) :
  replaceBlocks matchAt drops (block ++ rest) (length block) true
  = replaceBlocks matchAt drops rest 0 false.
Proof.
  induction block as [|c block IH]; simpl; [apply replaceBlocks_flag|done].
Qed.

Lemma indexOf_None_suffix (needle s : jsstring) (k from : nat) :
  indexOf needle s 0 = None -> indexOf needle (drop k s) from = None.
Proof.
  unfold indexOf. rewrite drop_0, drop_drop. intros H. eapply find_None_drop, H.
Qed.

Lemma toLowerCase_drop (s : jsstring) (k : nat) :
  toLowerCase (drop k s) = drop k (toLowerCase s).
Proof. unfold toLowerCase. by rewrite <- skipn_map. Qed.

Lemma toLowerCase_app (a b : jsstring) :
  toLowerCase (a ++ b) = toLowerCase a ++ toLowerCase b.
Proof. apply map_app. Qed.

(** No block starts at a unit that is not [<]. *)
Lemma matchScriptBlock_open (c : N) (s : jsstring) :
  c <> 60%N -> matchScriptBlock (c :: s) = None.
Proof.
  intros Hc. unfold matchScriptBlock. cbn [toLowerCase map].
  change (str "<script") with (60%N :: str "script"). cbn [startsWith].
  destruct (N.eqb_spec 60 (lowerUnit c)) as [E|E]; [|done].
  exfalso. unfold lowerUnit in E.
  destruct (_ && _)%N eqn:B; [|congruence].
  apply andb_true_iff in B as [B1 B2]. apply N.leb_le in B1, B2. lia.
Qed.

(** [stripScripts] only takes units away, in place; it changes nothing in
    a document without a closing script tag; and a block that no [<] comes
    before is taken away whole, the strip going on behind it. *)
Theorem stripScripts_drops_whole_blocks :
  (forall s, stripScripts s `sublist_of` s) /\
  (forall s, indexOf (str "</script>") (toLowerCase s) 0 = None -> stripScripts s = s) /\
  (forall pre block rest,
     Forall (fun c => c <> 60%N) pre ->
     matchScriptBlock (block ++ rest) = Some (length block) ->
     stripScripts (pre ++ block ++ rest) = pre ++ stripScripts rest).
Proof.
  split; [|split].
  - intros s. apply replaceBlocks_sublist.
  - intros s Hno. apply replaceBlocks_no_match. intros k.
    unfold matchScriptBlock. rewrite toLowerCase_drop.
    destruct (_ && _); [|done]. by rewrite indexOf_None_suffix.
  - intros pre block rest Hpre Hm. unfold stripScripts.
    induction Hpre as [|c pre Hc _ IH]; simpl.
    + destruct block as [|b block].
      { simpl in Hm. exfalso. unfold matchScriptBlock in Hm.
        destruct (_ && _); [|done].
        destruct (indexOf _ _ _) as [e|]; [|done]. injection Hm as Hm. lia. }
      cbn [app replaceBlocks]. cbn [app] in Hm. rewrite Hm. cbn [length].
      apply replaceBlocks_dropping.
    + rewrite matchScriptBlock_open by done. by rewrite IH.
Qed.

Lemma replaceBlocks_threshold matchAt (t1 t2 : nat) (s : jsstring) (skip : nat)
    (d1 d2 : bool) :
  t1 <= t2 -> (d2 = true -> d1 = true) ->
  replaceBlocks matchAt (fun block => t1 <? length block) s skip d1
  `sublist_of` replaceBlocks matchAt (fun block => t2 <? length block) s skip d2.
Proof.
  intros Ht. revert skip d1 d2; induction s as [|c s IH]; intros skip d1 d2 Hd;
    simpl; [done|].
  destruct skip as [|n].
  - destruct (matchAt (c :: s)) as [[|n]|].
    + apply sublist_skip. by apply IH.
    + destruct (Nat.ltb_spec t2 (S (length (take n s)))) as [H2|H2];
        destruct (Nat.ltb_spec t1 (S (length (take n s)))) as [H1|H1]; try lia.
      * by apply IH.
      * apply sublist_cons. by apply IH.
      * apply sublist_skip. by apply IH.
    + apply sublist_skip. by apply IH.
  - destruct d2.
    + rewrite Hd by done. by apply IH.
    + destruct d1; [apply sublist_cons|apply sublist_skip]; by apply IH.
Qed.

Lemma replaceBlocks_small matchAt (t : nat) (s : jsstring) (skip : nat) :
  length s <= t ->
  replaceBlocks matchAt (fun block => t <? length block) s skip false = s.
Proof.
  revert skip; induction s as [|c s IH]; intros skip Hlen; simpl; [done|].
  simpl in Hlen.
  destruct skip as [|n]; [|f_equal; apply IH; lia].
  destruct (matchAt (c :: s)) as [[|n]|]; [f_equal; apply IH; lia| |f_equal; apply IH; lia].
  destruct (Nat.ltb_spec t (S (length (take n s)))) as [H|H].
  - rewrite length_take in H. lia.
  - f_equal. apply IH. lia.
Qed.

(** [stripLargeStyleBlocks] only takes units away, in place; a larger
    threshold keeps whatever a smaller one keeps; and a document no longer
    than the threshold is returned as it was. *)
Theorem stripLargeStyleBlocks_threshold (s : jsstring) (t extra : nat) :
  stripLargeStyleBlocks s t `sublist_of` stripLargeStyleBlocks s (t + extra) /\
  stripLargeStyleBlocks s (t + extra) `sublist_of` s /\
  stripLargeStyleBlocks s (length s + extra) = s.
Proof.
  split; [|split].
  - apply replaceBlocks_threshold; [lia|done].
  - apply replaceBlocks_sublist.
  - apply replaceBlocks_small. lia.
Qed.

(** ** The command line of the canonicaliser *)

Lemma parseArgsFrom_spec (args : list jsstring) :
  forall dir flags,
    let r := parseArgsFrom args dir flags in
    (apply r.2 = true <-> apply flags = true \/ str "--apply" ∈ args) /\
    (quiet r.2 = true <-> quiet flags = true \/ str "--quiet" ∈ args) /\
    (preferCanonical r.2 = false <->
     preferCanonical flags = false \/ str "--no-canonical" ∈ args) /\
    r.1 = match dir with
          | [] => default [] (head (filter (fun a => isSwitch a = false /\ a <> []) args))
          | _ :: _ => dir
          end.
Proof.
  induction args as [|a args IH]; intros dir flags; cbn [parseArgsFrom].
  - cbv zeta. simpl. rewrite !elem_of_nil. split; [tauto|]. split; [tauto|].
    split; [tauto|]. by destruct dir.
  - cbv zeta. rewrite !elem_of_cons, filter_cons. unfold isSwitch, eqb.
    destruct (decide (a = str "--apply")) as [->|N1].
    { rewrite bool_decide_eq_true_2 by done.
      destruct (IH dir (MkFlags true (quiet flags) (preferCanonical flags)))
        as (H1 & H2 & H3 & H4). cbn [apply quiet preferCanonical] in *.
      rewrite H1, H2, H3, H4.
      rewrite decide_False by (by intros [? _]).
      repeat split; try tauto; intros; try tauto.
      - destruct H as [?|[?|?]]; [tauto|discriminate|tauto].
      - destruct H as [?|[?|?]]; [tauto|discriminate|tauto]. }
    rewrite (bool_decide_eq_false_2 (a = str "--apply")) by done.
    destruct (decide (a = str "--quiet")) as [->|N2].
    { rewrite bool_decide_eq_true_2 by done.
      destruct (IH dir (MkFlags (apply flags) true (preferCanonical flags)))
        as (H1 & H2 & H3 & H4). cbn [apply quiet preferCanonical] in *.
      rewrite H1, H2, H3, H4.
      rewrite decide_False by (by intros [? _]).
      repeat split; try tauto; intros; try tauto.
      - destruct H as [?|[?|?]]; [tauto|discriminate|tauto].
      - destruct H as [?|[?|?]]; [tauto|discriminate|tauto]. }
    rewrite (bool_decide_eq_false_2 (a = str "--quiet")) by done.
    destruct (decide (a = str "--no-canonical")) as [->|N3].
    { rewrite bool_decide_eq_true_2 by done.
      destruct (IH dir (MkFlags (apply flags) (quiet flags) false))
        as (H1 & H2 & H3 & H4). cbn [apply quiet preferCanonical] in *.
      rewrite H1, H2, H3, H4.
      rewrite decide_False by (by intros [? _]).
      repeat split; try tauto; intros; try tauto.
      - destruct H as [?|[?|?]]; [tauto|discriminate|tauto].
      - destruct H as [?|[?|?]]; [tauto|discriminate|tauto]. }
    rewrite (bool_decide_eq_false_2 (a = str "--no-canonical")) by done.
    cbn [orb].
    destruct dir as [|c dir].
    + destruct (IH a flags) as (H1 & H2 & H3 & H4).
      rewrite H1, H2, H3, H4.
      split; [intuition congruence|]. split; [intuition congruence|]. split; [intuition congruence|].
      destruct a as [|x a].
      * by rewrite decide_False by (by intros [_ ?]).
      * by rewrite decide_True by done.
    + destruct (IH (c :: dir) flags) as (H1 & H2 & H3 & H4).
      rewrite H1, H2, H3, H4.
      split; [intuition congruence|]. split; [intuition congruence|]. split; [intuition congruence|]. done.
Qed.

(** [parseArgs] reads its options wherever they stand: a run applies its
    renames exactly when [--apply] is among the arguments, and likewise for
    [--quiet] and [--no-canonical]; the directory is the first argument that
    is not one of the three options and is not empty, whatever it looks
    like, and every later one is ignored; without one it is the empty
    string. *)
Theorem parseArgs_reads_options_anywhere (args : list jsstring) :
  (apply (parseArgs args).2 = true <-> str "--apply" ∈ args) /\
  (quiet (parseArgs args).2 = true <-> str "--quiet" ∈ args) /\
  (preferCanonical (parseArgs args).2 = false <-> str "--no-canonical" ∈ args) /\
  (parseArgs args).1
  = default [] (head (filter (fun a => isSwitch a = false /\ a <> []) args)).
Proof.
  destruct (parseArgsFrom_spec args [] (MkFlags false false true))
    as (H1 & H2 & H3 & H4).
  cbn [apply quiet preferCanonical] in *. unfold parseArgs.
  rewrite H1, H2, H3, H4. repeat split; try tauto; intros; try tauto.
  - by destruct H.
  - by destruct H.
  - by destruct H.
Qed.

(** ** What sanitising a name guarantees *)

(** The table maps full-width characters to ASCII characters that are
    invalid in a filename. *)
Lemma FULLWIDTH_TO_ASCII_entries (ch b : N) :
  assoc ch FULLWIDTH_TO_ASCII = Some b ->
  (65280 <= ch <= 65535)%N /\ (b < 128)%N /\ isInvalidFilenameChar b = true.
Proof.
  unfold FULLWIDTH_TO_ASCII. cbn [assoc].
  repeat match goal with
         | |- context [N.eqb ?k ch] =>
             destruct (N.eqb_spec k ch) as [<-|_];
             [intros [= <-]; repeat split; try lia; reflexivity|]
         end.
  done.
Qed.

Lemma assoc_low (c : N) : (c < 65280)%N -> assoc c FULLWIDTH_TO_ASCII = None.
Proof.
  intros Hc. destruct (assoc c FULLWIDTH_TO_ASCII) as [b|] eqn:E; [|done].
  apply FULLWIDTH_TO_ASCII_entries in E. lia.
Qed.

(** None of them is a key of the table. *)
Lemma FULLWIDTH_TO_ASCII_spec (ch b : N) :
  assoc ch FULLWIDTH_TO_ASCII = Some b ->
  (65280 <= ch <= 65535)%N /\ (b < 128)%N /\
  isInvalidFilenameChar b = true /\ assoc b FULLWIDTH_TO_ASCII = None.
Proof.
  intros H. apply FULLWIDTH_TO_ASCII_entries in H as (H1 & H2 & H3).
  repeat split; try done; try lia. apply assoc_low. lia.
Qed.

(** A string without a key of the table is left as it is. *)
Lemma normalizeWeirdPunctToAscii_id (s : jsstring) :
  Forall (fun c => assoc c FULLWIDTH_TO_ASCII = None) s ->
  normalizeWeirdPunctToAscii s = s.
Proof.
  induction 1 as [|c s Hc _ IH]; [done|].
  unfold normalizeWeirdPunctToAscii in *. cbn [map]. rewrite IH, Hc.
  by destruct (_ && _).
Qed.

Lemma normalizeWeirdPunctToAscii_keys (s : jsstring) :
  Forall (fun c => assoc c FULLWIDTH_TO_ASCII = None) (normalizeWeirdPunctToAscii s).
Proof.
  induction s as [|c s IH]; [constructor|].
  unfold normalizeWeirdPunctToAscii in *. cbn [map]. constructor; [|done].
  destruct (_ && _) eqn:R.
  - destruct (assoc c FULLWIDTH_TO_ASCII) as [b|] eqn:E; simpl; [|done].
    by apply FULLWIDTH_TO_ASCII_spec in E as (_ & _ & _ & ?).
  - destruct (assoc c FULLWIDTH_TO_ASCII) as [b|] eqn:E; [|done].
    apply FULLWIDTH_TO_ASCII_spec in E as (E & _).
    apply andb_false_iff in R as [R|R]; apply N.leb_gt in R; lia.
Qed.

(** [normalizeWeirdPunctToAscii] maps unit by unit: it keeps the length,
    leaves every unit below U+FF00 where it is, leaves none of the twelve
    full-width characters of its table behind, and applied twice does what
    it does applied once. *)
Theorem normalizeWeirdPunctToAscii_removes_fullwidth (s : jsstring) :
  length (normalizeWeirdPunctToAscii s) = length s /\
  Forall (fun c => assoc c FULLWIDTH_TO_ASCII = None) (normalizeWeirdPunctToAscii s) /\
  normalizeWeirdPunctToAscii (normalizeWeirdPunctToAscii s)
  = normalizeWeirdPunctToAscii s /\
  (forall i c, s !! i = Some c -> (c < 65280)%N ->
               normalizeWeirdPunctToAscii s !! i = Some c).
Proof.
  split; [apply length_map|]. split; [apply normalizeWeirdPunctToAscii_keys|].
  split; [apply normalizeWeirdPunctToAscii_id, normalizeWeirdPunctToAscii_keys|].
  intros i c Hi Hc. unfold normalizeWeirdPunctToAscii.
  rewrite list_lookup_fmap, Hi. simpl.
  destruct (N.leb_spec 65280 c); [lia|done].
Qed.

Lemma collapseUnderscores_sublist (s : jsstring) :
  collapseUnderscores s `sublist_of` s.
Proof.
  induction s as [|c s IH]; [done|]. cbn [collapseUnderscores].
  destruct (isUnit 95 c); [|by apply sublist_skip].
  destruct s as [|d s]; [done|].
  destruct (isUnit 95 d); [by apply sublist_cons|by apply sublist_skip].
Qed.

Lemma dropUnderscores_sublist (s : jsstring) : dropUnderscores s `sublist_of` s.
Proof.
  induction s as [|c s IH]; [done|]. cbn [dropUnderscores].
  destruct (isUnit 95 c); [by apply sublist_cons|done].
Qed.

Lemma collapseUnderscores_id (s : jsstring) :
  noDoubleUnderscore s -> collapseUnderscores s = s.
Proof.
  induction s as [|c s IH]; [done|]. intros H. cbn [collapseUnderscores].
  pose proof (noDoubleUnderscore_tail _ _ H) as Hs.
  destruct (isUnit 95 c) eqn:E; [|by rewrite IH].
  destruct s as [|d s]; [done|].
  destruct (isUnit 95 d) eqn:E'; [|by rewrite IH].
  unfold isUnit in *. apply N.eqb_eq in E, E'. by destruct H as [[] _].
Qed.

Lemma dropUnderscores_id (s : jsstring) :
  head s <> Some 95%N -> dropUnderscores s = s.
Proof.
  destruct s as [|c s]; [done|]. cbn [dropUnderscores head]. intros H.
  unfold isUnit. destruct (N.eqb_spec c 95) as [->|]; [by destruct H|done].
Qed.

(** In a name without two underscores side by side the last pattern of
    [sanitizeFilename] replaces an underscore by itself. *)
Lemma trimBeforeExt_id (s : jsstring) :
  noDoubleUnderscore s -> trimBeforeExt s = s.
Proof.
  induction s as [|c s IH]; [done|]. intros H. cbn [trimBeforeExt].
  pose proof (noDoubleUnderscore_tail _ _ H) as Hs.
  destruct (isUnit 95 c && _) eqn:E; [|by rewrite IH].
  apply andb_true_iff in E as [E _]. unfold isUnit in E. apply N.eqb_eq in E as ->.
  rewrite dropUnderscores_id; [done|].
  destruct s as [|d s]; [done|]. simpl. intros [= ->]. by destruct H as [[] _].
Qed.

Lemma replaceInvalid_id (s : jsstring) :
  Forall (fun c => isInvalidFilenameChar c = false) s ->
  map (fun c => if isInvalidFilenameChar c then 95%N else c) s = s.
Proof. induction 1 as [|c s Hc _ IH]; [done|]. cbn [map]. by rewrite Hc, IH. Qed.

(** The three steps of [sanitizeFilename] before its last. *)
Lemma sanitizeFilename_steps (name : jsstring) :
  sanitizeFilename name
  = dropUnderscores
      (collapseUnderscores
         (map (fun c => if isInvalidFilenameChar c then 95%N else c)
              (normalizeWeirdPunctToAscii name))).
Proof.
  unfold sanitizeFilename. apply trimBeforeExt_id, dropUnderscores_noDouble,
    collapseUnderscores_noDouble.
Qed.

Lemma Forall_sublist_of (P : N -> Prop) (a b : jsstring) :
  a `sublist_of` b -> Forall P b -> Forall P a.
Proof.
  intros Hs Hb. rewrite Forall_forall in *. intros x Hx.
  apply Hb. by eapply elem_of_sublist.
Qed.

(** A sanitised name holds no character that is invalid in a filename and
    none of the full-width characters of the table, does not start with an
    underscore, and sanitising it again changes nothing.  The last of the
    four replacements of [sanitizeFilename] never changes its input: the
    collapse before it leaves no run of underscores to shorten. *)
Theorem sanitizeFilename_is_clean_and_stable (name : jsstring) :
  Forall (fun c => isInvalidFilenameChar c = false /\
                   assoc c FULLWIDTH_TO_ASCII = None) (sanitizeFilename name) /\
  head (sanitizeFilename name) <> Some 95%N /\
  sanitizeFilename (sanitizeFilename name) = sanitizeFilename name /\
  sanitizeFilename name
  = dropUnderscores
      (collapseUnderscores
         (map (fun c => if isInvalidFilenameChar c then 95%N else c)
              (normalizeWeirdPunctToAscii name))).
Proof.
  assert (Forall (fun c => isInvalidFilenameChar c = false /\
                           assoc c FULLWIDTH_TO_ASCII = None)
                 (sanitizeFilename name)) as Hclean.
  { rewrite sanitizeFilename_steps.
    eapply Forall_sublist_of; [apply dropUnderscores_sublist|].
    eapply Forall_sublist_of; [apply collapseUnderscores_sublist|].
    apply Forall_fmap.
    eapply Forall_impl; [apply normalizeWeirdPunctToAscii_keys|].
    intros c Hc. simpl. destruct (isInvalidFilenameChar c) eqn:E; [done|].
    split; [done|exact Hc]. }
  assert (head (sanitizeFilename name) <> Some 95%N) as Hhead
      by (rewrite sanitizeFilename_steps; apply dropUnderscores_head).
  split; [done|]. split; [done|]. split; [|apply sanitizeFilename_steps].
  rewrite (sanitizeFilename_steps (sanitizeFilename name)).
  rewrite normalizeWeirdPunctToAscii_id
    by (eapply Forall_impl; [exact Hclean|]; by intros c [_ ?]).
  assert (map (fun c => if isInvalidFilenameChar c then 95%N else c)
              (sanitizeFilename name) = sanitizeFilename name) as ->.
  { apply replaceInvalid_id. eapply Forall_impl; [exact Hclean|]. by intros c [? _]. }
  rewrite collapseUnderscores_id; [by apply dropUnderscores_id|].
  unfold sanitizeFilename.
  apply trimBeforeExt_noDouble, dropUnderscores_noDouble, collapseUnderscores_noDouble.
Qed.

(** ** Flattened URLs *)

Lemma replaceUnit_length (x y : N) (s : jsstring) :
  length (replaceUnit x y s) = length s.
Proof. apply length_map. Qed.

Lemma replaceUnit_app (x y : N) (a b : jsstring) :
  replaceUnit x y (a ++ b) = replaceUnit x y a ++ replaceUnit x y b.
Proof. apply map_app. Qed.

(** [flattenUrl] tells a path from the same path with one more slash at its
    end: the second name is longer, by the underscore of the slash and the
    underscore that marks it.  An empty path and the root path give the
    same name, the scheme and the host alone. *)
Theorem flattenParsed_marks_trailing_slash (proto host p : jsstring) :
  p <> [] ->
  length (flattenParsed (MkURL proto host p))
  < length (flattenParsed (MkURL proto host (p ++ str "/"))) /\
  flattenParsed (MkURL proto host (p ++ str "/")) <> flattenParsed (MkURL proto host p) /\
  flattenParsed (MkURL proto host []) = flattenParsed (MkURL proto host (str "/")) /\
  flattenParsed (MkURL proto host (str "/"))
  = removeFirst 58 proto ++ str "__" ++ toLowerCase host.
Proof.
  intros Hp.
  assert (length (flattenParsed (MkURL proto host p))
          < length (flattenParsed (MkURL proto host (p ++ str "/")))) as Hlen.
  { destruct p as [|c r]; [done|]. unfold flattenParsed.
    change (str "/") with [47%N]. change (str "_") with [95%N].
    cbn [pathname protocol hostname app].
    assert (endsWithSlash (c :: r ++ [47%N]) = true) as ->.
    { unfold endsWithSlash. by rewrite app_comm_cons, last_snoc. }
    assert (eqb (c :: r ++ [47%N]) [47%N] = false) as ->.
    { apply bool_decide_eq_false. intros [= _ H]. by destruct r. }
    cbn [andb negb].
    set (rest := if isUnit 47 c then r else c :: r).
    assert ((if isUnit 47 c then r ++ [47%N] else c :: r ++ [47%N])
            = rest ++ [47%N]) as -> by (subst rest; by destruct (isUnit 47 c)).
    rewrite replaceUnit_app.
    change (replaceUnit 47 95 [47%N]) with [95%N].
    destruct (_ && _).
    - destruct (replaceUnit 47 95 rest ++ [95%N]) eqn:E1;
        [by destruct (replaceUnit 47 95 rest)|].
      rewrite <- E1.
      destruct ((replaceUnit 47 95 rest ++ [95%N]) ++ [95%N]) eqn:E2;
        [by destruct (replaceUnit 47 95 rest)|].
      rewrite <- E2.
      rewrite !length_app; cbn [length]; rewrite ?length_app; cbn [length]; lia.
    - destruct ((replaceUnit 47 95 rest ++ [95%N]) ++ [95%N]) eqn:E2;
        [by destruct (replaceUnit 47 95 rest)|].
      rewrite <- E2.
      destruct (replaceUnit 47 95 rest);
        rewrite !length_app; cbn [length]; rewrite ?length_app; cbn [length]; lia. }
  split; [done|]. split; [intros E; rewrite E in Hlen; lia|].
  split; [done|]. unfold flattenParsed. cbn. by rewrite app_nil_r.
Qed.

(** ** Renames keep every file *)

Lemma rename_contents (fs fs' : FS) (old dest : jsstring) :
  rename fs old dest = Ret fs' ->
  fs !! dest = None ->
  (map_to_list fs').*2 ≡ₚ (map_to_list fs).*2.
Proof.
  unfold rename. destruct (fs !! old) as [content|] eqn:E; [|done].
  intros [= <-] Hdest.
  rewrite map_to_list_insert.
  - rewrite <- (map_to_list_delete fs old content E). by rewrite !fmap_cons.
  - rewrite lookup_delete_ne; [done|]. congruence.
Qed.

Lemma dedupe_contents (fs fs' : FS) (old d name : jsstring) (flags : Flags) :
  dedupeAndMaybeRename fs old d flags = Ret (fs', name) ->
  (map_to_list fs').*2 ≡ₚ (map_to_list fs).*2.
Proof.
  destruct (dedupeLoop_spec fs old d flags (S (size fs)) 0) as (j & _ & Hj & H);
    [lia..|].
  change (candidate d 0) with d in H. unfold dedupeAndMaybeRename. rewrite H.
  unfold settle.
  destruct (eqb (candidate d j) old) eqn:E; [by intros [= <- _]|].
  destruct (apply flags); [|by intros [= <- _]].
  destruct (rename fs old (candidate d j)) as [fs1| |] eqn:R; [|done..].
  intros [= <- _]. eapply rename_contents; [exact R|].
  destruct Hj as [Hj|Hj].
  - apply bool_decide_eq_false in E. done.
  - unfold existsFile in Hj. apply bool_decide_eq_false in Hj.
    destruct (fs !! candidate d j) eqn:L; [|done]. destruct Hj. by eexists.
Qed.

Lemma dedupe_frame (fs fs' : FS) (old d name : jsstring) (flags : Flags) :
  dedupeAndMaybeRename fs old d flags = Ret (fs', name) ->
  forall f c, f <> old -> fs !! f = Some c -> fs' !! f = Some c.
Proof.
  destruct (dedupeLoop_spec fs old d flags (S (size fs)) 0) as (j & _ & Hj & H);
    [lia..|].
  change (candidate d 0) with d in H. unfold dedupeAndMaybeRename. rewrite H.
  unfold settle, rename.
  destruct (eqb (candidate d j) old) eqn:E; [by intros [= <- _]|].
  destruct (apply flags); [|by intros [= <- _]].
  destruct (fs !! old) as [content|]; [|done].
  intros [= <- _] f c Hf Hc.
  destruct Hj as [Hj|Hj]; [by apply bool_decide_eq_false in E|].
  unfold existsFile in Hj. apply bool_decide_eq_false in Hj.
  rewrite lookup_insert_ne, lookup_delete_ne; [done..|].
  intros <-. apply Hj. by eexists.
Qed.

(** *** The names a run gives are plain *)

(** What the table writes: a slash only for the full-width slash, and never
    a dot or U+0000. *)
Lemma FULLWIDTH_TO_ASCII_values (ch b : N) :
  assoc ch FULLWIDTH_TO_ASCII = Some b ->
  (b = 47%N -> ch = 65295%N) /\ b <> 0%N /\ b <> 46%N.
Proof.
  unfold FULLWIDTH_TO_ASCII. cbn [assoc].
  repeat match goal with
         | |- context [N.eqb ?k ch] =>
             destruct (N.eqb_spec k ch) as [<-|_];
             [intros [= <-]; repeat split; done|]
         end.
  done.
Qed.

Lemma hasFullwidthSlash_false (s : jsstring) :
  hasFullwidthSlash s = false <-> Forall (fun c => c <> 65295%N) s.
Proof.
  unfold hasFullwidthSlash.
  induction s as [|c s IH]; cbn [existsb]; [by split; [constructor|]|].
  rewrite orb_false_iff, IH. destruct (N.eqb_spec 65295 c) as [<-|Hc].
  - split; [by intros [? _]|intros H; by inversion H].
  - split; [intros [_ ?]; constructor; [congruence|done]|intros H; by inversion H].
Qed.

(** A plain name without the full-width slash is still plain after
    [normalizeWeirdPunctToAscii]. *)
Lemma normalized_plain (s : jsstring) :
  isPlainName s = true -> hasFullwidthSlash s = false ->
  isPlainName (normalizeWeirdPunctToAscii s) = true.
Proof.
  rewrite !isPlainName_spec, hasFullwidthSlash_false.
  intros (H0 & H1 & H2 & Hs) Hf.
  set (g := fun ch : N =>
              if ((65280 <=? ch) && (ch <=? 65535))%N
              then default ch (assoc ch FULLWIDTH_TO_ASCII) else ch).
  change (normalizeWeirdPunctToAscii s) with (map g s).
  assert (forall c, g c = 46%N -> c = 46%N) as Hdot.
  { intros c. subst g. cbv beta. destruct (_ && _); [|done].
    destruct (assoc c FULLWIDTH_TO_ASCII) as [b|] eqn:E; [|done]. simpl.
    apply FULLWIDTH_TO_ASCII_values in E as (_ & _ & ?). done. }
  assert (forall c, c <> 47%N -> c <> 0%N -> c <> 65295%N ->
                    g c <> 47%N /\ g c <> 0%N) as Hunit.
  { intros c ? ? ?. subst g. cbv beta. destruct (_ && _); [|done].
    destruct (assoc c FULLWIDTH_TO_ASCII) as [b|] eqn:E; [|done]. simpl.
    apply FULLWIDTH_TO_ASCII_values in E as (? & ? & _). split; [|done].
    intros ->. auto. }
  change (str ".") with [46%N] in *. change (str "..") with [46%N; 46%N] in *.
  split; [by destruct s|]. split; [|split].
  - destruct s as [|a [|b r]]; [done| |done]. cbn [map]. intros [= Ha].
    apply Hdot in Ha. congruence.
  - destruct s as [|a [|b [|c r]]]; [done|done| |done]. cbn [map].
    intros [= Ha Hb]. apply Hdot in Ha, Hb. congruence.
  - apply Forall_fmap. rewrite Forall_forall in *. intros c Hc.
    destruct (Hs c Hc). by apply Hunit; [| |apply Hf].
Qed.

Lemma collapseUnderscores_keeps (x : N) (s : jsstring) :
  x <> 95%N -> x ∈ s -> x ∈ collapseUnderscores s.
Proof.
  intros Hx. induction s as [|c s IH]; [done|]. cbn [collapseUnderscores].
  intros [E|Hin]%elem_of_cons.
  - subst c. unfold isUnit. destruct (N.eqb_spec x 95); [done|]. by left.
  - destruct (isUnit 95 c); [|right; by apply IH].
    destruct s as [|d s]; [by apply not_elem_of_nil in Hin|].
    destruct (isUnit 95 d); [by apply IH|right; by apply IH].
Qed.

Lemma dropUnderscores_keeps (x : N) (s : jsstring) :
  x <> 95%N -> x ∈ s -> x ∈ dropUnderscores s.
Proof.
  intros Hx. induction s as [|c s IH]; [done|]. cbn [dropUnderscores].
  unfold isUnit. destruct (N.eqb_spec c 95) as [->|_]; [|done].
  intros [E|Hin]%elem_of_cons; [done|by apply IH].
Qed.

(** A unit that no step of [sanitizeFilename] touches is in the sanitised
    name. *)
Lemma sanitizeFilename_keeps (x : N) (name : jsstring) :
  (x < 65280)%N -> isInvalidFilenameChar x = false -> x <> 95%N ->
  x ∈ name -> x ∈ sanitizeFilename name.
Proof.
  intros Hlow Hvalid Hx Hin. rewrite sanitizeFilename_steps.
  apply dropUnderscores_keeps, collapseUnderscores_keeps; try done.
  apply list_elem_of_fmap. exists x. rewrite Hvalid. split; [done|].
  unfold normalizeWeirdPunctToAscii. apply list_elem_of_fmap. exists x.
  split; [|done]. destruct (N.leb_spec 65280 x); [lia|done].
Qed.

Lemma sanitizeFilename_valid (name : jsstring) :
  Forall (fun c => isInvalidFilenameChar c = false) (sanitizeFilename name).
Proof.
  rewrite sanitizeFilename_steps.
  eapply Forall_sublist_of; [apply dropUnderscores_sublist|].
  eapply Forall_sublist_of; [apply collapseUnderscores_sublist|].
  apply Forall_fmap, Forall_forall. intros c _. simpl.
  by destruct (isInvalidFilenameChar c) eqn:E.
Qed.

(** Each of the extensions holds an [l] or a [p], in capitals or not. *)
Lemma isHtmlExt_letter (m : jsstring) :
  isHtmlExt m = true ->
  exists c, c ∈ m /\ (c = 76 \/ c = 108 \/ c = 80 \/ c = 112)%N.
Proof.
  unfold isHtmlExt, htmlExts. cbn [existsb]. unfold eqb.
  rewrite !orb_true_iff, !bool_decide_eq_true.
  assert (forall x, x ∈ toLowerCase m -> (x = 108 \/ x = 112)%N ->
            exists c, c ∈ m /\ (c = 76 \/ c = 108 \/ c = 80 \/ c = 112)%N) as H.
  { intros x Hx Hl. apply list_elem_of_fmap in Hx as (c & -> & Hc).
    exists c. split; [done|]. unfold lowerUnit in Hl.
    destruct (_ && _); lia. }
  intros [E|[E|[E|[E|E]]]]; [| | | |discriminate E].
  - apply (H 108%N); [rewrite E|by left].
    change (str ".u.zip.html") with (str ".u.zip.htm" ++ [108%N]).
    apply elem_of_app. right. by left.
  - apply (H 108%N); [rewrite E|by left].
    change (str ".zip.html") with (str ".zip.htm" ++ [108%N]).
    apply elem_of_app. right. by left.
  - apply (H 108%N); [rewrite E|by left].
    change (str ".html") with (str ".htm" ++ [108%N]).
    apply elem_of_app. right. by left.
  - apply (H 112%N); [rewrite E|by right].
    change (str ".zip") with (str ".zi" ++ [112%N]).
    apply elem_of_app. right. by left.
Qed.

(** A name composed from a URL is plain. *)
Lemma composed_plain (flat dt ext : jsstring) :
  isHtmlExt ext = true ->
  isPlainName (sanitizeFilename (flat ++ str "-" ++ dt ++ ext)) = true.
Proof.
  intros (c & Hc & Hl)%isHtmlExt_letter. apply isPlainName_spec.
  assert (c ∈ sanitizeFilename (flat ++ str "-" ++ dt ++ ext)) as Hin.
  { apply sanitizeFilename_keeps.
    - lia.
    - by destruct Hl as [->|[->|[->| ->]]].
    - lia.
    - rewrite !elem_of_app. auto. }
  destruct (not_dots _ _ Hin ltac:(lia)) as (H1 & H2 & H3).
  split; [done|]. split; [done|]. split; [done|].
  eapply Forall_impl; [apply sanitizeFilename_valid|].
  intros x Hx. split; intros ->; done.
Qed.

Section RunProperties.

Variable findCanonical findOgUrl findTwitterUrl findSavedFromUrl
  : jsstring -> option jsstring.
Variable absolutizeAndValidateUrl : jsstring -> option jsstring.
Variable parseURL : jsstring -> option URL.

#[local] Abbreviation maybeFixFile :=
  (Canonicalizer.maybeFixFile findCanonical findOgUrl findTwitterUrl
     findSavedFromUrl absolutizeAndValidateUrl parseURL).
#[local] Abbreviation processFiles :=
  (Canonicalizer.processFiles findCanonical findOgUrl findTwitterUrl
     findSavedFromUrl absolutizeAndValidateUrl parseURL).
#[local] Abbreviation processDir :=
  (Canonicalizer.processDir findCanonical findOgUrl findTwitterUrl
     findSavedFromUrl absolutizeAndValidateUrl parseURL).

Lemma maybeFixFile_contents (nowIso : jsstring) (flags : Flags) (fs fs' : FS)
    (file : jsstring) (r : option report) :
  maybeFixFile nowIso flags fs file = Ret (fs', r) ->
  (map_to_list fs').*2 ≡ₚ (map_to_list fs).*2.
Proof.
  unfold Canonicalizer.maybeFixFile.
  destruct (fs !! file) as [html|]; [|done].
  destruct (desiredName _ _ _ _ _ _ _ _ _ _) as [[desired|]| |]; [| |done..].
  - destruct (dedupeAndMaybeRename fs file desired flags) as [[fs1 name]| |] eqn:E;
      [|done..].
    intros [= <- _]. by eapply dedupe_contents.
  - by intros [= <- _].
Qed.

Lemma processFiles_contents (clock : nat -> jsstring) (flags : Flags)
    (files : list jsstring) :
  forall i fs log fs' log',
    processFiles clock flags i files fs log = Some (fs', log') ->
    (map_to_list fs').*2 ≡ₚ (map_to_list fs).*2 /\ length log' <= length log + length files.
Proof.
  induction files as [|file files IH]; intros i fs log fs' log'; simpl.
  - intros [= <- <-]. split; [done|lia].
  - destruct (matchHtmlExt file 0).
    2:{ intros H. apply IH in H as [? ?]. split; [done|lia]. }
    destruct (maybeFixFile (clock i) flags fs file) as [[fs1 [r|]]| |] eqn:E.
    + intros H. apply IH in H as [H ?]. apply maybeFixFile_contents in E.
      rewrite length_app in *. simpl in *. split; [by rewrite H|lia].
    + intros H. apply IH in H as [H ?]. apply maybeFixFile_contents in E.
      split; [by rewrite H|lia].
    + intros H. apply IH in H as [? ?]. split; [done|lia].
    + done.
Qed.

Lemma maybeFixFile_frame (nowIso : jsstring) (flags : Flags) (fs fs' : FS)
    (file : jsstring) (r : option report) :
  maybeFixFile nowIso flags fs file = Ret (fs', r) ->
  forall f c, f <> file -> fs !! f = Some c -> fs' !! f = Some c.
Proof.
  unfold Canonicalizer.maybeFixFile.
  destruct (fs !! file) as [html|]; [|done].
  destruct (desiredName _ _ _ _ _ _ _ _ _ _) as [[desired|]| |]; [| |done..].
  - destruct (dedupeAndMaybeRename fs file desired flags) as [[fs1 name]| |] eqn:E;
      [|done..].
    intros [= <- _]. by eapply dedupe_frame.
  - by intros [= <- _].
Qed.

Lemma processFiles_frame (clock : nat -> jsstring) (flags : Flags)
    (files : list jsstring) (f c : jsstring) :
  matchHtmlExt f 0 = None ->
  forall i fs log fs' log',
    fs !! f = Some c ->
    processFiles clock flags i files fs log = Some (fs', log') ->
    fs' !! f = Some c.
Proof.
  intros Hf. induction files as [|file files IH]; intros i fs log fs' log' Hc; simpl.
  - by intros [= <- _].
  - destruct (matchHtmlExt file 0) eqn:Hfile; [|by apply IH].
    destruct (maybeFixFile (clock i) flags fs file) as [[fs1 [r|]]| |] eqn:E;
      try (by apply IH); [| |done].
    + apply IH. eapply maybeFixFile_frame; [exact E| |done]. congruence.
    + apply IH. eapply maybeFixFile_frame; [exact E| |done]. congruence.
Qed.

(** The name wanted for a file with a plain name and without the
    full-width slash is plain. *)
Lemma desiredName_plain (nowIso html file d : jsstring) (flags : Flags) :
  isPlainName file = true -> hasFullwidthSlash file = false ->
  desiredName findCanonical findOgUrl findTwitterUrl findSavedFromUrl
    absolutizeAndValidateUrl parseURL nowIso html file flags = Ret (Some d) ->
  isPlainName d = true.
Proof.
  intros Hplain Hslash. unfold desiredName, composeName, flattenUrl.
  destruct (extractBestUrl _ _ _ _ _ _ _) as [u|].
  - destruct (parseURL u) as [url|]; [|done].
    destruct (eqb _ file); [done|]. intros H.
    apply (f_equal (fun r => match r with Ret (Some x) => x | _ => [] end)) in H.
    cbv beta iota in H. subst d. apply composed_plain.
    destruct (matchHtmlExt file 0) as [[pos m0]|] eqn:E; [|done].
    by destruct (matchHtmlExt_suffix _ _ _ _ E) as (pre & _ & ?).
  - destruct (eqb _ file); [done|]. intros H.
    apply (f_equal (fun r => match r with Ret (Some x) => x | _ => [] end)) in H.
    cbv beta iota in H. subst d. by apply normalized_plain.
Qed.

Lemma maybeFixFile_directory (nowIso : jsstring) (flags : Flags) (fs fs' : FS)
    (file : jsstring) (r : option report) :
  directory fs -> hasFullwidthSlash file = false ->
  maybeFixFile nowIso flags fs file = Ret (fs', r) ->
  directory fs' /\ forall rep, r = Some rep -> isPlainName (rp_to rep) = true.
Proof.
  intros Hdir Hslash. unfold Canonicalizer.maybeFixFile.
  destruct (fs !! file) as [html|] eqn:Hfile; [|done].
  pose proof (map_Forall_lookup_1 _ _ _ _ Hdir Hfile) as Hplain. simpl in Hplain.
  destruct (desiredName _ _ _ _ _ _ _ _ _ _) as [[desired|]| |] eqn:Ed; [| |done..].
  - apply desiredName_plain in Ed; [|done..].
    destruct (dedupeAndMaybeRename fs file desired flags) as [[fs1 name]| |] eqn:E;
      [|done..].
    apply dedupe_directory in E as [Hdir1 Hname]; [|done..].
    intros H. injection H as <- <-. split; [done|].
    intros rep. destruct (quiet flags); [done|]. by intros [= <-].
  - intros H. injection H as <- <-. by split.
Qed.

Lemma processFiles_directory (clock : nat -> jsstring) (flags : Flags)
    (files : list jsstring) :
  Forall (fun f => hasFullwidthSlash f = false) files ->
  forall i fs log fs' log',
    directory fs -> Forall (fun r => isPlainName (rp_to r) = true) log ->
    processFiles clock flags i files fs log = Some (fs', log') ->
    directory fs' /\ Forall (fun r => isPlainName (rp_to r) = true) log'.
Proof.
  induction 1 as [|file files Hfile _ IH]; intros i fs log fs' log' Hdir Hlog; simpl.
  - by intros [= <- <-].
  - destruct (matchHtmlExt file 0); [|by apply IH].
    destruct (maybeFixFile (clock i) flags fs file) as [[fs1 [r|]]| |] eqn:E;
      [| |by apply IH|done].
    + apply maybeFixFile_directory in E as [Hdir1 Hr]; [|done..].
      apply IH; [done|]. apply Forall_app. split; [done|].
      apply Forall_singleton. by apply Hr.
    + apply maybeFixFile_directory in E as [Hdir1 _]; [|done..]. by apply IH.
Qed.

(** A run of [processDir], with or without [--apply], over a directory
    whose entries have plain names and files whose names do not hold the
    full-width slash: the run ends; every name it gives is plain, so that
    every rename stays in the directory; and the directory afterwards holds
    the same file contents, each as many times as before: no rename loses a
    file or overwrites one, whatever the pages name as their URL.  A file
    whose name has none of the snapshot extensions keeps its name.  At most
    one line is logged for each file. *)
Theorem run_keeps_every_file (clock : nat -> jsstring) (flags : Flags)
    (files : list jsstring) (fs : FS) :
  directory fs ->
  Forall (fun f => hasFullwidthSlash f = false) files ->
  exists fs' log,
    processDir clock flags files fs = Some (fs', log) /\
    directory fs' /\
    Forall (fun r => isPlainName (rp_to r) = true) log /\
    (map_to_list fs').*2 ≡ₚ (map_to_list fs).*2 /\
    size fs' = size fs /\
    (forall f c, matchHtmlExt f 0 = None -> fs !! f = Some c -> fs' !! f = Some c) /\
    length log <= length files.
Proof.
  intros Hdir Hfiles.
  destruct (processFiles_returns findCanonical findOgUrl findTwitterUrl
              findSavedFromUrl absolutizeAndValidateUrl parseURL
              clock flags files 0 fs []) as [[fs' log] Hrun].
  exists fs', log. split; [done|].
  pose proof Hrun as Hrun'.
  destruct (processFiles_directory clock flags files Hfiles 0 fs [] fs' log
              Hdir ltac:(constructor) Hrun) as [Hdir' Hlog'].
  split; [done|]. split; [done|].
  apply processFiles_contents in Hrun as [Hperm Hlog].
  split; [done|]. split; [|split; [|simpl in Hlog; lia]].
  - rewrite <- !length_map_to_list.
    rewrite <- (length_fmap snd (map_to_list fs')), <- (length_fmap snd (map_to_list fs)).
    by rewrite Hperm.
  - intros f c Hf Hc. by eapply processFiles_frame.
Qed.

(** The URL [extractBestUrl] returns is the cleaned form of one of the four
    candidates, and it returns none only when none of them cleans.  The
    canonical link wins by default and [og:url] under [--no-canonical],
    whenever they clean; the option changes the result only for a page
    whose canonical link cleans and whose [og:url] or [twitter:url] cleans
    as well. *)
Theorem no_canonical_matters_only_with_two_urls (html : jsstring) :
  let clean := cleaned absolutizeAndValidateUrl in
  let best := extractBestUrl findCanonical findOgUrl findTwitterUrl findSavedFromUrl
                absolutizeAndValidateUrl html in
  (forall pc u, best pc = Some u ->
     u <> [] /\
     exists c, c ∈ [findCanonical html; findOgUrl html; findTwitterUrl html;
                    findSavedFromUrl html] /\ clean c = Some u) /\
  (forall pc, best pc = None <->
     clean (findCanonical html) = None /\ clean (findOgUrl html) = None /\
     clean (findTwitterUrl html) = None /\ clean (findSavedFromUrl html) = None) /\
  (forall u, clean (findCanonical html) = Some u -> best true = Some u) /\
  (forall u, clean (findOgUrl html) = Some u -> best false = Some u) /\
  (clean (findCanonical html) = None \/
   (clean (findOgUrl html) = None /\ clean (findTwitterUrl html) = None) ->
   best true = best false).
Proof.
  intros clean best. subst best. unfold extractBestUrl. cbn [firstCleaned].
  fold clean.
  assert (forall c u, clean c = Some u -> u <> []) as Hne.
  { intros c u. subst clean. unfold cleaned. destruct c as [[|x r]|]; try done.
    destruct (absolutizeAndValidateUrl (x :: r)) as [[|y v]|]; try done.
    by intros [= <-]. }
  split.
  { intros pc u H.
    destruct pc; cbn [firstCleaned] in H; fold clean in H;
      repeat match type of H with
             | context [match clean ?c with _ => _ end] =>
                 let E := fresh "E" in
                 destruct (clean c) as [v|] eqn:E;
                 cbv beta iota in H;
                 [injection H as <-; split; [by apply (Hne _ _ E)|];
                  exists c; split; [set_solver|done]|]
             end; discriminate. }
  destruct (clean (findCanonical html)) as [a|] eqn:Ea;
    destruct (clean (findOgUrl html)) as [b|] eqn:Eb;
    destruct (clean (findTwitterUrl html)) as [t|] eqn:Et;
    destruct (clean (findSavedFromUrl html)) as [s|] eqn:Es.
  all: split;
    [intros [|]; cbn [firstCleaned]; fold clean; rewrite ?Ea, ?Eb, ?Et, ?Es;
     (split; [done|by intros (? & ? & ? & ?)])|].
  all: split; [by intros u [= <-]|].
  all: split; [by intros u [= <-]|].
  all: try (by intros _).
  all: by intros [?|[? ?]].
Qed.

End RunProperties.

(** ** The timestamp a name carries *)

Lemma normalizeDatetimeForName_units (dt : jsstring) :
  normalizeDatetimeForName dt = map stampUnit dt.
Proof.
  unfold normalizeDatetimeForName, replaceUnit, normalizeWeirdPunctToAscii.
  rewrite !map_map. done.
Qed.

Lemma matchClasses_units (cs : list (N -> bool)) (s m r : jsstring) :
  matchClasses cs s = Some (m, r) -> Forall2 (fun f c => f c = true) cs m.
Proof.
  revert s m r; induction cs as [|f cs IH]; intros s m r; simpl.
  - intros [= <- _]. constructor.
  - destruct s as [|c s]; [done|]. destruct (f c) eqn:E; [|done].
    destruct (matchClasses cs s) as [[m' r']|] eqn:E'; [|done].
    intros [= <- _]. constructor; [done|]. by eapply IH.
Qed.

Lemma matchClasses_complete (cs : list (N -> bool)) (m r : jsstring) :
  Forall2 (fun f c => f c = true) cs m -> matchClasses cs (m ++ r) = Some (m, r).
Proof.
  induction 1 as [|f c cs m Hc _ IH]; simpl; [done|]. by rewrite Hc, IH.
Qed.

(** A match of the timestamp pattern, unit by unit: the hyphen, the date and
    the time of day, the milliseconds or nothing, the [Z], and the end of
    the name or one extension segment. *)
Lemma matchDatetimeAt_parts (s g : jsstring) :
  matchDatetimeAt s = Some g ->
  exists m1 m2 r,
    s = 45%N :: m1 ++ m2 ++ 90%N :: r /\ g = m1 ++ m2 ++ [90%N] /\
    Forall2 (fun f c => f c = true) dateTimeClasses m1 /\
    (m2 = [] \/ Forall2 (fun f c => f c = true) millisClasses m2) /\
    matchZulu (90%N :: r) = true.
Proof.
  unfold matchDatetimeAt. destruct s as [|c s1]; [done|].
  destruct (isUnit 45 c) eqn:Ec; [|done].
  unfold isUnit in Ec. apply N.eqb_eq in Ec as ->.
  destruct (matchClasses dateTimeClasses s1) as [[m1 r1]|] eqn:E1; [|done].
  pose proof (matchClasses_units _ _ _ _ E1) as U1.
  apply matchClasses_app in E1 as ->.
  assert (forall z, matchZulu z = true -> exists r, z = 90%N :: r) as Hz.
  { intros z Hz. apply matchZulu_shape in Hz as (rest & -> & _). by eexists. }
  destruct (matchClasses millisClasses r1) as [[m2 r2]|] eqn:E2.
  - pose proof (matchClasses_units _ _ _ _ E2) as U2.
    apply matchClasses_app in E2 as ->.
    destruct (matchZulu r2) eqn:Z2.
    + intros [= <-]. destruct (Hz _ Z2) as [r ->].
      exists m1, m2, r. repeat split; try done. by right.
    + destruct (matchZulu (m2 ++ r2)) eqn:Z1; [|done].
      intros [= <-]. destruct (Hz _ Z1) as [r Hr]. rewrite Hr in *.
      exists m1, [], r. repeat split; try done. by left.
  - destruct (matchZulu r1) eqn:Z1; [|done].
    intros [= <-]. destruct (Hz _ Z1) as [r ->].
    exists m1, [], r. repeat split; try done. by left.
Qed.

Lemma matchDatetimeAt_complete (m1 m2 r : jsstring) :
  Forall2 (fun f c => f c = true) dateTimeClasses m1 ->
  (m2 = [] \/ Forall2 (fun f c => f c = true) millisClasses m2) ->
  matchZulu (90%N :: r) = true ->
  matchDatetimeAt (45%N :: m1 ++ m2 ++ 90%N :: r) = Some (m1 ++ m2 ++ [90%N]).
Proof.
  intros U1 U2 Hz. unfold matchDatetimeAt.
  change (isUnit 45 45) with true. cbv iota.
  rewrite (matchClasses_complete _ _ _ U1).
  destruct U2 as [->|U2].
  - cbn [app]. change (matchClasses millisClasses (90%N :: r)) with (@None (jsstring * jsstring)).
    by rewrite Hz.
  - rewrite (matchClasses_complete _ _ _ U2). by rewrite Hz.
Qed.

(** The leftmost match is a match at some position of the name. *)
Lemma matchDatetime_at (s g : jsstring) :
  matchDatetime s = Some g ->
  exists pre s', s = pre ++ s' /\ matchDatetimeAt s' = Some g.
Proof.
  induction s as [|c s IH]; cbn [matchDatetime].
  - destruct (matchDatetimeAt []) eqn:E; [|done]. intros [= <-]. by exists [], [].
  - destruct (matchDatetimeAt (c :: s)) eqn:E.
    + intros [= <-]. by exists [], (c :: s).
    + intros H. destruct (IH H) as (pre & s' & -> & Hs'). by exists (c :: pre), s'.
Qed.

(** Every class of the pattern is kept by the normalisation, which turns
    the units it takes into digits, [-], [T], [_] and [Z] and leaves those
    as they are. *)
Lemma stampUnit_digit (c : N) :
  isDigit c = true -> stampUnit c = c.
Proof.
  unfold isDigit. rewrite andb_true_iff, !N.leb_le. intros [H1 H2].
  unfold stampUnit.
  destruct (N.leb_spec 65280 c); [lia|]. cbn [andb].
  destruct (N.eqb_spec c 58); [lia|]. destruct (N.eqb_spec c 46); [lia|]. done.
Qed.

Lemma stampUnit_classes :
  Forall (fun f : N -> bool =>
            forall c, f c = true ->
                      f (stampUnit c) = true /\ isStampUnit (stampUnit c) = true)
         (dateTimeClasses ++ millisClasses).
Proof.
  assert (forall c, isDigit c = true ->
                    isDigit (stampUnit c) = true /\ isStampUnit (stampUnit c) = true)
    as Hd.
  { intros c Hc. rewrite stampUnit_digit by done. unfold isStampUnit.
    by rewrite Hc. }
  assert (forall x c, isStampUnit x = true -> stampUnit x = x -> isUnit x c = true ->
                      isUnit x (stampUnit c) = true /\ isStampUnit (stampUnit c) = true)
    as Hu.
  { intros x c Hx Hs Hc. unfold isUnit in Hc. apply N.eqb_eq in Hc as ->.
    rewrite Hs. split; [apply N.eqb_refl|done]. }
  assert (forall c, isTimeUnit c = true ->
                    isTimeUnit (stampUnit c) = true /\ isStampUnit (stampUnit c) = true)
    as Ht.
  { intros c Hc. unfold isTimeUnit in Hc.
    apply orb_true_iff in Hc as [[Hc|Hc]%orb_true_iff|Hc].
    - destruct (Hd c Hc) as [H1 H2]. split; [|done]. unfold isTimeUnit.
      by rewrite H1.
    - apply N.eqb_eq in Hc as ->. done.
    - apply N.eqb_eq in Hc as ->. done. }
  unfold dateTimeClasses, millisClasses. cbn [app].
  repeat (constructor;
          [first [exact Hd | exact Ht
                 | intros c Hc; by apply Hu
                 | intros c [Hc|Hc]%orb_true_iff;
                   unfold isUnit in Hc; apply N.eqb_eq in Hc as ->; done]|]).
  constructor.
Qed.

Lemma stampUnit_keeps (cs : list (N -> bool)) (m : jsstring) :
  Forall (fun f : N -> bool =>
            forall c, f c = true ->
                      f (stampUnit c) = true /\ isStampUnit (stampUnit c) = true) cs ->
  Forall2 (fun f c => f c = true) cs m ->
  Forall2 (fun f c => f c = true) cs (map stampUnit m) /\
  Forall (fun c => isStampUnit c = true) (map stampUnit m).
Proof.
  intros Hcs H. revert Hcs. induction H as [|f c cs m Hc _ IH]; intros Hcs.
  - split; constructor.
  - inversion Hcs as [|? ? Hf Hrest]; subst. destruct (IH Hrest) as [H1 H2].
    destruct (Hf c Hc) as [H3 H4]. split; by constructor.
Qed.

(** A stamp unit is left as it is. *)
Lemma stampUnit_id (s : jsstring) :
  Forall (fun c => isStampUnit c = true) s -> normalizeDatetimeForName s = s.
Proof.
  rewrite normalizeDatetimeForName_units.
  induction 1 as [|c s Hc _ IH]; [done|]. cbn [map]. rewrite IH. f_equal.
  unfold isStampUnit in Hc.
  apply orb_true_iff in Hc as [[[[Hc|Hc]%orb_true_iff|Hc]%orb_true_iff|Hc]%orb_true_iff|Hc].
  - by apply stampUnit_digit.
  - apply N.eqb_eq in Hc as ->. done.
  - apply N.eqb_eq in Hc as ->. done.
  - apply N.eqb_eq in Hc as ->. done.
  - apply N.eqb_eq in Hc as ->. done.
Qed.

Lemma Forall2_length_classes (cs : list (N -> bool)) (m : jsstring) :
  Forall2 (fun f c => f c = true) cs m -> length m = length cs.
Proof. intros H. symmetry. by eapply Forall2_length. Qed.

(** When a name carries a timestamp, it is that timestamp, normalised, that
    goes into the new name, whatever the clock says.  It is 20 or 24 units
    long, made of digits, [-], [T], [_] and [Z] only; behind a hyphen the
    pattern reads it back as it is, and normalising it again changes
    nothing. *)
Theorem carried_timestamp_is_canonical (nowIso name g : jsstring) :
  matchDatetime name = Some g ->
  let dt := normalizeDatetimeForName g in
  extractOrMakeDatetimeSuffix nowIso name = dt /\
  (length dt = 20 \/ length dt = 24) /\
  Forall (fun c => isStampUnit c = true) dt /\
  matchDatetimeAt (45%N :: dt) = Some dt /\
  normalizeDatetimeForName dt = dt.
Proof.
  intros Hm dt.
  destruct (matchDatetime_at _ _ Hm) as (pre & s' & _ & Hat).
  destruct (matchDatetimeAt_parts _ _ Hat) as (m1 & m2 & r & _ & Hg & U1 & U2 & _).
  pose proof stampUnit_classes as Hcl. apply Forall_app in Hcl as [Hc1 Hc2].
  destruct (stampUnit_keeps _ _ Hc1 U1) as [V1 S1].
  assert ((m2 = [] \/ Forall2 (fun f c => f c = true) millisClasses (map stampUnit m2)) /\
          Forall (fun c => isStampUnit c = true) (map stampUnit m2)) as [V2 S2].
  { destruct U2 as [->|U2]; [split; [by left|constructor]|].
    destruct (stampUnit_keeps _ _ Hc2 U2) as [? ?]. split; [by right|done]. }
  assert (dt = map stampUnit m1 ++ map stampUnit m2 ++ [90%N]) as Hdt.
  { subst dt. rewrite normalizeDatetimeForName_units, Hg. by rewrite !map_app. }
  assert (Forall (fun c => isStampUnit c = true) dt) as Hs.
  { rewrite Hdt. repeat (apply Forall_app; split); try done. by repeat constructor. }
  split; [|split; [|split; [done|split]]].
  - unfold extractOrMakeDatetimeSuffix. rewrite Hm.
    destruct g as [|c g]; [by destruct m1, m2|done].
  - rewrite Hdt, !length_app, !length_map.
    rewrite (Forall2_length_classes _ _ U1).
    destruct U2 as [->|U2]; [left; done|right].
    by rewrite (Forall2_length_classes _ _ U2).
  - rewrite Hdt.
    assert (map stampUnit m2 = [] \/
            Forall2 (fun f c => f c = true) millisClasses (map stampUnit m2)) as V2'.
    { destruct V2 as [->|?]; [by left|by right]. }
    pose proof (matchDatetimeAt_complete _ _ [] V1 V2' eq_refl) as H.
    done.
  - by apply stampUnit_id.
Qed.

(** The two replacements of [toDatetimeIsoForName] leave a digit alone. *)
Lemma isoUnit_digit (x : N) :
  isDigit x = true ->
  (if N.eqb (if N.eqb x 58 then 95%N else x) 46 then 95%N
   else if N.eqb x 58 then 95%N else x) = x.
Proof.
  unfold isDigit. rewrite andb_true_iff, !N.leb_le. intros [H1 H2].
  destruct (N.eqb_spec x 58); [lia|]. destruct (N.eqb_spec x 46); [lia|]. done.
Qed.

(** When a name carries no timestamp, the suffix is made from the clock.
    For an instant in the form [toISOString] gives, it is 24 units long,
    made of digits, [-], [T], [_] and [Z] only, without two underscores
    side by side, and the pattern reads it back behind a hyphen. *)
Theorem fresh_timestamp_is_canonical (nowIso name : jsstring) :
  matchDatetime name = None ->
  Forall2 (fun f c => f c = true) isoInstantClasses nowIso ->
  let dt := extractOrMakeDatetimeSuffix nowIso name in
  dt = toDatetimeIsoForName nowIso /\
  length dt = 24 /\
  Forall (fun c => isStampUnit c = true) dt /\
  noDoubleUnderscore dt /\
  matchDatetimeAt (45%N :: dt) = Some dt.
Proof.
  intros Hnone Hiso dt. subst dt. unfold extractOrMakeDatetimeSuffix.
  rewrite Hnone. split; [done|].
  unfold isoInstantClasses in Hiso.
  repeat match type of Hiso with
         | Forall2 _ (_ :: _) _ =>
             let x := fresh "x" in
             let k := fresh "k" in
             let Hx := fresh "Hx" in
             apply Forall2_cons_inv_l in Hiso as (x & k & Hx & Hiso & ->)
         end.
  apply Forall2_nil_inv_l in Hiso as ->.
  unfold isUnit in *.
  repeat match goal with
         | H : N.eqb ?x _ = true |- _ => apply N.eqb_eq in H; subst x
         end.
  unfold toDatetimeIsoForName, replaceUnit. cbn [map].
  repeat match goal with
         | |- context [N.eqb ?x 58] => is_var x; rewrite !(isoUnit_digit x) by assumption
         end.
  change (if N.eqb (if N.eqb 45 58 then 95 else 45) 46 then 95
          else if N.eqb 45 58 then 95 else 45)%N with 45%N.
  change (if N.eqb (if N.eqb 84 58 then 95 else 84) 46 then 95
          else if N.eqb 84 58 then 95 else 84)%N with 84%N.
  change (if N.eqb (if N.eqb 58 58 then 95 else 58) 46 then 95
          else if N.eqb 58 58 then 95 else 58)%N with 95%N.
  change (if N.eqb (if N.eqb 46 58 then 95 else 46) 46 then 95
          else if N.eqb 46 58 then 95 else 46)%N with 95%N.
  change (if N.eqb (if N.eqb 90 58 then 95 else 90) 46 then 95
          else if N.eqb 90 58 then 95 else 90)%N with 90%N.
  assert (forall d, isDigit d = true -> isStampUnit d = true) as Hs
      by (intros d Hd; unfold isStampUnit; by rewrite Hd).
  assert (forall d, isDigit d = true -> isTimeUnit d = true) as Ht
      by (intros d Hd; unfold isTimeUnit; by rewrite Hd).
  assert (forall d, isDigit d = true -> d <> 95%N) as Hu
      by (intros d Hd ->; by vm_compute in Hd).
  split; [done|]. split; [|split].
  - repeat (constructor; [first [by apply Hs | reflexivity]|]). constructor.
  - cbn [noDoubleUnderscore].
    repeat split; intros [E1 E2]; try discriminate E1; try discriminate E2;
      first [by eapply Hu; [|exact E1] | by eapply Hu; [|exact E2]].
  - match goal with
    | |- matchDatetimeAt (_ :: ?a :: ?b :: ?c :: ?d :: ?e :: ?f :: ?g :: ?h :: ?i
                            :: ?j :: ?k :: ?l :: ?m :: ?n :: ?o :: ?p :: ?q :: ?r
                            :: ?s :: ?t) = _ =>
        pose proof (matchDatetimeAt_complete
                      [a; b; c; d; e; f; g; h; i; j; k; l; m; n; o; p; q; r; s]
                      [95%N; nth 1 t 0%N; nth 2 t 0%N; nth 3 t 0%N] []) as Hm
    end.
    cbn [nth app] in Hm. apply Hm; [|right|done].
    + unfold dateTimeClasses.
      repeat (constructor; [first [assumption | by apply Ht | reflexivity]|]).
      constructor.
    + unfold millisClasses.
      repeat (constructor; [first [assumption | reflexivity]|]). constructor.
Qed.

(** ** A canonical name is kept by a second run *)

Lemma noDoubleUnderscore_app (a b : jsstring) :
  noDoubleUnderscore a -> noDoubleUnderscore b -> head b <> Some 95%N ->
  noDoubleUnderscore (a ++ b).
Proof.
  intros Ha Hb Hh. induction a as [|c a IH]; [done|]. cbn [app].
  apply noDoubleUnderscore_cons.
  - apply IH. by eapply noDoubleUnderscore_tail.
  - intros ->. destruct a as [|d a]; [done|]. simpl. intros [= ->].
    by destruct Ha as [[] _].
Qed.

Lemma noDoubleUnderscore_without (s : jsstring) :
  Forall (fun c => c <> 95%N) s -> noDoubleUnderscore s.
Proof.
  induction 1 as [|c s Hc _ IH]; [done|].
  apply noDoubleUnderscore_cons; [done|]. by intros ->.
Qed.

Lemma collapseUnderscores_app (a : jsstring) (c : N) (t : jsstring) :
  c <> 95%N -> noDoubleUnderscore t ->
  collapseUnderscores (a ++ c :: t) = collapseUnderscores a ++ c :: t.
Proof.
  intros Hc Ht.
  assert (isUnit 95 c = false) as Ec by (by apply N.eqb_neq).
  assert (collapseUnderscores (c :: t) = c :: t) as H0.
  { apply collapseUnderscores_id, noDoubleUnderscore_cons; [done|]. by intros ->. }
  induction a as [|x a IH]; [done|].
  cbn [app collapseUnderscores].
  destruct (isUnit 95 x) eqn:E; [|by rewrite IH].
  destruct a as [|d a].
  - cbn [app]. by rewrite Ec, H0.
  - cbn [app] in *. destruct (isUnit 95 d); by rewrite IH.
Qed.

Lemma dropUnderscores_app (a : jsstring) (c : N) (t : jsstring) :
  c <> 95%N -> dropUnderscores (a ++ c :: t) = dropUnderscores a ++ c :: t.
Proof.
  intros Hc. assert (isUnit 95 c = false) as Ec by (by apply N.eqb_neq).
  induction a as [|x a IH]; cbn [app dropUnderscores].
  - by rewrite Ec.
  - by destruct (isUnit 95 x).
Qed.

(** Sanitising leaves the end of a name alone when that end starts with a
    hyphen and holds nothing to replace or to collapse. *)
Lemma sanitizeFilename_tail (a t : jsstring) :
  Forall (fun c => isInvalidFilenameChar c = false /\
                   assoc c FULLWIDTH_TO_ASCII = None) t ->
  noDoubleUnderscore t ->
  exists y, sanitizeFilename (a ++ 45%N :: t) = y ++ 45%N :: t.
Proof.
  intros Hclean Hnd. rewrite sanitizeFilename_steps.
  assert (Forall (fun c => isInvalidFilenameChar c = false /\
                           assoc c FULLWIDTH_TO_ASCII = None) (45%N :: t)) as Hc
      by (by constructor).
  unfold normalizeWeirdPunctToAscii at 1. rewrite map_app.
  fold (normalizeWeirdPunctToAscii a). fold (normalizeWeirdPunctToAscii (45%N :: t)).
  rewrite (normalizeWeirdPunctToAscii_id (45%N :: t))
    by (eapply Forall_impl; [exact Hc|]; by intros c [_ ?]).
  rewrite map_app.
  rewrite (replaceInvalid_id (45%N :: t))
    by (eapply Forall_impl; [exact Hc|]; by intros c [? _]).
  rewrite collapseUnderscores_app, dropUnderscores_app by done.
  by eexists.
Qed.

Lemma isInvalidFilenameChar_false (c : N) :
  (48 <= c <= 57 \/ 65 <= c <= 90 \/ 97 <= c <= 122 \/ c = 45 \/ c = 46 \/ c = 95)%N ->
  isInvalidFilenameChar c = false /\ assoc c FULLWIDTH_TO_ASCII = None.
Proof.
  intros H. split; [|apply assoc_low; lia].
  unfold isInvalidFilenameChar.
  rewrite !orb_false_iff, !N.eqb_neq, N.leb_gt. lia.
Qed.

Lemma isStampUnit_spec (c : N) :
  isStampUnit c = true <-> (48 <= c <= 57 \/ c = 45 \/ c = 84 \/ c = 95 \/ c = 90)%N.
Proof.
  unfold isStampUnit, isDigit.
  rewrite !orb_true_iff, andb_true_iff, !N.leb_le, !N.eqb_eq. lia.
Qed.

(** The extensions [.html] and [.zip], in any case: a dot and letters, the
    last of which is not a [Z]; no longer end of a name that has a [Z]
    before such an extension is an extension of a snapshot. *)
Lemma plainExt_shape (ext : jsstring) :
  toLowerCase ext = str ".html" \/ toLowerCase ext = str ".zip" ->
  exists e,
    ext = 46%N :: e /\ e <> [] /\
    Forall (fun c => (65 <= c <= 90 \/ 97 <= c <= 122)%N) e /\
    last e <> Some 90%N /\
    isHtmlExt ext = true /\
    forall b, isHtmlExt (b ++ 90%N :: ext) = false.
Proof.
  assert (forall c k, lowerUnit c = k -> (97 <= k <= 122)%N ->
                      (65 <= c <= 90 \/ 97 <= c <= 122)%N /\ (k <> 122%N -> c <> 90%N))
    as Hletter.
  { intros c k <- Hk. unfold lowerUnit in *.
    destruct (N.leb_spec 65 c), (N.leb_spec c 90); cbn [andb] in *; lia. }
  assert (forall c, lowerUnit c = 46%N -> c = 46%N) as Hdot.
  { intros c. unfold lowerUnit.
    destruct (N.leb_spec 65 c), (N.leb_spec c 90); cbn [andb]; lia. }
  assert (forall b l, toLowerCase ext = l ->
            existsb (eqb (toLowerCase b ++ 122%N :: l)) htmlExts = false ->
            isHtmlExt (b ++ 90%N :: ext) = false) as Hlonger.
  { intros b l Hl H. unfold isHtmlExt. rewrite toLowerCase_app.
    cbn [toLowerCase map]. fold (toLowerCase ext). by rewrite Hl. }
  assert (forall (x : jsstring) (l e : jsstring),
            rev l <> take (length l) (rev e) -> eqb (x ++ l) e = false) as Hneq.
  { intros x l e Hne. apply bool_decide_eq_false. intros <-. apply Hne.
    rewrite rev_app_distr, take_app_length'; [done|]. by rewrite length_rev. }
  intros [H|H].
  - pose proof H as H'. unfold toLowerCase in H'.
    destruct ext as [|c0 [|c1 [|c2 [|c3 [|c4 [|c5 ext]]]]]]; try discriminate H'.
    cbn [map] in H'. change (str ".html") with [46; 104; 116; 109; 108]%N in H'.
    injection H' as H0 H1 H2 H3 H4.
    apply Hdot in H0 as ->.
    apply Hletter in H1 as [H1 _], H2 as [H2 _], H3 as [H3 _], H4 as [H4 H4']; try lia.
    exists [c1; c2; c3; c4]. split; [done|]. split; [done|].
    split; [repeat (constructor; [assumption|]); constructor|].
    split; [|split].
    + simpl. intros [= ->]. by apply H4'.
    + unfold isHtmlExt. by rewrite H.
    + intros b. apply (Hlonger b _ H). unfold htmlExts. cbn [existsb].
      rewrite !Hneq; [done|by vm_compute..].
  - pose proof H as H'. unfold toLowerCase in H'.
    destruct ext as [|c0 [|c1 [|c2 [|c3 [|c4 ext]]]]]; try discriminate H'.
    cbn [map] in H'. change (str ".zip") with [46; 122; 105; 112]%N in H'.
    injection H' as H0 H1 H2 H3.
    apply Hdot in H0 as ->.
    apply Hletter in H1 as [H1 _], H2 as [H2 _], H3 as [H3 H3']; try lia.
    exists [c1; c2; c3]. split; [done|]. split; [done|].
    split; [repeat (constructor; [assumption|]); constructor|].
    split; [|split].
    + simpl. intros [= ->]. by apply H3'.
    + unfold isHtmlExt. by rewrite H.
    + intros b. apply (Hlonger b _ H). unfold htmlExts. cbn [existsb].
      rewrite !Hneq; [done|by vm_compute..].
Qed.

(** The text before the last dot is determined by the whole. *)
Lemma last_dot_unique (a a' e e' : jsstring) :
  Forall (fun c => c <> 46%N) e -> Forall (fun c => c <> 46%N) e' ->
  a ++ 46%N :: e = a' ++ 46%N :: e' -> a = a'.
Proof.
  intros He He' H. apply (f_equal (@rev N)) in H.
  rewrite !rev_app_distr in H. cbn [rev] in H. rewrite <- !app_assoc in H.
  cbn [app] in H. apply first_dot_unique in H.
  - apply (f_equal (@rev N)) in H. by rewrite !rev_involutive in H.
  - apply Forall_forall. intros x Hx%list_elem_of_In%in_rev%list_elem_of_In.
    rewrite Forall_forall in He. by apply He.
  - apply Forall_forall. intros x Hx%list_elem_of_In%in_rev%list_elem_of_In.
    rewrite Forall_forall in He'. by apply He'.
Qed.

(** In a name that ends with a timestamp and a plain extension, the pattern
    matches nowhere before the hyphen of that timestamp. *)
Lemma matchDatetimeAt_earlier (b dt ext : jsstring) :
  b <> [] ->
  matchDatetimeAt (45%N :: dt) = Some dt ->
  toLowerCase ext = str ".html" \/ toLowerCase ext = str ".zip" ->
  matchDatetimeAt (b ++ 45%N :: dt ++ ext) = None.
Proof.
  intros Hb Hdt Hext.
  destruct (matchDatetimeAt (b ++ 45%N :: dt ++ ext)) as [g|] eqn:E; [exfalso|done].
  apply matchDatetimeAt_parts in Hdt as (m1 & m2 & r & _ & Hg & U1 & U2 & _).
  apply matchDatetimeAt_parts in E as (m1' & m2' & r' & Hs & _ & U1' & U2' & Hz).
  apply plainExt_shape in Hext as (e & -> & He & Hletters & Hlast & _ & _).
  assert (Forall (fun c => c <> 46%N) e) as Hnodot
      by (eapply Forall_impl; [exact Hletters|]; intros c ?; simpl in *; lia).
  apply matchZulu_shape in Hz as (rest & [= <-] & [->|(e' & -> & _ & Hnodot')]).
  - (* the name would end in Z *)
    assert (last (b ++ 45%N :: dt ++ 46%N :: e) = last e) as HL.
    { rewrite last_app_cons, (app_comm_cons dt (46%N :: e) 45%N), last_app_cons.
      destruct e; [done|]. apply last_cons_cons. }
    assert (last (45%N :: m1' ++ m2' ++ [90%N]) = Some 90%N) as HR.
    { rewrite app_comm_cons, app_assoc. apply last_snoc. }
    rewrite Hs, HR in HL. congruence.
  - (* the two matches end at the same Z *)
    rewrite Hg in Hs.
    assert ((b ++ 45%N :: m1 ++ m2 ++ [90%N]) ++ 46%N :: e
            = (45%N :: m1' ++ m2' ++ [90%N]) ++ 46%N :: e') as Hs'.
    { rewrite <- !app_assoc. cbn [app]. rewrite <- !app_assoc in Hs. cbn [app] in Hs.
      rewrite <- !app_assoc. exact Hs. }
    apply last_dot_unique in Hs'; [|done..].
    pose proof (Forall2_length_classes _ _ U1) as L1.
    pose proof (Forall2_length_classes _ _ U1') as L1'.
    assert (length m2 = 0 \/ length m2 = 4) as L2.
    { destruct U2 as [->|U2]; [by left|right]. by apply Forall2_length_classes in U2. }
    assert (length m2' = 0 \/ length m2' = 4) as L2'.
    { destruct U2' as [->|U2']; [by left|right]. by apply Forall2_length_classes in U2'. }
    pose proof (f_equal length Hs') as HL.
    rewrite !length_app in HL. cbn [length] in HL. rewrite !length_app in HL.
    cbn [length] in HL.
    destruct b as [|b0 [|b1 [|b2 [|b3 [|b4 b]]]]]; cbn [length] in HL; try done;
      try lia.
    unfold dateTimeClasses in U1'.
    apply Forall2_cons_inv_l in U1' as (d0 & k0 & _ & U1' & ->).
    apply Forall2_cons_inv_l in U1' as (d1 & k1 & _ & U1' & ->).
    apply Forall2_cons_inv_l in U1' as (d2 & k2 & _ & U1' & ->).
    apply Forall2_cons_inv_l in U1' as (d3 & k3 & Hd3 & U1' & ->).
    cbn [app] in Hs'. injection Hs' as _ _ _ _ H45 _. by rewrite <- H45 in Hd3.
Qed.

Lemma matchDatetime_skip (pre s : jsstring) :
  (forall a b, pre = a ++ b -> b <> [] -> matchDatetimeAt (b ++ s) = None) ->
  matchDatetime (pre ++ s) = matchDatetime s.
Proof.
  induction pre as [|x pre IH]; intros H; [done|].
  cbn [app matchDatetime].
  pose proof (H [] (x :: pre) eq_refl ltac:(done)) as H0. cbn [app] in H0.
  rewrite H0. apply IH. intros a b -> Hb. by apply (H (x :: a) b).
Qed.

Lemma matchHtmlExt_skip (pre s : jsstring) (p : nat) :
  (forall a b, pre = a ++ b -> b <> [] -> isHtmlExt (b ++ s) = false) ->
  matchHtmlExt (pre ++ s) p = matchHtmlExt s (p + length pre).
Proof.
  revert p; induction pre as [|x pre IH]; intros p H.
  - cbn [app length]. by rewrite Nat.add_0_r.
  - cbn [app matchHtmlExt length].
    pose proof (H [] (x :: pre) eq_refl ltac:(done)) as H0. cbn [app] in H0.
    rewrite H0, IH; [f_equal; lia|]. intros a b -> Hb. by apply (H (x :: a) b).
Qed.

(** What ends a list that ends in [x] ends in [x]. *)
Lemma suffix_snoc (a b l : jsstring) (x : N) :
  l ++ [x] = a ++ b -> b <> [] -> exists b', b = b' ++ [x].
Proof.
  intros H Hb. destruct (exists_last Hb) as (b' & y & ->).
  rewrite app_assoc in H. apply app_inj_tail in H as [_ <-]. by exists b'.
Qed.

Section StableName.

Variable parseURL : jsstring -> option URL.

(** A name composed for a snapshot with the extension [.html] or [.zip] is
    kept by every later run, whatever its clock says: the pattern finds the
    timestamp of the name again, and nothing but that timestamp; the same
    extension is found; the name composed from them is the name itself; and
    [maybeFixFile] leaves the file alone when its page still names the same
    URL.  What is asked of the timestamp, that the pattern reads it back
    behind a hyphen, that it is made of digits, [-], [T], [_] and [Z], and
    that no two underscores stand side by side in it, holds of a timestamp
    made from an instant in the form [toISOString] gives. *)
Theorem canonical_name_is_kept (nowIso later originalBase urlStr newBase : jsstring) :
  composeName parseURL nowIso originalBase urlStr = Ret newBase ->
  let dt := extractOrMakeDatetimeSuffix nowIso originalBase in
  matchDatetimeAt (45%N :: dt) = Some dt ->
  Forall (fun c => isStampUnit c = true) dt ->
  noDoubleUnderscore dt ->
  (forall p m0, matchHtmlExt originalBase 0 = Some (p, m0) ->
                toLowerCase m0 = str ".html" \/ toLowerCase m0 = str ".zip") ->
  extractOrMakeDatetimeSuffix later newBase = dt /\
  (exists p, matchHtmlExt newBase 0
             = Some (p, match matchHtmlExt originalBase 0 with
                        | Some (_, m0) => m0
                        | None => str ".html"
                        end)) /\
  composeName parseURL later newBase urlStr = Ret newBase /\
  (forall findCanonical findOgUrl findTwitterUrl findSavedFromUrl
          absolutizeAndValidateUrl (flags : Flags) (fs : FS) (html : jsstring),
     fs !! newBase = Some html ->
     extractBestUrl findCanonical findOgUrl findTwitterUrl findSavedFromUrl
                    absolutizeAndValidateUrl html (preferCanonical flags)
     = Some urlStr ->
     maybeFixFile findCanonical findOgUrl findTwitterUrl findSavedFromUrl
                  absolutizeAndValidateUrl parseURL later flags fs newBase
     = Ret (fs, None)).
Proof.
  intros Hcompose dt Hreads Hunits Hnd Hplain.
  unfold composeName, flattenUrl in Hcompose.
  destruct (parseURL urlStr) as [u|] eqn:Hu; [|done].
  fold dt in Hcompose.
  apply (f_equal (fun r => match r with Ret x => x | _ => [] end)) in Hcompose.
  cbv beta iota in Hcompose. rename Hcompose into Hname.
  set (ext := match matchHtmlExt originalBase 0 with
              | Some (_, m0) => m0
              | None => str ".html"
              end) in *.
  assert (toLowerCase ext = str ".html" \/ toLowerCase ext = str ".zip") as Hext.
  { subst ext. destruct (matchHtmlExt originalBase 0) as [[p m0]|] eqn:E.
    - by eapply Hplain.
    - by left. }
  destruct (plainExt_shape ext Hext) as (e & He & Hne & Hletters & _ & Hhtml & Hlonger).
  (* the timestamp and the extension survive the sanitising *)
  assert (exists y, newBase = y ++ 45%N :: dt ++ ext) as [y Hy].
  { rewrite <- Hname. change (str "-") with [45%N]. cbn [app].
    apply sanitizeFilename_tail.
    - apply Forall_app. split.
      + eapply Forall_impl; [exact Hunits|]. intros c Hc.
        apply isStampUnit_spec in Hc. apply isInvalidFilenameChar_false. lia.
      + rewrite He. constructor; [by apply isInvalidFilenameChar_false; lia|].
        eapply Forall_impl; [exact Hletters|]. intros c Hc.
        apply isInvalidFilenameChar_false. simpl in Hc. lia.
    - apply noDoubleUnderscore_app; [done| |by rewrite He].
      apply noDoubleUnderscore_without. rewrite He. constructor; [done|].
      eapply Forall_impl; [exact Hletters|]. intros c Hc. simpl in Hc. lia. }
  assert (exists dt0, dt = dt0 ++ [90%N]) as [dt0 Hdt0].
  { apply matchDatetimeAt_parts in Hreads as (m1 & m2 & r & _ & -> & _).
    exists (m1 ++ m2). by rewrite <- app_assoc. }
  assert (matchDatetime newBase = Some dt) as Hmatch.
  { rewrite Hy. rewrite matchDatetime_skip.
    - assert (matchDatetimeAt (45%N :: dt ++ ext) = Some dt) as Hat.
      { apply matchDatetimeAt_parts in Hreads
          as (m1 & m2 & r & [= Hs] & Hg & U1 & U2 & _).
        rewrite Hg in Hs. apply app_inv_head, app_inv_head in Hs.
        injection Hs as <-. rewrite Hg, <- !app_assoc. cbn [app].
        apply matchDatetimeAt_complete; [done..|].
        rewrite He. destruct e as [|c e]; [done|]. cbn [matchZulu].
        change (isUnit 90 90) with true. change (isUnit 46 46) with true.
        cbn [andb negb]. unfold eqb. rewrite bool_decide_eq_false_2 by done.
        cbn [negb andb]. apply forallb_forall. intros x Hx%list_elem_of_In.
        rewrite Forall_forall in Hletters. apply Hletters in Hx.
        apply negb_true_iff, N.eqb_neq. simpl in Hx. lia. }
      destruct dt as [|c dt]; [by destruct dt0|]. cbn [app matchDatetime].
      cbn [app] in Hat. by rewrite Hat.
    - intros a b _ Hb. by apply matchDatetimeAt_earlier. }
  assert (extractOrMakeDatetimeSuffix later newBase = dt) as Hsuffix.
  { unfold extractOrMakeDatetimeSuffix. rewrite Hmatch.
    destruct dt as [|c dt]; [by destruct dt0|]. by apply stampUnit_id. }
  assert (matchHtmlExt newBase 0 = Some (length (y ++ 45%N :: dt), ext)) as Hfound.
  { rewrite Hy.
    replace (y ++ 45%N :: dt ++ ext) with ((y ++ 45%N :: dt) ++ ext)
      by (by rewrite <- app_assoc).
    rewrite matchHtmlExt_skip.
    - destruct ext as [|c ext']; [done|]. cbn [matchHtmlExt]. by rewrite Hhtml.
    - intros a b Hab Hb.
      assert ((y ++ 45%N :: dt0) ++ [90%N] = a ++ b) as Hab'
          by (rewrite <- Hab, Hdt0, <- app_assoc; done).
      destruct (suffix_snoc _ _ _ _ Hab' Hb) as [b' ->].
      rewrite <- app_assoc. apply Hlonger. }
  assert (composeName parseURL later newBase urlStr = Ret newBase) as Hagain.
  { unfold composeName, flattenUrl. rewrite Hu, Hsuffix, Hfound. by rewrite Hname. }
  split; [done|]. split; [by eexists|]. split; [done|].
  intros fC fO fT fS av flags fs html Hfile Hbest.
  unfold maybeFixFile, desiredName. rewrite Hfile, Hbest, Hagain.
  unfold eqb. by rewrite bool_decide_eq_true_2.
Qed.

End StableName.

(** ** Extraction of the images to asset files *)

(** *** Decimal numerals *)

(** The numeral of a positive number does not start with a zero. *)
Lemma pretty_N_go_leading (x : N) :
  (0 < x)%N ->
  forall s, exists c r, str (pretty_N_go x s) = c :: r /\ c <> 48%N.
Proof.
  induction (N.lt_wf_0 x) as [x _ IH]; intros Hx s.
  rewrite pretty_N_go_step by done.
  destruct (N.eq_0_gt_0_cases (x `div` 10)) as [E|E].
  - rewrite E, pretty_N_go_0. cbn [str]. eexists _, _. split; [done|].
    assert (x < 10)%N as Hlt by (by apply N.div_small_iff in E).
    rewrite N.mod_small by done.
    assert (x = 1 \/ x = 2 \/ x = 3 \/ x = 4 \/ x = 5 \/ x = 6 \/ x = 7 \/ x = 8
            \/ x = 9)%N as Hcases by lia.
    destruct Hcases as [->|[->|[->|[->|[->|[->|[->|[->| ->]]]]]]]]; done.
  - apply IH; [by apply N.div_lt|done].
Qed.

Lemma ofNat_leading (n : nat) :
  exists c r, ofNat n = c :: r /\ (c = 48%N -> r = []).
Proof.
  unfold ofNat, pretty, pretty_nat, pretty, pretty_N.
  case_decide; [by exists 48%N, []|].
  destruct (pretty_N_go_leading (N.of_nat n) ltac:(lia) "") as (c & r & -> & Hc).
  by exists c, r.
Qed.

(** Padded to four digits, different numbers still have different
    numerals. *)
Lemma padStart4_inj (n m : nat) :
  padStart4 (ofNat n) = padStart4 (ofNat m) -> n = m.
Proof.
  assert (forall a b k,
            (exists c r, a = c :: r /\ (c = 48%N -> r = [])) -> b <> [] ->
            a = replicate (S k) 48%N ++ b -> False) as Hzero.
  { intros a b k (c & r & -> & Hc) Hb. cbn [replicate app]. intros [= -> Hr].
    rewrite (Hc eq_refl) in Hr. by destruct (replicate k 48%N), b. }
  assert (forall n, ofNat n <> []) as Hne
      by (intros k; destruct (ofNat_leading k) as (c & r & -> & _); done).
  unfold padStart4. intros H.
  assert (4 - length (ofNat n) = 4 - length (ofNat m)
          \/ 4 - length (ofNat n) < 4 - length (ofNat m)
          \/ 4 - length (ofNat m) < 4 - length (ofNat n)) as [E|[E|E]] by lia.
  - rewrite E in H. by apply app_inv_head, ofNat_inj in H.
  - exfalso.
    replace (4 - length (ofNat m))
      with ((4 - length (ofNat n)) + S (4 - length (ofNat m) - S (4 - length (ofNat n))))
      in H by lia.
    rewrite replicate_add, <- app_assoc in H. apply app_inv_head in H.
    eapply (Hzero (ofNat n)); [apply ofNat_leading|apply (Hne m)|exact H].
  - exfalso.
    replace (4 - length (ofNat n))
      with ((4 - length (ofNat m)) + S (4 - length (ofNat n) - S (4 - length (ofNat m))))
      in H by lia.
    rewrite replicate_add, <- app_assoc in H. apply app_inv_head in H.
    eapply (Hzero (ofNat m)); [apply ofNat_leading|apply (Hne n)|symmetry; exact H].
Qed.

(** The text before the first hyphen, and what follows it, are determined
    by the whole. *)
Lemma first_hyphen_unique (l1 l2 t1 t2 : jsstring) :
  Forall (fun c => c <> 45%N) l1 -> Forall (fun c => c <> 45%N) l2 ->
  l1 ++ 45%N :: t1 = l2 ++ 45%N :: t2 -> l1 = l2.
Proof.
  revert l2; induction l1 as [|x l1 IH]; intros [|y l2] H1 H2; simpl.
  - done.
  - intros [= <- _]. by inversion H2.
  - intros [= -> _]. by inversion H1.
  - intros [= -> H]. inversion H1; inversion H2; subst. f_equal. by eapply IH.
Qed.

(** The number in an asset name is determined by the name. *)
Lemma assetName_inj (n m : nat) (sha sha' ext ext' : jsstring) :
  assetName n sha ext = assetName m sha' ext' -> n = m.
Proof.
  unfold assetName. intros H. apply app_inv_head in H.
  change (str "-") with [45%N] in H. cbn [app] in H.
  apply padStart4_inj.
  assert (forall k, Forall (fun c => c <> 45%N) (padStart4 (ofNat k))) as Hd.
  { intros k. unfold padStart4. apply Forall_app. split.
    - apply Forall_forall. intros c Hc%elem_of_replicate. by destruct Hc as [-> _].
    - eapply Forall_impl; [apply ofNat_digits|]. intros c Hc ->. done. }
  by eapply first_hyphen_unique.
Qed.

(** *** One asset for each content *)

Lemma truthy_Some (v : option jsstring) (p : jsstring) :
  truthy v = Some p -> v = Some p /\ p <> [].
Proof. destruct v as [[|c r]|]; simpl; try done. by intros [= <-]. Qed.

Lemma replaceBackslashPairs_nonempty (s : jsstring) :
  s <> [] -> replaceBackslashPairs s <> [].
Proof.
  destruct s as [|c [|d r]]; [done|done|]. intros _. cbn [replaceBackslashPairs].
  by destruct (_ && _)%N.
Qed.

Section ExtractProperties.

Variable GIF_WEBP : bool.
Variable decodeBase64 : jsstring -> Buffer.
Variable sha16 : Buffer -> jsstring.
Variable sharp : job -> option Buffer.
Variable canWrite : jsstring -> Buffer -> bool.
Variable dataImageMatches : jsstring -> list found.

#[local] Abbreviation contentOf := (Compactor.contentOf decodeBase64 sha16).
#[local] Abbreviation extractOne :=
  (Compactor.extractOne GIF_WEBP decodeBase64 sha16 sharp canWrite).
#[local] Abbreviation extractImagesToAssets :=
  (Compactor.extractImagesToAssets GIF_WEBP decodeBase64 sha16 sharp canWrite
     dataImageMatches).
#[local] Abbreviation extractInvariant :=
  (Compactor.extractInvariant canWrite contentOf).

Lemma extractOne_invariant html slug q w done st m :
  extractInvariant html slug done st ->
  extractInvariant html slug (done ++ [m]) (extractOne html slug q w st m).2.
Proof.
  intros (Hsize & Hlen & Hne & Hnames & Hserved).
  unfold Compactor.extractOne. fold (contentOf m).
  destruct (truthy (a_cache st !! contentOf m)) as [p|] eqn:Ht.
  - apply truthy_Some in Ht as [Hp _]. cbn [snd].
    unfold Compactor.extractInvariant.
    cbn [a_cache a_extracted a_disk a_urls a_written].
    split; [done|]. split; [done|]. split; [done|]. split; [done|].
    apply Forall2_app; [done|]. constructor; [|constructor]. right. by exists p.
  - assert (a_cache st !! contentOf m = None) as Hmiss.
    { destruct (a_cache st !! contentOf m) as [[|c r]|] eqn:E; [|done|done].
      by destruct (Hne _ _ E). }
    destruct (converted _ _ _ _ _ _) as [outBuf ext].
    destruct (canWrite _ outBuf) eqn:Hw; cbn [snd].
    + unfold Compactor.extractInvariant.
      cbn [a_cache a_extracted a_disk a_urls a_written].
      split; [|split; [|split; [|split]]].
      * rewrite map_size_insert_None by done. by rewrite Hsize.
      * rewrite length_app. simpl. lia.
      * intros sha p. destruct (decide (sha = contentOf m)) as [->|Hs].
        -- rewrite lookup_insert_eq. intros Hp. apply (inj Some) in Hp. subst p.
           apply replaceBackslashPairs_nonempty. unfold joinPath, ASSET_ROOT. done.
        -- rewrite lookup_insert_ne by done. apply Hne.
      * intros n path content H.
        apply lookup_app_Some in H as [H|[Hge H]].
        -- destruct (Hnames _ _ _ H) as [(sha & ext' & ->) Hdisk].
           split; [by eexists _, _|].
           rewrite lookup_insert_ne; [done|].
           intros E. apply app_inv_head, app_inv_head, assetName_inj in E.
           apply lookup_lt_Some in H. lia.
        -- destruct (n - length (a_written st)) as [|k] eqn:Ek; [|by destruct k].
           simpl in H. injection H as <- <-.
           assert (n = a_extracted st) as -> by lia.
           split; [by eexists _, _|]. by rewrite lookup_insert_eq.
      * apply Forall2_app.
        -- eapply Forall2_impl; [exact Hserved|]. intros m' u [Hl|(p & Hp & ->)];
             [by left|right].
           exists p. split; [|done]. rewrite lookup_insert_ne; [done|]. congruence.
        -- constructor; [|constructor]. right. eexists. split; [|done].
           by rewrite lookup_insert_eq.
    + unfold Compactor.extractInvariant.
      cbn [a_cache a_extracted a_disk a_urls a_written].
      split; [done|]. split; [done|]. split; [done|]. split; [done|].
      apply Forall2_app; [done|]. constructor; [|constructor]. left.
      split; [done|]. by eexists _, _.
Qed.

Lemma replaceLoop_invariant html slug q w matches :
  forall done lastIndex st,
    extractInvariant html slug done st ->
    extractInvariant html slug (done ++ matches)
      (replaceLoop html (extractOne html slug q w) matches lastIndex st).2.
Proof.
  induction matches as [|m matches IH]; intros done lastIndex st Hinv.
  - by rewrite app_nil_r.
  - cbn [replaceLoop].
    pose proof (extractOne_invariant html slug q w done st m Hinv) as H1.
    destruct (extractOne html slug q w st m) as [repl st1]. cbn [snd] in H1.
    pose proof (IH (done ++ [m]) (f_end m) st1 H1) as H2.
    destruct (replaceLoop _ _ matches _ st1) as [parts st2]. cbn [snd] in *.
    by rewrite <- app_assoc in H2.
Qed.

Lemma extractImagesToAssets_invariant html slug q w disk :
  extractInvariant html slug (dataImageMatches html)
    (extractImagesToAssets html slug q w disk).2.
Proof.
  assert (extractInvariant html slug [] (Assets ∅ 0 disk [] [])) as H0.
  { unfold Compactor.extractInvariant.
    cbn [a_cache a_extracted a_disk a_urls a_written].
    split; [done|]. split; [done|]. split; [by intros sha p; rewrite lookup_empty|].
    split; [by intros n path content; rewrite lookup_nil|]. constructor. }
  unfold Compactor.extractImagesToAssets, replaceAsync.
  pose proof (replaceLoop_invariant html slug q w (dataImageMatches html) [] 0 _ H0)
    as H.
  destruct (dataImageMatches html) as [|m ms]; [done|].
  destruct (replaceLoop _ _ (m :: ms) _ _) as [parts st']. exact H.
Qed.

(** What the callback returns is what it logs. *)
Lemma extractOne_url html slug q w st m :
  a_urls (extractOne html slug q w st m).2
  = a_urls st ++ [(extractOne html slug q w st m).1].
Proof.
  unfold Compactor.extractOne.
  destruct (truthy _) as [p|]; [done|].
  destruct (converted _ _ _ _ _ _) as [outBuf ext].
  by destruct (canWrite _ outBuf).
Qed.

(** The parts [replaceAsync] joins are the document with each match
    replaced by what the callback returned for it. *)
Lemma replaceLoop_document html slug q w matches :
  forall lastIndex st,
    exists texts,
      a_urls (replaceLoop html (extractOne html slug q w) matches lastIndex st).2
      = a_urls st ++ texts /\
      concat (replaceLoop html (extractOne html slug q w) matches lastIndex st).1
      = spliceMatches html matches texts lastIndex.
Proof.
  induction matches as [|m matches IH]; intros lastIndex st.
  - exists []. cbn [replaceLoop fst snd concat spliceMatches].
    by rewrite !app_nil_r.
  - cbn [replaceLoop].
    pose proof (extractOne_url html slug q w st m) as Hu.
    destruct (extractOne html slug q w st m) as [repl st1]. cbn [fst snd] in Hu.
    destruct (IH (f_end m) st1) as (texts & Ht & Hc).
    destruct (replaceLoop _ _ matches _ st1) as [parts st2]. cbn [fst snd] in *.
    exists (repl :: texts). split.
    + by rewrite Ht, Hu, <- app_assoc.
    + cbn [concat spliceMatches]. by rewrite Hc.
Qed.

(** Extraction stores one asset for each content: the counter returned
    counts the distinct contents cached and the files written; the document
    returned is the document given with each match replaced by a text and
    everything between the matches copied; that text is a slash and the
    path cached for the content of the match, the same for every copy of an
    image, or the match's own text after a write that failed. *)
Theorem one_asset_for_each_content html slug q w disk :
  let r := extractImagesToAssets html slug q w disk in
  let st := r.2 in
  a_extracted st = size (a_cache st) /\
  a_extracted st = length (a_written st) /\
  r.1 = spliceMatches html (dataImageMatches html) (a_urls st) 0 /\
  Forall2 (servedFrom canWrite contentOf html (a_cache st))
          (dataImageMatches html) (a_urls st) /\
  ((forall path content, canWrite path content = true) ->
   Forall2 (fun m url => exists p, a_cache st !! contentOf m = Some p /\
                                   url = str "/" ++ p)
           (dataImageMatches html) (a_urls st)).
Proof.
  intros r st.
  destruct (extractImagesToAssets_invariant html slug q w disk)
    as (H1 & H2 & _ & _ & H3).
  fold r in H1, H2, H3. fold st in H1, H2, H3.
  split; [done|]. split; [done|]. split; [|split; [done|]].
  - subst st r. unfold Compactor.extractImagesToAssets, replaceAsync.
    destruct (dataImageMatches html) as [|m ms] eqn:E; [done|].
    destruct (replaceLoop_document html slug q w (m :: ms) 0 (Assets ∅ 0 disk [] []))
      as (texts & Ht & Hc).
    destruct (replaceLoop _ _ (m :: ms) _ _) as [parts st']. cbn [fst snd] in *.
    by rewrite Hc, Ht.
  - intros Hw. eapply Forall2_impl; [exact H3|].
    intros m u [[_ (path & content & Hf)]|H]; [|done]. rewrite Hw in Hf. discriminate.
Qed.

(** No asset file is written twice: the files written have names that
    differ in their number, and at the end each is on disk with the content
    that was written to it. *)
Theorem asset_files_never_collide html slug q w disk :
  let st := (extractImagesToAssets html slug q w disk).2 in
  NoDup (a_written st).*1 /\
  (forall path content, (path, content) ∈ a_written st ->
                        a_disk st !! path = Some content) /\
  (forall n path content, a_written st !! n = Some (path, content) ->
     exists sha ext,
       path = joinPath (joinPath ASSET_ROOT slug) (assetName n sha ext)).
Proof.
  intros st.
  destruct (extractImagesToAssets_invariant html slug q w disk)
    as (_ & _ & _ & Hnames & _).
  fold st in Hnames. split; [|split].
  - apply NoDup_alt. intros i j path Hi Hj.
    rewrite list_lookup_fmap in Hi, Hj.
    destruct (a_written st !! i) as [[pi ci]|] eqn:Ei; [|done].
    destruct (a_written st !! j) as [[pj cj]|] eqn:Ej; [|done].
    simpl in Hi, Hj. injection Hi as ->. injection Hj as ->.
    destruct (Hnames _ _ _ Ei) as [(s1 & e1 & H1) _].
    destruct (Hnames _ _ _ Ej) as [(s2 & e2 & H2) _].
    rewrite H1 in H2. by apply app_inv_head, app_inv_head, assetName_inj in H2.
  - intros path content Hin. apply list_elem_of_lookup in Hin as [n Hn].
    by eapply Hnames.
  - intros n path content Hn. by eapply Hnames.
Qed.

End ExtractProperties.

(** ** The properties above at concrete inputs *)

(** An encoder that always throws, over the page that holds the same image
    twice. *)
Lemma failing_encoder_changes_nothing_witness :
  (forall j, Samples.failing j = None) /\
  exists r,
    compressInlineOnce false Samples.decodeBase64 Samples.encodeBase64
      Samples.digest Samples.failing Samples.wrappedTwice 70 1600 = Some r /\
    r_html r = Samples.wrappedTwice /\ r_replacements r = 0.
Proof.
  split; [intros j; reflexivity|].
  destruct (failing_encoder_changes_nothing false Samples.decodeBase64
              Samples.encodeBase64 Samples.digest Samples.failing
              Samples.wrappedTwice 70 1600 (fun j => eq_refl))
    as (r & Hr & Hh & Hn & _).
  exists r. split; [exact Hr|]. split; [exact Hh|exact Hn].
Defined.

(** The page of 42 bytes with one small PNG, the size of the file as the
    target: one pass. *)
Lemma no_target_means_one_pass_witness :
  byteLength Samples.smallPng <= 42 /\
  exists r,
    compact false Samples.decodeBase64 Samples.encodeBase64 Samples.digest
      Samples.halving None 42 Samples.smallPng 70 1600
    = Some (r_html r, [byteLength (r_html r)]).
Proof.
  assert (byteLength Samples.smallPng <= 42) as Hle by (vm_compute; lia).
  split; [exact Hle|].
  destruct (no_target_means_one_pass false Samples.decodeBase64
              Samples.encodeBase64 Samples.digest Samples.halving
              42 Samples.smallPng 70 1600 Hle) as (r & _ & Hr).
  exists r. exact Hr.
Defined.

(** The strips at work: a block in capitals is taken away; [<scripts] opens
    no block; taking a block away can leave a new one behind, so the strip
    is not idempotent; and of two style blocks only the one above the
    threshold goes. *)
Example strips_at_work :
  stripScripts Samples.scriptedPage = str "<p>a</p><p>b</p>" /\
  stripScripts (str "<scripts>x</script>") = str "<scripts>x</script>" /\
  stripScripts Samples.nestedScript = str "<script>x</script>" /\
  stripScripts (stripScripts Samples.nestedScript) = [] /\
  stripLargeStyleBlocks Samples.styledPage 20 = str "<style>a{}</style><p>x</p>" /\
  stripLargeStyleBlocks Samples.styledPage 10 = str "<p>x</p>".
Proof. repeat split; vm_compute; reflexivity. Qed.

(** Options and directory in any order; an option [parseArgs] does not know
    is taken for the directory. *)
Example parseArgs_at_work :
  parseArgs [str "--apply"; str "snapshots"; str "--quiet"; str "other"]
  = (str "snapshots", MkFlags true true true) /\
  parseArgs [str "--dry-run"; str "snapshots"] = (str "--dry-run", MkFlags false false true) /\
  parseArgs [str "--no-canonical"] = ([], MkFlags false false false).
Proof. repeat split; vm_compute; reflexivity. Qed.

(** The path [/x] of https://a.com and the same path with a slash at its
    end. *)
Lemma flattenParsed_marks_trailing_slash_witness :
  str "/x" <> [] /\
  flattenParsed (MkURL (str "https:") (str "a.com") (str "/x" ++ str "/"))
  <> flattenParsed (MkURL (str "https:") (str "a.com") (str "/x")).
Proof.
  assert (str "/x" <> []) as Hne by discriminate.
  split; [exact Hne|].
  destruct (flattenParsed_marks_trailing_slash (str "https:") (str "a.com")
              (str "/x") Hne) as (_ & H & _).
  exact H.
Defined.

(** A name with full-width colons in its timestamp: the suffix of the new
    name is that timestamp with underscores, not the time of the run. *)
Lemma carried_timestamp_is_canonical_witness :
  matchDatetime Samples.oldName = Some Samples.oldStamp /\
  normalizeDatetimeForName Samples.oldStamp = str "2025-09-07T14_50_55_735Z" /\
  extractOrMakeDatetimeSuffix (str "2030-01-01T00:00:00.000Z") Samples.oldName
  = normalizeDatetimeForName Samples.oldStamp.
Proof.
  assert (matchDatetime Samples.oldName = Some Samples.oldStamp) as Hm
      by (vm_compute; reflexivity).
  split; [exact Hm|]. split; [vm_compute; reflexivity|].
  destruct (carried_timestamp_is_canonical (str "2030-01-01T00:00:00.000Z")
              Samples.oldName Samples.oldStamp Hm) as (H & _).
  exact H.
Defined.

(** The snapshot [page.html] of https://a.com/x, named at one time and met
    again at another. *)
Lemma canonical_name_is_kept_witness :
  composeName Samples.parseURL (str "2025-09-07T14:50:55.735Z") (str "page.html")
              (str "https://a.com/x") = Ret Samples.htmlFirst /\
  composeName Samples.parseURL (str "2025-09-08T10:00:00.000Z") Samples.htmlFirst
              (str "https://a.com/x") = Ret Samples.htmlFirst.
Proof.
  assert (composeName Samples.parseURL (str "2025-09-07T14:50:55.735Z")
            (str "page.html") (str "https://a.com/x") = Ret Samples.htmlFirst) as Hc
      by (vm_compute; reflexivity).
  split; [exact Hc|].
  destruct (canonical_name_is_kept Samples.parseURL
              (str "2025-09-07T14:50:55.735Z") (str "2025-09-08T10:00:00.000Z")
              (str "page.html") (str "https://a.com/x") Samples.htmlFirst Hc)
    as (_ & _ & H & _).
  - vm_compute. reflexivity.
  - vm_compute. repeat constructor.
  - vm_compute. repeat split; intros [H1 H2]; discriminate.
  - intros p m0 H. vm_compute in H. injection H as _ <-. left. reflexivity.
  - exact H.
Defined.

(** The clock of the first run and a name without a timestamp. *)
Lemma fresh_timestamp_is_canonical_witness :
  matchDatetime (str "page.html") = None /\
  Forall2 (fun f c => f c = true) isoInstantClasses (str "2025-09-07T14:50:55.735Z") /\
  extractOrMakeDatetimeSuffix (str "2025-09-07T14:50:55.735Z") (str "page.html")
  = toDatetimeIsoForName (str "2025-09-07T14:50:55.735Z") /\
  toDatetimeIsoForName (str "2025-09-07T14:50:55.735Z") = str "2025-09-07T14_50_55_735Z".
Proof.
  assert (matchDatetime (str "page.html") = None) as Hn by (vm_compute; reflexivity).
  assert (Forall2 (fun f c => f c = true) isoInstantClasses
                  (str "2025-09-07T14:50:55.735Z")) as Hiso
      by (unfold isoInstantClasses; repeat (constructor; [reflexivity|]); constructor).
  split; [exact Hn|]. split; [exact Hiso|].
  destruct (fresh_timestamp_is_canonical (str "2025-09-07T14:50:55.735Z")
              (str "page.html") Hn Hiso) as (H & _).
  split; [exact H|]. vm_compute. reflexivity.
Defined.

(** Two files whose names hold full-width colons, in a directory of their
    own: an apply run gives both a plain name and keeps both files. *)
Lemma run_keeps_every_file_witness :
  directory Samples.colonDir /\
  Forall (fun f => hasFullwidthSlash f = false) [Samples.colonA; Samples.colonB] /\
  exists fs' log,
    processDir Samples.findNothing Samples.findNothing Samples.findNothing
      Samples.findNothing Samples.absolutizeAndValidateUrl Samples.parseURL
      Samples.firstClock Samples.applyFlags [Samples.colonA; Samples.colonB]
      Samples.colonDir = Some (fs', log) /\
    directory fs' /\
    Forall (fun r => isPlainName (rp_to r) = true) log /\
    size fs' = size Samples.colonDir.
Proof.
  assert (directory Samples.colonDir) as Hdir.
  { apply map_Forall_insert_2; [reflexivity|].
    apply map_Forall_singleton. reflexivity. }
  assert (Forall (fun f => hasFullwidthSlash f = false)
                 [Samples.colonA; Samples.colonB]) as Hfiles
      by (repeat (constructor; [reflexivity|]); constructor).
  split; [exact Hdir|]. split; [exact Hfiles|].
  destruct (run_keeps_every_file Samples.findNothing Samples.findNothing
              Samples.findNothing Samples.findNothing
              Samples.absolutizeAndValidateUrl Samples.parseURL
              Samples.firstClock Samples.applyFlags
              [Samples.colonA; Samples.colonB] Samples.colonDir Hdir Hfiles)
    as (fs' & log & Hrun & Hdir' & Hlog & _ & Hsize & _).
  exists fs', log. split; [exact Hrun|]. split; [exact Hdir'|].
  split; [exact Hlog|exact Hsize].
Defined.

(** The page that holds the same PNG twice: both copies point to the one
    asset written, whose name carries the number 0 and the content hash;
    and the extensions [extFromMime] gives. *)
Example extraction_at_work :
  let r := extractImagesToAssets false Samples.decodeBase64 Samples.digest
             Samples.halving (fun _ _ => true) (fun _ => Samples.spacedTwiceMatches)
             Samples.spacedTwice (str "page") 70 1600 ∅ in
  r.1 = str "<img src='/assets/snapshots/page/img-0000-414141424242.webp'>"
        ++ str "<img src='/assets/snapshots/page/img-0000-414141424242.webp'>" /\
  a_extracted r.2 = 1 /\
  a_written r.2 = [(str "assets/snapshots/page/img-0000-414141424242.webp", str "AAA")] /\
  map (fun m => slice Samples.spacedTwice (f_start m) (f_end m))
      Samples.spacedTwiceMatches
  = [str "data:image/png;base64,QUFBQkJC"; str "data:image/png;base64,QUFB QkJC"] /\
  map extFromMime [str "image/svg+xml"; str "image/JPEG"; str "image/jpg";
                   str "image/x-icon"]
  = [str ".svg"; str ".jpg"; str ".jpg"; []].
Proof. repeat split; vm_compute; reflexivity. Qed.

(** A command line of the compactor: the value stops at a second [=], and
    [--strip-scripts=false] leaves the switch set. *)
Example parseArgv_at_work :
  let r := parseArgv [str "page.html"; str "--quality=50"; str "--strip-scripts=false";
                      str "--note=a=b"; str "--gif-webp"] ∅ [] in
  r.2 = [str "page.html"] /\
  r.1 !! str "--quality" = Some (str "50") /\
  r.1 !! str "--strip-scripts" = Some (str "false") /\
  r.1 !! str "--note" = Some (str "a") /\
  r.1 !! str "--gif-webp" = Some (str "true") /\
  r.1 !! str "--maxWidth" = None.
Proof. repeat split; vm_compute; reflexivity. Qed.
